(** * TaskFlowBackend: the task dependency engine, its authorisation
      predicates, its scheduler tick and the binary edge store.

    A shallow embedding of [core/services/TaskService.py],
    [core/services/ProjectService.py], [core/db/models/*.py] and
    [core/graph.py].  Tables are lists of rows (row order is table order),
    the task table is indexed by primary key, and every service method is a
    state-passing computation over the [Store] that may raise a Python
    exception.

    Foreign keys are ids.  Reading a referenced task, user, dependency or
    action loads its row and raises [DoesNotExist] when the row is absent.
    The [project] of a task or of a dependency is passed on and compared as
    an id: these rows are deleted with their project, so the reference is
    taken to resolve; the project row itself is loaded where its [name] is
    read.  Database errors other than the unique index of the dependency
    table are outside the model.  The interpreter's recursion limit enters
    where the code recurses on stored data, as the depth to which the
    recursion can go. *)

From Stdlib Require Import ZArith QArith Lia.
From stdpp Require Import base gmap strings list fin_sets.

Local Open Scope Z_scope.

#[local] Set Warnings "-clear-no-such-hyp".

(** ** Rows of the database models ([core/db/models]) *)

(** [TaskStatus]: a reference row.  [display_name], [color] and [order] are
    presentation columns that no service method reads. *)
Record TaskStatus := mkTaskStatus {
  status_id : Z;
  status_name : string;
  is_final : bool;
  is_blocking : bool
}.

(** [TaskStatus.get_default_statuses], with the ids the rows get when they
    are created in this order. *)
Definition todo_status := mkTaskStatus 1 "todo" false false.
Definition in_progress_status := mkTaskStatus 2 "in_progress" false false.
Definition review_status := mkTaskStatus 3 "review" false false.
Definition completed_status := mkTaskStatus 4 "completed" true false.
Definition blocked_status := mkTaskStatus 5 "blocked" false true.

Definition get_default_statuses : list TaskStatus :=
  [todo_status; in_progress_status; review_status; completed_status;
   blocked_status].

(** [ProjectRole]: the capability bundle of a project member. *)
Record ProjectRole := mkProjectRole {
  role_name : string;
  can_create_tasks : bool;
  can_edit_any_task : bool;
  can_delete_any_task : bool;
  can_edit_own_task : bool;
  can_delete_own_task : bool;
  can_create_dependencies : bool;
  can_delete_dependencies : bool;
  can_manage_members : bool;
  can_edit_project : bool;
  can_delete_project : bool
}.

(** [ProjectRole.get_default_roles]. *)
Definition owner_role :=
  mkProjectRole "owner" true true true true true true true true true true.
Definition manager_role :=
  mkProjectRole "manager" true true true true true true true true true false.
Definition developer_role :=
  mkProjectRole "developer" true false false true true true false false false
                false.
Definition observer_role :=
  mkProjectRole "observer" false false false false false false false false
                false false.

(** [User], with the columns the task engine reads.  The
    [notification_settings] text column is kept in parsed form: [None] for
    an empty column, otherwise the JSON object of flags that
    [UserService] wrote with [json.dumps]. *)
Record User := mkUser {
  user_id : Z;
  username : string;
  notification_settings : option (gmap string bool)
}.

Record Project := mkProject {
  project_id : Z;
  project_name : string
}.

Record ProjectMember := mkProjectMember {
  member_project : Z;
  member_user : Z;
  member_role : ProjectRole;
  member_is_active : bool
}.

(** [Task].  Foreign keys are ids, except [status], whose reference row is
    immutable and is carried by value.  Times are integers. *)
Record Task := mkTask {
  task_id : Z;
  task_project : Z;
  task_name : string;
  task_status : TaskStatus;
  task_assignee : option Z;
  task_creator : Z;
  task_updated_at : Z;
  task_started_at : option Z;
  task_completed_at : option Z;
  task_deadline : option Z
}.

Record TaskDependency := mkTaskDependency {
  dep_id : Z;
  dep_project : Z;
  dep_source_task : Z;
  dep_target_task : Z;
  dep_type : string;
  dep_description : option string;
  dep_created_by : Z
}.

(** [DependencyAction]; [action_type] is the [code] of the referenced
    [DependencyActionType] row. *)
Record DependencyAction := mkDependencyAction {
  action_id : Z;
  action_dependency : Z;
  action_type : string;
  action_target_user : option Z;
  action_target_status : option TaskStatus;
  message_template : option string;
  delay_minutes : Z;
  execute_order : Z;
  action_is_active : bool
}.

(** The [metadata] JSON of a [TaskEvent], for the two shapes the engine
    writes. *)
Inductive EventMetadata :=
| MetaDependency (dependency_id target_task_id : Z) (target_task_name : string)
| MetaTriggeredByAction (action : Z).

Record TaskEvent := mkTaskEvent {
  event_project : Z;
  event_task : Z;
  event_user : Z;
  event_type : string;
  old_value : option string;
  new_value : option string;
  event_metadata : option EventMetadata
}.

(** The per-action record of [execute_dependency_actions] and
    [execute_single_action]; [res_timestamp] is the [datetime] stored under
    ['timestamp'] (absent in the record of a scheduled action). *)
Record ActionResult := mkActionResult {
  res_action_id : Z;
  res_type : string;
  res_status : string;
  res_timestamp : option Z;
  res_target_user : option string;
  res_new_status : option string;
  res_error : option string;
  res_scheduled_for : option Z
}.

(** The [payload] text column of a [ScheduledAction]: empty, a JSON object
    with the keys the engine writes, or text that [json.loads] rejects. *)
Record PayloadObject := mkPayloadObject {
  hours_before : option Z;
  payload_action_id : option Z;
  payload_trigger_event : option string;
  payload_triggered_by : option string;
  payload_result : option ActionResult
}.

Inductive PayloadColumn :=
| PayloadNull
| PayloadJson (p : PayloadObject)
| PayloadInvalid.

Record ScheduledAction := mkScheduledAction {
  sched_id : Z;
  sched_project : Z;
  sched_task : Z;
  sched_action_type : string;
  scheduled_for : Z;
  executed_at : option Z;
  payload : PayloadColumn;
  sched_dependency_action : option Z;
  sched_status : string
}.

(** The [task_data] dictionary handed to the notifier. *)
Record TaskData := mkTaskData {
  data_task_id : Z;
  data_task_name : string;
  data_project_name : string;
  data_message : option string;
  data_deadline : option Z;
  data_hours_left : option Z
}.

(** One call of [UserService.send_telegram_notification]. *)
Record Notification := mkNotification {
  recipient : Z;
  kind : string;
  notif_data : TaskData
}.

(** Entries of the call log kept beside the tables: which engine steps ran,
    in order. *)
Inductive Call :=
| CallSaveTask (task : Z) (status : string)
| CallExecuteDependencyActions (dependency : Z)
| CallExecuteSingleAction (action : Z).

(** ** The store *)

Record Store := mkStore {
  statuses : list TaskStatus;
  users : gmap Z User;
  projects : gmap Z Project;
  members : list ProjectMember;
  tasks : gmap Z Task;
  dependencies : list TaskDependency;
  actions : list DependencyAction;
  events : list TaskEvent;
  scheduled : list ScheduledAction;
  outbox : list Notification;
  bot : Notification -> bool;
  calls : list Call
}.

(** ** Exceptions and the service monad *)

Inductive Exn :=
| PermissionError (msg : string)
| ValueError (msg : string)
| AttributeError (msg : string)
| TypeError (msg : string)
| JSONDecodeError
| RecursionError
| OverflowError (msg : string)
| IntegrityError
| DoesNotExist (model : string).

Inductive Res (A : Type) :=
| Ok (a : A)
| Raise (e : Exn).
Arguments Ok {A} a.
Arguments Raise {A} e.

(** A service computation: it reads and writes the store and either returns
    or raises; writes made before an exception stay (there is no rollback in
    the services). *)
Definition M (A : Type) : Type := Store -> Res A * Store.

Definition ret {A} (a : A) : M A := fun st => (Ok a, st).
Definition raise {A} (e : Exn) : M A := fun st => (Raise e, st).
Definition bind {A B} (c : M A) (k : A -> M B) : M B :=
  fun st => match c st with
            | (Ok a, st') => k a st'
            | (Raise e, st') => (Raise e, st')
            end.
Definition get_store : M Store := fun st => (Ok st, st).
Definition modify (f : Store -> Store) : M unit := fun st => (Ok tt, f st).
Definition lift {A} (r : Res A) : M A := fun st => (r, st).
(** [try: c except Exception as e: h e] *)
Definition try_except {A} (c : M A) (h : Exn -> M A) : M A :=
  fun st => match c st with
            | (Ok a, st') => (Ok a, st')
            | (Raise e, st') => h e st'
            end.

Notation "x <~ c ;; k" := (bind c (fun x => k))
  (at level 100, c at next level, right associativity).
Notation "c ;;; k" := (bind c (fun _ => k))
  (at level 100, right associativity).

(** Resolving a foreign key: the referenced row, or [DoesNotExist]. *)
Definition resolve {A} (model : string) (o : option A) : Res A :=
  match o with
  | Some a => Ok a
  | None => Raise (DoesNotExist model)
  end.

(** Field updates of the store, one per table the services write. *)
Definition set_tasks (f : gmap Z Task -> gmap Z Task) (st : Store) : Store :=
  mkStore (statuses st) (users st) (projects st) (members st) (f (tasks st))
          (dependencies st) (actions st) (events st) (scheduled st)
          (outbox st) (bot st) (calls st).
Definition set_dependencies (f : list TaskDependency -> list TaskDependency)
    (st : Store) : Store :=
  mkStore (statuses st) (users st) (projects st) (members st) (tasks st)
          (f (dependencies st)) (actions st) (events st) (scheduled st)
          (outbox st) (bot st) (calls st).
Definition set_events (f : list TaskEvent -> list TaskEvent) (st : Store)
    : Store :=
  mkStore (statuses st) (users st) (projects st) (members st) (tasks st)
          (dependencies st) (actions st) (f (events st)) (scheduled st)
          (outbox st) (bot st) (calls st).
Definition set_scheduled (f : list ScheduledAction -> list ScheduledAction)
    (st : Store) : Store :=
  mkStore (statuses st) (users st) (projects st) (members st) (tasks st)
          (dependencies st) (actions st) (events st) (f (scheduled st))
          (outbox st) (bot st) (calls st).
Definition set_outbox (f : list Notification -> list Notification)
    (st : Store) : Store :=
  mkStore (statuses st) (users st) (projects st) (members st) (tasks st)
          (dependencies st) (actions st) (events st) (scheduled st)
          (f (outbox st)) (bot st) (calls st).
Definition set_calls (f : list Call -> list Call) (st : Store) : Store :=
  mkStore (statuses st) (users st) (projects st) (members st) (tasks st)
          (dependencies st) (actions st) (events st) (scheduled st)
          (outbox st) (bot st) (f (calls st)).

Definition record_call (c : Call) : M unit :=
  modify (set_calls (fun l => l ++ [c])).

(** The id an [AutoField] gives the next row. *)
Definition next_id (ids : list Z) : Z := 1 + foldr Z.max 0 ids.

(** [str(e)] *)
Definition exn_message (e : Exn) : string :=
  match e with
  | PermissionError m | ValueError m | AttributeError m | TypeError m
  | OverflowError m => m
  | JSONDecodeError => "Expecting value"
  | RecursionError => "maximum recursion depth exceeded"
  | IntegrityError => "UNIQUE constraint failed"
  | DoesNotExist model => model +:+ " instance matching query does not exist"
  end.

(** ** ProjectService: the permission predicates *)

Module ProjectService.

(** [ProjectService.get_user_role_in_project] *)
Definition get_user_role_in_project (st : Store) (user : User) (project : Z)
    : option ProjectRole :=
  member_role <$>
    List.find (fun m => bool_decide (member_project m = project)
                        && bool_decide (member_user m = user_id user)
                        && member_is_active m)
              (members st).

(** [ProjectService.can_edit_task] *)
Definition can_edit_task (st : Store) (user : User) (task : Task) : bool :=
  match get_user_role_in_project st user (task_project task) with
  | None => false
  | Some role =>
      if can_edit_any_task role then true
      else if can_edit_own_task role then
        let is_creator := bool_decide (task_creator task = user_id user) in
        let is_assignee :=
          bool_decide (task_assignee task = Some (user_id user)) in
        is_creator || is_assignee
      else false
  end.

(** What [None.id] raises. *)
Definition none_has_no_id : Exn :=
  AttributeError "'NoneType' object has no attribute 'id'".

(** [task.creator.id] and [task.assignee.id]: the attribute [id] of the
    resolved foreign key; [task.assignee] is Python's [None] when the column
    is null, and [None.id] raises. *)
Definition creator_dot_id (st : Store) (task : Task) : Res Z :=
  match resolve "User" (users st !! task_creator task) with
  | Ok u => Ok (user_id u)
  | Raise e => Raise e
  end.

Definition assignee_dot_id (st : Store) (task : Task) : Res Z :=
  match task_assignee task with
  | None => Raise none_has_no_id
  | Some a =>
      match resolve "User" (users st !! a) with
      | Ok u => Ok (user_id u)
      | Raise e => Raise e
      end
  end.

(** [ProjectService.can_create_dependencies]; the [or] evaluates its right
    operand only when the left one is false. *)
Definition can_create_dependencies (st : Store) (user : User) (task : Task)
    : Res bool :=
  match get_user_role_in_project st user (task_project task) with
  | None => Ok false
  | Some role =>
      if can_create_dependencies role && can_edit_any_task role then Ok true
      else if can_create_dependencies role then
        match creator_dot_id st task with
        | Raise e => Raise e
        | Ok c =>
            if bool_decide (c = user_id user) then Ok true
            else match assignee_dot_id st task with
                 | Raise e => Raise e
                 | Ok a => Ok (bool_decide (a = user_id user))
                 end
        end
      else Ok false
  end.

(** [ProjectService.is_member] *)
Definition is_member (st : Store) (user : User) (project : Z) : bool :=
  match List.find (fun m => bool_decide (member_project m = project)
                            && bool_decide (member_user m = user_id user)
                            && member_is_active m)
                  (members st) with
  | Some _ => true
  | None => false
  end.

(** [ProjectService.can_manage_members], [can_edit_project],
    [can_delete_project] and [can_create_tasks] *)
Definition can_manage_members (st : Store) (user : User) (project : Z)
    : bool :=
  match get_user_role_in_project st user project with
  | None => false
  | Some role => can_manage_members role
  end.

Definition can_edit_project (st : Store) (user : User) (project : Z) : bool :=
  match get_user_role_in_project st user project with
  | None => false
  | Some role => can_edit_project role
  end.

Definition can_delete_project (st : Store) (user : User) (project : Z)
    : bool :=
  match get_user_role_in_project st user project with
  | None => false
  | Some role => can_delete_project role
  end.

Definition can_create_tasks (st : Store) (user : User) (project : Z) : bool :=
  match get_user_role_in_project st user project with
  | None => false
  | Some role => if negb (can_create_tasks role) then false else true
  end.

(** [ProjectService.can_delete_task] *)
Definition can_delete_task (st : Store) (user : User) (task : Task) : bool :=
  match get_user_role_in_project st user (task_project task) with
  | None => false
  | Some role =>
      if can_delete_any_task role then true
      else if can_delete_own_task role then
        bool_decide (task_creator task = user_id user)
      else false
  end.

End ProjectService.

(** ** Model methods used by the services ([core/db/models/task.py]) *)

Definition set_task_status (s : TaskStatus) (t : Task) : Task :=
  mkTask (task_id t) (task_project t) (task_name t) s (task_assignee t)
         (task_creator t) (task_updated_at t) (task_started_at t)
         (task_completed_at t) (task_deadline t).

(** The time stamps [Task.save] sets before writing: [updated_at] always,
    [started_at] on a first save in 'in_progress', or else [completed_at] on
    a first save in 'completed'. *)
Definition stamp (now : Z) (t : Task) : Task :=
  let name := status_name (task_status t) in
  let stamped started completed :=
    mkTask (task_id t) (task_project t) (task_name t) (task_status t)
           (task_assignee t) (task_creator t) now started completed
           (task_deadline t) in
  if bool_decide (name = "in_progress")
     && bool_decide (task_started_at t = None)
  then stamped (Some now) (task_completed_at t)
  else if bool_decide (name = "completed")
          && bool_decide (task_completed_at t = None)
  then stamped (task_started_at t) (Some now)
  else stamped (task_started_at t) (task_completed_at t).
Arguments stamp : simpl never.

(** Whether the task table holds a row with primary key [id]. *)
Definition has_task (m : gmap Z Task) (id : Z) : Prop :=
  map_Exists (fun _ row => task_id row = id) m.

(** [Task.save] on an object that has its primary key: the object is
    stamped and an UPDATE of the row with that key is issued, which
    overwrites the row and writes nothing when the table holds no such row
    (the row was deleted since the object was loaded). *)
Definition Task_save (now : Z) (t : Task) : M Task :=
  let t' := stamp now t in
  modify (set_tasks (fun m => if bool_decide (has_task m (task_id t'))
                              then <[task_id t' := t']> m else m)) ;;;
  record_call (CallSaveTask (task_id t') (status_name (task_status t'))) ;;;
  ret t'.
Arguments Task_save : simpl never.

(** [str(v) if v else None] *)
Definition str_if_truthy (v : option string) : option string :=
  match v with
  | Some s => if bool_decide (s = "") then None else Some s
  | None => None
  end.

(** [TaskEvent.log] *)
Definition TaskEvent_log (task : Task) (user : User) (event_type : string)
    (old new : option string) (metadata : option EventMetadata) : M unit :=
  modify (set_events (fun l =>
    l ++ [mkTaskEvent (task_project task) (task_id task) (user_id user)
                      event_type (str_if_truthy old) (str_if_truthy new)
                      metadata])).

(** [User.notification_settings_dict] *)
Definition default_notification_settings : gmap string bool :=
  <["telegram" := true]> (<["email" := false]> (<["task_assigned" := true]>
  (<["task_completed" := true]> (<["dependency_ready" := true]> ∅)))).

Definition notification_settings_dict (u : User) : gmap string bool :=
  default default_notification_settings (notification_settings u).

(** [timedelta(minutes=m)], in microseconds *)
Definition minutes (m : Z) : Z := m * 60000000.

(** [template or default]: an empty template is falsy. *)
Definition template_or (template : option string) (dflt : string) : string :=
  match template with
  | Some s => if bool_decide (s = "") then dflt else s
  | None => dflt
  end.

(** A [datetime] object in memory: the microseconds of its wall clock
    since 0001-01-01T00:00, and the UTC offset of its [tzinfo] when it is
    aware.  The times of the rows are naive and are kept as integers;
    [datetime.now()] is naive. *)
Record Datetime := mkDatetime {
  wall_clock : Z;
  utcoffset : option Z
}.

(** [datetime.max], 9999-12-31T23:59:59.999999, in microseconds. *)
Definition datetime_max : Z := 315537897599999999.

(** [timedelta.min] and [timedelta.max]: 999999999 days either way. *)
Definition timedelta_min : Z := - 999999999 * 86400000000.
Definition timedelta_max : Z := 999999999 * 86400000000 + 86399999999.

(** [timedelta(hours=h)], in microseconds *)
Definition hours (h : Z) : Z := h * 3600000000.

(** [timedelta(hours=h)] with its range check. *)
Definition timedelta_hours (h : Z) : Res Z :=
  if (timedelta_min <=? hours h) && (hours h <=? timedelta_max)
  then Ok (hours h)
  else Raise (OverflowError "days; must have magnitude <= 999999999").

(** [d - delta]: the wall clock moves and the [tzinfo] stays; a result
    outside [datetime.min .. datetime.max] is refused. *)
Definition datetime_sub (d : Datetime) (delta : Z) : Res Datetime :=
  let w := wall_clock d - delta in
  if (0 <=? w) && (w <=? datetime_max)
  then Ok (mkDatetime w (utcoffset d))
  else Raise (OverflowError "date value out of range").

(** [a < b]: two naive values compare by wall clock, two aware ones by
    instant, and a naive one cannot be compared with an aware one. *)
Definition datetime_lt (a b : Datetime) : Res bool :=
  match utcoffset a, utcoffset b with
  | None, None => Ok (wall_clock a <? wall_clock b)
  | Some oa, Some ob => Ok (wall_clock a - oa <? wall_clock b - ob)
  | _, _ =>
      Raise (TypeError "can't compare offset-naive and offset-aware datetimes")
  end.

(** [ScheduledAction.schedule_deadline_notification].  [task] is the
    object in memory, whose [deadline] is the [datetime] that [create_task]
    or [update_task] was called with: its wall clock is [task_deadline],
    and [tzinfo] is its UTC offset when it is aware.  The created row takes
    the defaults of the model: status 'pending', no [executed_at], no
    [dependency_action]. *)
Definition schedule_deadline_notification (task : Task) (tzinfo : option Z)
    (hours_before : Z) (now : Z) : M (option ScheduledAction) :=
  match task_deadline task with
  | None => ret None
  | Some wall =>
      let deadline := mkDatetime wall tzinfo in
      delta <~ lift (timedelta_hours hours_before) ;;
      notify_time <~ lift (datetime_sub deadline delta) ;;
      late <~ lift (datetime_lt notify_time (mkDatetime now None)) ;;
      if late then ret None
      else
        st <~ get_store ;;
        let row :=
          mkScheduledAction (next_id (sched_id <$> scheduled st))
            (task_project task) (task_id task) "deadline_approaching"
            (wall_clock notify_time) None
            (PayloadJson (mkPayloadObject (Some hours_before) None None None
                            None))
            None "pending" in
        modify (set_scheduled (fun l => l ++ [row])) ;;;
        ret (Some row)
  end.



(** ** TaskService *)

Module TaskService.

(** [TaskService.get_status_by_name] *)
Definition get_status_by_name (st : Store) (name : string)
    : option TaskStatus :=
  List.find (fun s => bool_decide (status_name s = name)) (statuses st).

(** The two dependency queries: rows of the task's project that end, or
    start, at the task. *)
Definition incoming (st : Store) (task : Task) : list TaskDependency :=
  List.filter (fun d => bool_decide (dep_project d = task_project task)
                        && bool_decide (dep_target_task d = task_id task))
              (dependencies st).

Definition outgoing (st : Store) (task : Task) : list TaskDependency :=
  List.filter (fun d => bool_decide (dep_project d = task_project task)
                        && bool_decide (dep_source_task d = task_id task))
              (dependencies st).

(** The [for dep in incoming] loop of [check_task_readiness]. *)
Fixpoint all_sources_completed (st : Store) (deps : list TaskDependency)
    : Res bool :=
  match deps with
  | [] => Ok true
  | dep :: rest =>
      match resolve "Task" (tasks st !! dep_source_task dep) with
      | Raise e => Raise e
      | Ok source_task =>
          if negb (bool_decide
                     (status_name (task_status source_task) = "completed"))
          then Ok false
          else all_sources_completed st rest
      end
  end.

(** [TaskService.check_task_readiness] *)
Definition check_task_readiness (st : Store) (task : Task) : Res bool :=
  if negb (bool_decide (status_name (task_status task) = "todo")) then Ok false
  else
    match incoming st task with
    | [] => Ok true
    | deps => all_sources_completed st deps
    end.

(** The rows [dfs] iterates over at [task_id]. *)
Definition successors (st : Store) (source : Task) (task_id : Z)
    : list TaskDependency :=
  List.filter (fun d => bool_decide (dep_project d = task_project source)
                        && bool_decide (dep_source_task d = task_id))
              (dependencies st).

(** The [for dep in deps] loop of the nested [dfs]; [rec] is the recursive
    call, which takes and returns the closure variable [visited]. *)
Fixpoint dfs_loop (rec : gset Z -> Z -> option (bool * gset Z))
    (deps : list TaskDependency) (visited : gset Z)
    : option (bool * gset Z) :=
  match deps with
  | [] => Some (false, visited)
  | dep :: rest =>
      match rec visited (dep_target_task dep) with
      | Some (true, v) => Some (true, v)
      | Some (false, v) => dfs_loop rec rest v
      | None => None
      end
  end.

(** The nested [dfs] of [would_create_cycle].  It calls itself once per
    task on the path it follows, and nothing catches the [RecursionError]
    of the interpreter: [depth] is the number of nested calls of [dfs] in
    which the interpreter can still run the query for the outgoing rows
    (its recursion limit, 1000 unless it is raised, less the frames in use
    when [would_create_cycle] is called and those of the query), and [None]
    stands for the [RecursionError] raised where that depth is used up.
    The two tests that precede the query run before it does. *)
Fixpoint dfs (depth : nat) (st : Store) (source : Task) (visited : gset Z)
    (task_id' : Z) : option (bool * gset Z) :=
  if bool_decide (task_id' = task_id source) then Some (true, visited)
  else if bool_decide (task_id' ∈ visited) then Some (false, visited)
  else
    match depth with
    | O => None
    | S depth' =>
        dfs_loop (dfs depth' st source) (successors st source task_id')
                 ({[task_id']} ∪ visited)
    end.

(** [TaskService.would_create_cycle] *)
Definition would_create_cycle (depth : nat) (st : Store)
    (source target : Task) : Res bool :=
  match dfs depth st source ∅ (task_id target) with
  | Some (b, _) => Ok b
  | None => Raise RecursionError
  end.

(** [TaskService.send_task_notification]: the preference test, then the
    hand-over to [UserService.send_telegram_notification], whose answer is
    the store's [bot]. *)
Definition send_task_notification (user : User) (notification_type : string)
    (task_data : TaskData) : M bool :=
  let settings := notification_settings_dict user in
  if bool_decide (notification_type = "task_ready")
     && negb (default true (settings !! "dependency_ready")) then ret false
  else if bool_decide (notification_type = "task_completed")
     && negb (default true (settings !! "task_completed")) then ret false
  else if bool_decide (notification_type = "task_assigned")
     && negb (default true (settings !! "task_assigned")) then ret false
  else
    let n := mkNotification (user_id user) notification_type task_data in
    st <~ get_store ;;
    modify (set_outbox (fun l => l ++ [n])) ;;;
    ret (bot st n).

(** The initial [result] dictionary of [execute_single_action]. *)
Definition initial_result (action : DependencyAction) (now : Z)
    : ActionResult :=
  mkActionResult (action_id action) (action_type action) "executed" (Some now)
                 None None None None.

Definition with_target_user (u : string) (r : ActionResult) : ActionResult :=
  mkActionResult (res_action_id r) (res_type r) (res_status r)
                 (res_timestamp r) (Some u) (res_new_status r) (res_error r)
                 (res_scheduled_for r).

Definition with_new_status (s : string) (r : ActionResult) : ActionResult :=
  mkActionResult (res_action_id r) (res_type r) (res_status r)
                 (res_timestamp r) (res_target_user r) (Some s) (res_error r)
                 (res_scheduled_for r).

Definition with_failure (e : Exn) (r : ActionResult) : ActionResult :=
  mkActionResult (res_action_id r) (res_type r) "failed" (res_timestamp r)
                 (res_target_user r) (res_new_status r) (Some (exn_message e))
                 (res_scheduled_for r).

(** [action.dependency], [x.target_task], [x.project], a user column: each
    access loads the referenced row. *)
Definition the_dependency (id : Z) : M TaskDependency :=
  st <~ get_store ;;
  lift (resolve "TaskDependency"
          (List.find (fun d => bool_decide (dep_id d = id)) (dependencies st))).

Definition the_task (id : Z) : M Task :=
  st <~ get_store ;; lift (resolve "Task" (tasks st !! id)).

Definition the_user (id : Z) : M User :=
  st <~ get_store ;; lift (resolve "User" (users st !! id)).

Definition the_project (id : Z) : M Project :=
  st <~ get_store ;; lift (resolve "Project" (projects st !! id)).

(** The body of the [try] of [execute_single_action]. *)
Definition dispatch_action (action : DependencyAction) (triggered_by : User)
    (now : Z) (result : ActionResult) : M ActionResult :=
  let code := action_type action in
  if bool_decide (code = "notify_assignee") then
    dependency <~ the_dependency (action_dependency action) ;;
    target_task <~ the_task (dep_target_task dependency) ;;
    match task_assignee target_task with
    | None => ret result
    | Some a =>
        assignee <~ the_user a ;;
        project <~ the_project (task_project target_task) ;;
        send_task_notification assignee "task_ready"
          (mkTaskData (task_id target_task) (task_name target_task)
             (project_name project)
             (Some (template_or (message_template action)
                      ("Задача готова к выполнению: "
                       +:+ task_name target_task)))
             None None) ;;;
        ret (with_target_user (username assignee) result)
    end
  else if bool_decide (code = "notify_creator") then
    dependency <~ the_dependency (action_dependency action) ;;
    source_task <~ the_task (dep_source_task dependency) ;;
    creator <~ the_user (task_creator source_task) ;;
    project <~ the_project (task_project source_task) ;;
    send_task_notification creator "task_completed"
      (mkTaskData (task_id source_task) (task_name source_task)
         (project_name project)
         (Some (template_or (message_template action)
                  ("Задача выполнена: " +:+ task_name source_task)))
         None None) ;;;
    ret (with_target_user (username creator) result)
  else if bool_decide (code = "notify_custom")
          && bool_decide (action_target_user action <> None) then
    match action_target_user action with
    | None => ret result
    | Some u =>
        target_user <~ the_user u ;;
        dependency <~ the_dependency (action_dependency action) ;;
        target_task <~ the_task (dep_target_task dependency) ;;
        project <~ the_project (dep_project dependency) ;;
        send_task_notification target_user "custom"
          (mkTaskData (task_id target_task) (task_name target_task)
             (project_name project)
             (Some (template_or (message_template action)
                      "Уведомление о задаче"))
             None None) ;;;
        ret (with_target_user (username target_user) result)
    end
  else
    match action_target_status action with
    | Some target_status =>
        if bool_decide (code = "change_status") then
          dependency <~ the_dependency (action_dependency action) ;;
          target_task <~ the_task (dep_target_task dependency) ;;
          let old_status := task_status target_task in
          target_task <~ Task_save now
                           (set_task_status target_status target_task) ;;
          TaskEvent_log target_task triggered_by "status_changed"
            (Some (status_name old_status))
            (Some (status_name target_status))
            (Some (MetaTriggeredByAction (action_id action))) ;;;
          ret (with_new_status (status_name target_status) result)
        else ret result
    | None => ret result
    end.

(** [TaskService.execute_single_action] *)
Definition execute_single_action (action : DependencyAction)
    (trigger_event : string) (triggered_by : User) (now : Z)
    : M ActionResult :=
  record_call (CallExecuteSingleAction (action_id action)) ;;;
  let result := initial_result action now in
  try_except (dispatch_action action triggered_by now result)
             (fun e => ret (with_failure e result)).

(** [.order_by(execute_order)]: a stable ascending sort. *)
Fixpoint insert_by_order (a : DependencyAction) (l : list DependencyAction)
    : list DependencyAction :=
  match l with
  | [] => [a]
  | b :: rest =>
      if execute_order a <=? execute_order b then a :: b :: rest
      else b :: insert_by_order a rest
  end.

Definition order_by_execute_order (l : list DependencyAction)
    : list DependencyAction :=
  foldr insert_by_order [] l.

(** The active actions of a dependency, in execution order. *)
Definition active_actions (st : Store) (dependency : TaskDependency)
    : list DependencyAction :=
  order_by_execute_order
    (List.filter (fun a => bool_decide (action_dependency a = dep_id dependency)
                           && action_is_active a)
                 (actions st)).

(** [ScheduledAction.create] for a delayed action. *)
Definition schedule_delayed (dependency : TaskDependency)
    (action : DependencyAction) (trigger_event : string) (triggered_by : User)
    (now : Z) : M ActionResult :=
  target_task <~ the_task (dep_target_task dependency) ;;
  st <~ get_store ;;
  let row :=
    mkScheduledAction (next_id (sched_id <$> scheduled st))
      (dep_project dependency) (task_id target_task) "delayed_notification"
      (now + minutes (delay_minutes action)) None
      (PayloadJson (mkPayloadObject None (Some (action_id action))
                      (Some trigger_event) (Some (username triggered_by))
                      None))
      (Some (action_id action)) "pending" in
  modify (set_scheduled (fun l => l ++ [row])) ;;;
  ret (mkActionResult (action_id action) (action_type action) "scheduled"
         None None None None (Some (scheduled_for row))).

(** The [for action in actions] loop of [execute_dependency_actions]. *)
Fixpoint execute_actions (dependency : TaskDependency)
    (trigger_event : string) (triggered_by : User) (now : Z)
    (todo : list DependencyAction) : M (list ActionResult) :=
  match todo with
  | [] => ret []
  | action :: rest =>
      r <~ (if 0 <? delay_minutes action
            then schedule_delayed dependency action trigger_event
                   triggered_by now
            else execute_single_action action trigger_event triggered_by
                   now) ;;
      rs <~ execute_actions dependency trigger_event triggered_by now rest ;;
      ret (r :: rs)
  end.

(** [TaskService.execute_dependency_actions] *)
Definition execute_dependency_actions (dependency : TaskDependency)
    (trigger_event : string) (triggered_by : User) (now : Z)
    : M (list ActionResult) :=
  record_call (CallExecuteDependencyActions (dep_id dependency)) ;;;
  st <~ get_store ;;
  execute_actions dependency trigger_event triggered_by now
    (active_actions st dependency).

(** The [for dependency in outgoing] loop of [handle_task_completed]. *)
Fixpoint complete_edges (completed_by : User) (now : Z)
    (edges : list TaskDependency) : M (list ActionResult) :=
  match edges with
  | [] => ret []
  | dependency :: rest =>
      acts <~ execute_dependency_actions dependency "task_completed"
                completed_by now ;;
      target_task <~ the_task (dep_target_task dependency) ;;
      st <~ get_store ;;
      _ <~ lift (check_task_readiness st target_task) ;;
      more <~ complete_edges completed_by now rest ;;
      ret (acts ++ more)
  end.

(** [TaskService.handle_task_completed] *)
Definition handle_task_completed (task : Task) (completed_by : User)
    (now : Z) : M (list ActionResult) :=
  st <~ get_store ;;
  complete_edges completed_by now (outgoing st task).

(** The dictionary [change_task_status] returns. *)
Record StatusChange := mkStatusChange {
  sc_task : Task;
  status_changed : bool;
  old_status : TaskStatus;
  new_status : TaskStatus;
  actions_executed : list ActionResult
}.

(** [TaskService.change_task_status].  The [try] around the event log
    guards against database errors only, and is not modelled. *)
Definition change_task_status (task : Task) (new_status_name : string)
    (changed_by : User) (now : Z) : M StatusChange :=
  st <~ get_store ;;
  if negb (ProjectService.can_edit_task st changed_by task) then
    raise (PermissionError
             "You don't have permission to change this task status")
  else
    match get_status_by_name st new_status_name with
    | None =>
        raise (ValueError ("Status '" +:+ new_status_name +:+ "' not found"))
    | Some new_status =>
        let old_status := task_status task in
        if bool_decide (status_id old_status = status_id new_status) then
          ret (mkStatusChange task false old_status new_status [])
        else
          task <~ Task_save now (set_task_status new_status task) ;;
          TaskEvent_log task changed_by "status_changed"
            (Some (status_name old_status)) (Some (status_name new_status))
            None ;;;
          let result := mkStatusChange task true old_status new_status [] in
          if is_final new_status && negb (is_final old_status) then
            try_except
              (acts <~ handle_task_completed task changed_by now ;;
               ret (mkStatusChange task true old_status new_status acts))
              (fun _ => ret result)
          else ret result
    end.

(** [TaskService.create_dependency].  The table's unique index on
    [(source_task, target_task)] makes the insert itself fail on a pair that
    is already stored under another project.  [depth] is the depth left to
    the [dfs] of [would_create_cycle]. *)
Definition create_dependency (depth : nat) (source_task target_task : Task)
    (created_by : User) (dependency_type : string)
    (description : option string) (now : Z) : M TaskDependency :=
  st <~ get_store ;;
  allowed <~ lift (ProjectService.can_create_dependencies st created_by
                     source_task) ;;
  if negb allowed then
    raise (PermissionError
             "You don't have permission to create dependencies for this task")
  else if negb (bool_decide (task_project source_task
                             = task_project target_task)) then
    raise (ValueError "Tasks must be in the same project")
  else
    cyclic <~ lift (would_create_cycle depth st source_task target_task) ;;
    if cyclic then raise (ValueError "This dependency would create a cycle")
    else
      match List.find
              (fun d => bool_decide (dep_project d = task_project source_task)
                        && bool_decide (dep_source_task d = task_id source_task)
                        && bool_decide (dep_target_task d = task_id target_task))
              (dependencies st) with
      | Some _ => raise (ValueError "Dependency already exists")
      | None =>
          if existsb
               (fun d => bool_decide (dep_source_task d = task_id source_task)
                         && bool_decide (dep_target_task d
                                         = task_id target_task))
               (dependencies st)
          then raise IntegrityError
          else
            let dependency :=
              mkTaskDependency (next_id (dep_id <$> dependencies st))
                (task_project source_task) (task_id source_task)
                (task_id target_task) dependency_type description
                (user_id created_by) in
            modify (set_dependencies (fun l => l ++ [dependency])) ;;;
            TaskEvent_log source_task created_by "dependency_added" None None
              (Some (MetaDependency (dep_id dependency) (task_id target_task)
                       (task_name target_task))) ;;;
            (if is_final (task_status source_task)
             then execute_dependency_actions dependency "task_completed"
                    created_by now ;;; ret tt
             else ret tt) ;;;
            ret dependency
      end.

(** *** The scheduler tick *)

Definition set_sched_status (s : string) (r : ScheduledAction)
    : ScheduledAction :=
  mkScheduledAction (sched_id r) (sched_project r) (sched_task r)
    (sched_action_type r) (scheduled_for r) (executed_at r) (payload r)
    (sched_dependency_action r) s.

Definition set_executed_at (t : Z) (r : ScheduledAction) : ScheduledAction :=
  mkScheduledAction (sched_id r) (sched_project r) (sched_task r)
    (sched_action_type r) (scheduled_for r) (Some t) (payload r)
    (sched_dependency_action r) (sched_status r).

Definition set_payload (p : PayloadColumn) (r : ScheduledAction)
    : ScheduledAction :=
  mkScheduledAction (sched_id r) (sched_project r) (sched_task r)
    (sched_action_type r) (scheduled_for r) (executed_at r) p
    (sched_dependency_action r) (sched_status r).

(** Overwriting the rows of one primary key. *)
Definition overwrite (row : ScheduledAction) (table : list ScheduledAction)
    : list ScheduledAction :=
  map (fun r => if bool_decide (sched_id r = sched_id row) then row else r)
      table.

(** [scheduled.save()]: the row with this primary key is overwritten. *)
Definition ScheduledAction_save (row : ScheduledAction) : M unit :=
  modify (set_scheduled (overwrite row)).

(** [json.loads(text) if text else {}] and [json.loads(text or '{}')]. *)
Definition json_loads (p : PayloadColumn) : Res PayloadObject :=
  match p with
  | PayloadNull => Ok (mkPayloadObject None None None None None)
  | PayloadJson o => Ok o
  | PayloadInvalid => Raise JSONDecodeError
  end.

(** [json.dumps({**payload, 'result': result})]: the encoder has no case for
    a [datetime], so a result that carries its ['timestamp'] is refused. *)
Definition json_dumps_with_result (o : PayloadObject) (result : ActionResult)
    : Res PayloadColumn :=
  match res_timestamp result with
  | Some _ =>
      Raise (TypeError "Object of type datetime is not JSON serializable")
  | None =>
      Ok (PayloadJson (mkPayloadObject (hours_before o) (payload_action_id o)
                         (payload_trigger_event o) (payload_triggered_by o)
                         (Some result)))
  end.

Definition the_action (id : Z) : M DependencyAction :=
  st <~ get_store ;;
  lift (resolve "DependencyAction"
          (List.find (fun a => bool_decide (action_id a = id)) (actions st))).

(** The two [if]/[elif] branches inside the [try] of
    [process_scheduled_actions]; the result is the in-memory row. *)
Definition dispatch_scheduled (scheduled : ScheduledAction) (now : Z)
    : M ScheduledAction :=
  if bool_decide (sched_action_type scheduled = "deadline_approaching") then
    task <~ the_task (sched_task scheduled) ;;
    payload <~ lift (json_loads (payload scheduled)) ;;
    let hours_left := default 24 (hours_before payload) in
    match task_assignee task with
    | None => ret tt
    | Some a =>
        assignee <~ the_user a ;;
        project <~ the_project (task_project task) ;;
        send_task_notification assignee "deadline_approaching"
          (mkTaskData (task_id task) (task_name task) (project_name project)
             None (task_deadline task) (Some hours_left)) ;;;
        ret tt
    end ;;;
    ret (set_sched_status "completed" scheduled)
  else
    match sched_dependency_action scheduled with
    | Some a =>
        if bool_decide (sched_action_type scheduled = "delayed_notification")
        then
          action <~ the_action a ;;
          dependency <~ the_dependency (action_dependency action) ;;
          created_by <~ the_user (dep_created_by dependency) ;;
          result <~ execute_single_action action "delayed" created_by now ;;
          old <~ lift (json_loads (payload scheduled)) ;;
          text <~ lift (json_dumps_with_result old result) ;;
          ret (set_payload text (set_sched_status "completed" scheduled))
        else ret scheduled
    | None => ret scheduled
    end.

(** One entry of the list [process_scheduled_actions] returns. *)
Record Processed := mkProcessed {
  processed_id : Z;
  processed_type : string;
  processed_status : string;
  processed_error : option string
}.

(** The body of the [for scheduled in actions] loop: the row is claimed,
    dispatched inside the [try], and saved with its outcome. *)
Definition process_one (now : Z) (row : ScheduledAction) : M Processed :=
  let claimed := set_sched_status "processing" row in
  ScheduledAction_save claimed ;;;
  try_except
    (done <~ dispatch_scheduled claimed now ;;
     ScheduledAction_save (set_executed_at now done) ;;;
     ret (mkProcessed (sched_id claimed) (sched_action_type claimed)
            "completed" None))
    (fun e =>
       ScheduledAction_save (set_sched_status "failed" claimed) ;;;
       ret (mkProcessed (sched_id claimed) (sched_action_type claimed)
              "failed" (Some (exn_message e)))).

(** The [for scheduled in actions] loop. *)
Fixpoint process_rows (now : Z) (rows : list ScheduledAction)
    : M (list Processed) :=
  match rows with
  | [] => ret []
  | row :: rest =>
      p <~ process_one now row ;;
      ps <~ process_rows now rest ;;
      ret (p :: ps)
  end.

(** The query of the tick: due pending rows, at most 100 of them, in the
    order of the table (the query has no [order_by]). *)
Definition due_rows (st : Store) (now : Z) : list ScheduledAction :=
  take 100
    (List.filter (fun r => (scheduled_for r <=? now)
                           && bool_decide (sched_status r = "pending"))
                 (scheduled st)).

(** [TaskService.process_scheduled_actions] *)
Definition process_scheduled_actions (now : Z) : M (list Processed) :=
  st <~ get_store ;;
  process_rows now (due_rows st now).

(** *** Actions on dependencies *)




End TaskService.

(** ** The binary edge store ([core/graph.py]) *)

Module Graph.

(** The keys of [Field._format_map]; the constructor of [Field] refuses any
    other dtype. *)
Inductive DType :=
| uint8 | int8 | uint16 | int16 | uint32 | int32 | uint64 | int64.

Definition dtype_name (d : DType) : string :=
  match d with
  | uint8 => "uint8" | int8 => "int8" | uint16 => "uint16"
  | int16 => "int16" | uint32 => "uint32" | int32 => "int32"
  | uint64 => "uint64" | int64 => "int64"
  end.

(** Width in bytes and signedness of the [struct] format character. *)
Definition dtype_size (d : DType) : Z :=
  match d with
  | uint8 | int8 => 1
  | uint16 | int16 => 2
  | uint32 | int32 => 4
  | uint64 | int64 => 8
  end.

Definition dtype_signed (d : DType) : bool :=
  match d with
  | int8 | int16 | int32 | int64 => true
  | _ => false
  end.

(** The values [struct] can pack in the format of the dtype. *)
Definition dtype_min (d : DType) : Z :=
  if dtype_signed d then - 2 ^ (8 * dtype_size d - 1) else 0.
Definition dtype_max (d : DType) : Z :=
  if dtype_signed d then 2 ^ (8 * dtype_size d - 1) - 1
  else 2 ^ (8 * dtype_size d) - 1.
Definition representable (d : DType) (v : Z) : Prop :=
  dtype_min d <= v <= dtype_max d.

Record Field := mkField {
  name : string;
  dtype : DType
}.

(** [EdgeSchema]: the ordered fields; [field_map] and [offsets] are
    dictionaries keyed by field name, [_field_names] is the list of names. *)
Record EdgeSchema := mkEdgeSchema {
  fields : list Field
}.

Definition field_names (s : EdgeSchema) : list string := name <$> fields s.

Definition total_size (s : EdgeSchema) : Z :=
  foldr (fun f acc => dtype_size (dtype f) + acc) 0 (fields s).

(** [field_map[n]]; built by a dict comprehension, so the last field of a
    name wins. *)
Definition field_map (s : EdgeSchema) (n : string) : option Field :=
  List.find (fun f => bool_decide (name f = n)) (rev (fields s)).

(** [n in schema.offsets] *)
Definition in_offsets (s : EdgeSchema) (n : string) : bool :=
  bool_decide (n ∈ field_names s).

(** [EdgeSchema.get_field_dtype] *)
Definition get_field_dtype (s : EdgeSchema) (field_name : string) : string :=
  match field_map s field_name with
  | Some f => dtype_name (dtype f)
  | None => "uint16"
  end.

(** [needle in text] on strings *)
Definition contains (needle text : string) : bool :=
  match String.index 0 needle text with
  | Some _ => true
  | None => false
  end.

(** [EdgeSchema.get_max_value] *)
Definition get_max_value (s : EdgeSchema) (field_name : string) : Z :=
  let dtype := get_field_dtype s field_name in
  if contains "uint8" dtype then 255
  else if contains "uint16" dtype then 65535
  else if contains "uint32" dtype then 4294967295
  else if contains "int8" dtype then 127
  else if contains "int16" dtype then 32767
  else if contains "int32" dtype then 2147483647
  else 65535.

(** A keyword argument of [add_edge]: an [int], a finite [float] (by its
    exact value), or an object of another type. *)
Inductive Value :=
| VInt (z : Z)
| VFloat (q : Q)
| VOther.

(** The keyword arguments, in call order. *)
Definition Kwargs := list (string * Value).

Definition kwargs_get (kw : Kwargs) (n : string) : option Value :=
  snd <$> List.find (fun kv => bool_decide (fst kv = n)) kw.

Record GraphStorage := mkGraphStorage {
  schema : EdgeSchema;
  source_field : string;
  target_field : string;
  buffer : list Z;
  num_edges : Z
}.

Inductive Error :=
| MissingField (field_name : string)
| NotANumber (field_name : string)
| OutOfRange (field_name : string)
| StructError.

(** The first loop of [add_edge]. *)
Fixpoint first_missing (names : list string) (kw : Kwargs) : option string :=
  match names with
  | [] => None
  | fname :: rest =>
      match kwargs_get kw fname with
      | None => Some fname
      | Some _ => first_missing rest kw
      end
  end.

(** [value < 0 or value > max_val] *)
Definition out_of_range (v : Value) (max_val : Z) : bool :=
  match v with
  | VInt z => (z <? 0) || (max_val <? z)
  | VFloat q =>
      match (q ?= 0)%Q, (q ?= inject_Z max_val)%Q with
      | Lt, _ => true
      | _, Gt => true
      | _, _ => false
      end
  | VOther => false
  end.

(** The second loop of [add_edge], over [fields.items()]. *)
Fixpoint first_invalid (s : EdgeSchema) (items : Kwargs) : option Error :=
  match items with
  | [] => None
  | (field_name, value) :: rest =>
      if in_offsets s field_name then
        match value with
        | VOther => Some (NotANumber field_name)
        | _ =>
            if out_of_range value (get_max_value s field_name)
            then Some (OutOfRange field_name)
            else first_invalid s rest
        end
      else first_invalid s rest
  end.

(** Little-endian bytes of [v] in [n] bytes (two's complement). *)
Fixpoint le_bytes (n : nat) (v : Z) : list Z :=
  match n with
  | O => []
  | S n' => (v mod 256) :: le_bytes n' (v / 256)
  end.

(** [struct.pack_into]: the record is cleared, then the values are written
    field by field; a value the format cannot take stops the writing and
    raises.  The result is the record's bytes and whether packing ended. *)
Fixpoint pack_fields (fs : list Field) (kw : Kwargs) : list Z * bool :=
  match fs with
  | [] => ([], true)
  | f :: rest =>
      match kwargs_get kw (name f) with
      | Some (VInt z) =>
          if (dtype_min (dtype f) <=? z) && (z <=? dtype_max (dtype f)) then
            let '(bytes, ok) := pack_fields rest kw in
            (le_bytes (Z.to_nat (dtype_size (dtype f))) z ++ bytes, ok)
          else
            (replicate (Z.to_nat (total_size (mkEdgeSchema fs))) 0, false)
      | _ => (replicate (Z.to_nat (total_size (mkEdgeSchema fs))) 0, false)
      end
  end.

Inductive AddResult :=
| Added (index : Z) (g : GraphStorage)
| Failed (e : Error) (g : GraphStorage).

Definition with_buffer (b : list Z) (n : Z) (g : GraphStorage)
    : GraphStorage :=
  mkGraphStorage (schema g) (source_field g) (target_field g) b n.

(** [GraphStorage.add_edge].  The buffer is extended by one cleared record
    before [pack_into] writes at [start]; [pack_into] itself refuses a
    buffer that ends before [start + total_size]. *)
Definition add_edge (g : GraphStorage) (kw : Kwargs) : AddResult :=
  match first_missing (field_names (schema g)) kw with
  | Some fname => Failed (MissingField fname) g
  | None =>
      match first_invalid (schema g) kw with
      | Some e => Failed e g
      | None =>
          let size := Z.to_nat (total_size (schema g)) in
          let start := Z.to_nat (num_edges g * total_size (schema g)) in
          let extended := buffer g ++ replicate size 0 in
          if (length extended <? start + size)%nat then
            Failed StructError (with_buffer extended (num_edges g) g)
          else
            let '(record, ok) := pack_fields (fields (schema g)) kw in
            let buffer' := take start extended ++ record
                           ++ drop (start + size) extended in
            if ok
            then Added (num_edges g)
                       (with_buffer buffer' (num_edges g + 1) g)
            else Failed StructError (with_buffer buffer' (num_edges g) g)
      end
  end.

(** The arguments [add_edge] is meant to take: every schema field is
    supplied, and every integer supplied for a schema field lies between 0
    and the largest value of the field's dtype. *)
Definition well_supplied (g : GraphStorage) (kw : Kwargs) : Prop :=
  (forall n, In n (field_names (schema g)) -> is_Some (kwargs_get kw n))
  /\ (forall n z f, In (n, VInt z) kw -> field_map (schema g) n = Some f ->
                    0 <= z <= dtype_max (dtype f)).

(** An empty store over a schema with a signed field. *)
Definition signed_schema : EdgeSchema :=
  mkEdgeSchema [mkField "source" uint16; mkField "target" uint16;
                mkField "delta" int8].

Definition empty_storage : GraphStorage :=
  mkGraphStorage signed_schema "source" "target" [] 0.

(** *** Reading the store *)

Inductive ReadError :=
| IndexError
| KeyError (field_name : string)
| UnpackError.

Inductive Read (A : Type) :=
| Got (a : A)
| ReadFailed (e : ReadError).
Arguments Got {A} a.
Arguments ReadFailed {A} e.

(** The unsigned value of little-endian bytes, and the value [struct]
    unpacks from them in the format of a dtype. *)
Fixpoint le_value (bytes : list Z) : Z :=
  match bytes with
  | [] => 0
  | b :: rest => b + 256 * le_value rest
  end.

Definition decode (d : DType) (bytes : list Z) : Z :=
  let u := le_value bytes in
  if dtype_signed d && (2 ^ (8 * dtype_size d - 1) <=? u)
  then u - 2 ^ (8 * dtype_size d)
  else u.

(** The values [struct.unpack] reads from one record, field by field. *)
Fixpoint unpack_values (fs : list Field) (data : list Z) : list Z :=
  match fs with
  | [] => []
  | f :: rest =>
      let n := Z.to_nat (dtype_size (dtype f)) in
      decode (dtype f) (take n data) :: unpack_values rest (drop n data)
  end.

(** [dict(zip(names, values))]: a later pair of the same name wins. *)
Definition to_dict (names : list string) (values : list Z) : gmap string Z :=
  list_to_map (rev (zip names values)).

(** [EdgeSchema.unpack_from]; [struct] refuses a buffer that ends before
    [offset + total_size]. *)
Definition unpack_from (s : EdgeSchema) (buffer : list Z) (offset : nat)
    : Read (gmap string Z) :=
  let size := Z.to_nat (total_size s) in
  if (length buffer <? offset + size)%nat then ReadFailed UnpackError
  else Got (to_dict (field_names s)
              (unpack_values (fields s) (take size (drop offset buffer)))).

(** [GraphStorage.get_edge] *)
Definition get_edge (g : GraphStorage) (idx : Z) : Read (gmap string Z) :=
  if (idx <? 0) || (num_edges g <=? idx) then ReadFailed IndexError
  else unpack_from (schema g) (buffer g)
         (Z.to_nat (idx * total_size (schema g))).

(** The dictionary [schema.offsets]: the byte offset of each field in the
    record; a later field of the same name wins. *)
Fixpoint offsets_from (start : Z) (fs : list Field) : list (string * Z) :=
  match fs with
  | [] => []
  | f :: rest =>
      (name f, start) :: offsets_from (start + dtype_size (dtype f)) rest
  end.

Definition offsets (s : EdgeSchema) (n : string) : option Z :=
  snd <$> List.find (fun kv => bool_decide (fst kv = n))
                    (rev (offsets_from 0 (fields s))).

(** [struct.Struct('<' + fmt).unpack_from(buffer, pos)[0]] *)
Definition unpack_one (d : DType) (buffer : list Z) (pos : Z) : Read Z :=
  let size := Z.to_nat (dtype_size d) in
  if (length buffer <? Z.to_nat pos + size)%nat then ReadFailed UnpackError
  else Got (decode d (take size (drop (Z.to_nat pos) buffer))).

(** The [for i in range(num_edges)] loop of [get_vertices]. *)
Fixpoint vertices_loop (g : GraphStorage) (src_ofs tgt_ofs : Z)
    (src_field tgt_field : Field) (indices : list nat) (vertices : gset Z)
    : Read (gset Z) :=
  match indices with
  | [] => Got vertices
  | i :: rest =>
      let offset := Z.of_nat i * total_size (schema g) in
      match unpack_one (dtype src_field) (buffer g) (offset + src_ofs) with
      | ReadFailed e => ReadFailed e
      | Got src =>
          match unpack_one (dtype tgt_field) (buffer g) (offset + tgt_ofs)
          with
          | ReadFailed e => ReadFailed e
          | Got tgt =>
              vertices_loop g src_ofs tgt_ofs src_field tgt_field rest
                ({[tgt]} ∪ ({[src]} ∪ vertices))
          end
      end
  end.

(** The four dictionary reads at the head of [get_vertices] and of
    [adjacency_lists_fast]; a missing key raises [KeyError]. *)
Definition endpoints (g : GraphStorage) : Read (Z * Z * Field * Field) :=
  match offsets (schema g) (source_field g) with
  | None => ReadFailed (KeyError (source_field g))
  | Some src_ofs =>
      match offsets (schema g) (target_field g) with
      | None => ReadFailed (KeyError (target_field g))
      | Some tgt_ofs =>
          match field_map (schema g) (source_field g) with
          | None => ReadFailed (KeyError (source_field g))
          | Some src_field =>
              match field_map (schema g) (target_field g) with
              | None => ReadFailed (KeyError (target_field g))
              | Some tgt_field =>
                  Got (src_ofs, tgt_ofs, src_field, tgt_field)
              end
          end
      end
  end.

(** [range(num_edges)] *)
Definition edge_indices (g : GraphStorage) : list nat :=
  seq 0 (Z.to_nat (num_edges g)).

(** [GraphStorage.get_vertices] *)
Definition get_vertices (g : GraphStorage) : Read (gset Z) :=
  match endpoints g with
  | ReadFailed e => ReadFailed e
  | Got (src_ofs, tgt_ofs, src_field, tgt_field) =>
      vertices_loop g src_ofs tgt_ofs src_field tgt_field (edge_indices g) ∅
  end.

(** An adjacency dictionary: vertex to the list of
    [(other end, edge index, duration)]. *)
Definition Adjacency := gmap Z (list (Z * Z * Z)).

(** [d[v].append(x)] on a [defaultdict(list)] *)
Definition adj_append (v : Z) (x : Z * Z * Z) (d : Adjacency) : Adjacency :=
  <[v := default [] (d !! v) ++ [x]]> d.

(** The optional reader of the field named 'duration'. *)
Definition duration_reader (s : EdgeSchema) : option (Z * Field) :=
  match offsets s "duration" with
  | None => None
  | Some dur_ofs =>
      match field_map s "duration" with
      | None => None
      | Some dur_field => Some (dur_ofs, dur_field)
      end
  end.

(** The loop of [adjacency_lists_fast]. *)
Fixpoint adjacency_loop (g : GraphStorage) (src_ofs tgt_ofs : Z)
    (src_field tgt_field : Field) (dur : option (Z * Field))
    (indices : list nat) (out inn : Adjacency)
    : Read (Adjacency * Adjacency) :=
  match indices with
  | [] => Got (out, inn)
  | i :: rest =>
      let offset := Z.of_nat i * total_size (schema g) in
      match unpack_one (dtype src_field) (buffer g) (offset + src_ofs) with
      | ReadFailed e => ReadFailed e
      | Got src =>
          match unpack_one (dtype tgt_field) (buffer g) (offset + tgt_ofs)
          with
          | ReadFailed e => ReadFailed e
          | Got tgt =>
              match
                match dur with
                | Some (dur_ofs, dur_field) =>
                    unpack_one (dtype dur_field) (buffer g) (offset + dur_ofs)
                | None => Got 0
                end
              with
              | ReadFailed e => ReadFailed e
              | Got w =>
                  adjacency_loop g src_ofs tgt_ofs src_field tgt_field dur
                    rest
                    (adj_append src (tgt, Z.of_nat i, w) out)
                    (adj_append tgt (src, Z.of_nat i, w) inn)
              end
          end
      end
  end.

(** [GraphStorage.adjacency_lists_fast] *)
Definition adjacency_lists_fast (g : GraphStorage)
    : Read (Adjacency * Adjacency) :=
  match endpoints g with
  | ReadFailed e => ReadFailed e
  | Got (src_ofs, tgt_ofs, src_field, tgt_field) =>
      adjacency_loop g src_ofs tgt_ofs src_field tgt_field
        (duration_reader (schema g)) (edge_indices g) ∅ ∅
  end.

(** The buffer holds exactly [num_edges] records. *)
Definition well_sized (g : GraphStorage) : Prop :=
  0 <= num_edges g
  /\ length (buffer g) = Z.to_nat (num_edges g * total_size (schema g)).

(** *** Topological order ([GraphAlgorithms]) *)

(** The order in which a loop visits a Python set is not specified: [iter]
    stands for it, an enumeration of the elements, each once. *)
Definition iteration_order (iter : gset Z -> list Z) : Prop :=
  forall vertices, NoDup (iter vertices)
                   /\ forall v, In v (iter vertices) <-> v ∈ vertices.

Inductive AlgoError :=
| FromRead (e : ReadError)
| KeyErrorAt (vertex : Z)
| GraphContainsCycle
| OutOfFuel.

Inductive Outcome (A : Type) :=
| Returned (a : A)
| Raised (e : AlgoError).
Arguments Returned {A} a.
Arguments Raised {A} e.

(** [{v: len(in_edges[v]) for v in vertices}] *)
Definition indegrees (in_edges : Adjacency) (vs : list Z) : gmap Z Z :=
  list_to_map
    ((fun v => (v, Z.of_nat (length (default [] (in_edges !! v))))) <$> vs).

(** The [for tgt, _, _ in out_edges.get(v, [])] loop of
    [topological_sort]. *)
Fixpoint release (targets : list (Z * Z * Z)) (indegree : gmap Z Z)
    (q : list Z) : Outcome (gmap Z Z * list Z) :=
  match targets with
  | [] => Returned (indegree, q)
  | (tgt, _, _) :: rest =>
      match indegree !! tgt with
      | None => Raised (KeyErrorAt tgt)
      | Some d =>
          release rest (<[tgt := d - 1]> indegree)
            (if d - 1 =? 0 then q ++ [tgt] else q)
      end
  end.

(** The [while q] loop of [topological_sort]; [fuel] bounds the number of
    iterations and [OutOfFuel] stands for a loop that did not end. *)
Fixpoint kahn (fuel : nat) (out_edges : Adjacency) (indegree : gmap Z Z)
    (q order : list Z) : Outcome (list Z) :=
  match q with
  | [] => Returned order
  | v :: q' =>
      match fuel with
      | O => Raised OutOfFuel
      | S fuel' =>
          match release (default [] (out_edges !! v)) indegree q' with
          | Raised e => Raised e
          | Returned (indegree', q'') =>
              kahn fuel' out_edges indegree' q'' (order ++ [v])
          end
      end
  end.

(** [GraphAlgorithms.topological_sort]; every vertex is taken from the
    queue at most once, so the loop is given one iteration per vertex. *)
Definition topological_sort (iter : gset Z -> list Z) (g : GraphStorage)
    : Outcome (list Z) :=
  match adjacency_lists_fast g with
  | ReadFailed e => Raised (FromRead e)
  | Got (out_edges, in_edges) =>
      match get_vertices g with
      | ReadFailed e => Raised (FromRead e)
      | Got vertices =>
          let vs := iter vertices in
          let indegree := indegrees in_edges vs in
          let q := List.filter
                     (fun v => bool_decide (indegree !! v = Some 0)) vs in
          match kahn (length vs) out_edges indegree q [] with
          | Raised e => Raised e
          | Returned order =>
              if bool_decide (length order = size vertices)
              then Returned order
              else Raised GraphContainsCycle
          end
      end
  end.

(** [GraphAlgorithms.is_dag]: only the [ValueError] is caught. *)
Definition is_dag (iter : gset Z -> list Z) (g : GraphStorage) : Outcome bool :=
  match topological_sort iter g with
  | Returned _ => Returned true
  | Raised GraphContainsCycle => Returned false
  | Raised e => Raised e
  end.

(** *** Shortest path by hops ([GraphAlgorithms.shortest_path]) *)

(** The [for tgt, _, _ in out_edges.get(v, [])] loop of the breadth-first
    search; an entry of the queue is [(vertex, d, path)]. *)
Fixpoint expand (entries : list (Z * Z * Z)) (d : Z) (path : list Z)
    (visited : gset Z) (q : list (Z * Z * list Z))
    : gset Z * list (Z * Z * list Z) :=
  match entries with
  | [] => (visited, q)
  | (tgt, _, _) :: rest =>
      if bool_decide (tgt ∈ visited) then expand rest d path visited q
      else expand rest d path ({[tgt]} ∪ visited)
             (q ++ [(tgt, d + 1, path ++ [tgt])])
  end.

(** The [while q] loop; the distance is [None] when the queue runs
    empty. *)
Fixpoint bfs (fuel : nat) (out_edges : Adjacency) (target : Z)
    (visited : gset Z) (q : list (Z * Z * list Z))
    : Outcome (option Z * list Z) :=
  match q with
  | [] => Returned (None, [])
  | (v, d, path) :: q' =>
      if bool_decide (v = target) then Returned (Some d, path)
      else
        match fuel with
        | O => Raised OutOfFuel
        | S fuel' =>
            let '(visited', q'') :=
              expand (default [] (out_edges !! v)) d path visited q' in
            bfs fuel' out_edges target visited' q''
        end
  end.

(** [GraphAlgorithms.shortest_path] called without a [weight_field].  A
    vertex enters the queue at most once, so the loop is given one
    iteration per vertex and one for the source. *)
Definition shortest_path (g : GraphStorage) (source target : Z)
    : Outcome (option Z * list Z) :=
  match adjacency_lists_fast g with
  | ReadFailed e => Raised (FromRead e)
  | Got (out_edges, _) =>
      match get_vertices g with
      | ReadFailed e => Raised (FromRead e)
      | Got vertices =>
          bfs (S (size vertices)) out_edges target {[source]}
            [(source, 0, [source])]
      end
  end.

(** A store over [signed_schema] with one and with two edges, as calls of
    [add_edge] on [empty_storage] leave it, and the adjacency dictionaries
    of the second. *)
Definition first_edge : Kwargs :=
  [("source", VInt 1); ("target", VInt 2); ("delta", VInt 127)].
Definition second_edge : Kwargs :=
  [("source", VInt 2); ("target", VInt 3); ("delta", VInt 5)].

Definition one_edge : GraphStorage :=
  mkGraphStorage signed_schema "source" "target" [1; 0; 2; 0; 127] 1.
Definition two_edges : GraphStorage :=
  mkGraphStorage signed_schema "source" "target"
    [1; 0; 2; 0; 127; 2; 0; 3; 0; 5] 2.

Definition two_edges_out : Adjacency :=
  adj_append 2 (3, 1, 0) (adj_append 1 (2, 0, 0) ∅).
Definition two_edges_inn : Adjacency :=
  adj_append 3 (2, 1, 0) (adj_append 2 (1, 0, 0) ∅).

End Graph.

(** ** A small project used to run the services

    Project 1 with its owner alice (user 1) and the developer ivan (user 2);
    tasks A, B and C (ids 1, 2, 3), created by alice, B and C assigned to
    ivan; the dependencies A -> B (row 1) and B -> C (row 2). *)

Module Scenario.

Definition alice := mkUser 1 "alice" None.
Definition ivan := mkUser 2 "ivan" None.

Definition task (id : Z) (n : string) (s : TaskStatus) (assignee : option Z)
    : Task :=
  mkTask id 1 n s assignee 1 0 None None None.

Definition A := task 1 "A" todo_status None.
Definition B := task 2 "B" todo_status (Some 2).
Definition C := task 3 "C" todo_status (Some 2).

Definition edge (id source target : Z) : TaskDependency :=
  mkTaskDependency id 1 source target "simple" None 1.

Definition AB := edge 1 1 2.
Definition BC := edge 2 2 3.

Definition table (ts : list Task) : gmap Z Task :=
  list_to_map ((fun t => (task_id t, t)) <$> ts).

Definition store (ts : list Task) (deps : list TaskDependency)
    (acts : list DependencyAction) (sched : list ScheduledAction) : Store :=
  mkStore get_default_statuses
          (<[1 := alice]> (<[2 := ivan]> ∅))
          (<[1 := mkProject 1 "Apollo"]> ∅)
          [mkProjectMember 1 1 owner_role true;
           mkProjectMember 1 2 developer_role true]
          (table ts) deps acts [] sched [] (fun _ => true) [].

(** The chain A -> B -> C with every task in ['todo'] and no actions. *)
Definition chain : Store := store [A; B; C] [AB; BC] [] [].

(** B already completed, for a developer who wants to reopen it. *)
Definition B_done := task 2 "B" completed_status (Some 2).
Definition finished : Store := store [A; B_done; C] [AB; BC] [] [].

(** A -> B carries one active [notify_assignee] action. *)
Definition notify_ready :=
  mkDependencyAction 1 1 "notify_assignee" None None
    (Some "Ready: {task_name}") 0 0 true.
Definition notifying : Store := store [A; B; C] [AB; BC] [notify_ready] [].

(** A -> B completes B through a [change_status] action, and B -> C
    carries a [notify_assignee] action. *)
Definition complete_B :=
  mkDependencyAction 1 1 "change_status" None (Some completed_status) None
    0 0 true.
Definition notify_C :=
  mkDependencyAction 2 2 "notify_assignee" None None (Some "C can start")
    0 0 true.
Definition cascading : Store :=
  store [A; B; C] [AB; BC] [complete_B; notify_C] [].

(** A is completed already, and A -> B carries its [notify_assignee]
    action. *)
Definition A_done := task 1 "A" completed_status None.
Definition notified : Store := store [A_done; B; C] [AB; BC] [notify_ready] [].



(** A chain 1 -> 2 -> ... of [n] dependency rows over [n + 1] tasks. *)
Definition link (i : nat) : Task := task (Z.of_nat i) "T" todo_status None.
Definition long_chain (n : nat) : Store :=
  store (link <$> seq 1 (S n))
        ((fun i => edge (Z.of_nat i) (Z.of_nat i) (Z.of_nat i + 1))
           <$> seq 1 n)
        [] [].

(** A due reminder for task B. *)
Definition reminder :=
  mkScheduledAction 1 1 2 "deadline_approaching" 50 None
    (PayloadJson (mkPayloadObject (Some 24) None None None None)) None
    "pending".
Definition reminding : Store := store [A; B; C] [AB; BC] [] [reminder].

End Scenario.

(** ** Vocabulary of the properties *)

(** What a computation returns when it returns. *)
Definition returns {A} (P : A -> Prop) (c : M A) : Prop :=
  forall st a st', c st = (Ok a, st') -> P a.




(** A relation between the store before and after that a computation
    keeps, whatever it returns or raises. *)
Definition respects (R : relation Store) {A} (c : M A) : Prop :=
  forall st r st', c st = (r, st') -> R st st'.

Definition is_evaluation (c : Call) : Prop :=
  match c with
  | CallExecuteDependencyActions _ => True
  | _ => False
  end.

(** What carrying out the actions of one dependency may do to the store:
    it leaves the reference tables, the dependency graph and the actions
    alone, deletes no task, and evaluates no dependency. *)
Definition action_step (st st' : Store) : Prop :=
  statuses st' = statuses st /\ users st' = users st
  /\ projects st' = projects st /\ members st' = members st
  /\ dependencies st' = dependencies st /\ actions st' = actions st
  /\ (forall k, is_Some (tasks st !! k) -> is_Some (tasks st' !! k))
  /\ exists log, calls st' = calls st ++ log
                 /\ Forall (fun c => ~ is_evaluation c) log.

(** The dispatch of one action leaves the scheduled rows alone. *)
Definition scheduled_kept (st st' : Store) : Prop :=
  scheduled st' = scheduled st.

(** What the evaluation of dependencies may do: as [action_step], except
    that it does log evaluations. *)
Definition evaluation_step (st st' : Store) : Prop :=
  statuses st' = statuses st /\ users st' = users st
  /\ projects st' = projects st /\ members st' = members st
  /\ dependencies st' = dependencies st /\ actions st' = actions st
  /\ (forall k, is_Some (tasks st !! k) -> is_Some (tasks st' !! k)).


(** Referential integrity of the dependency table. *)
Definition dependencies_resolve (st : Store) : Prop :=
  forall d, In d (dependencies st) ->
    is_Some (tasks st !! dep_source_task d)
    /\ is_Some (tasks st !! dep_target_task d).

(** The dependency graph of a project: [edge st p u v] when a row of
    project [p] goes from task [u] to task [v]. *)
Definition edge (st : Store) (p : Z) (u v : Z) : Prop :=
  exists d, In d (dependencies st) /\ dep_project d = p
            /\ dep_source_task d = u /\ dep_target_task d = v.

Definition reaches (st : Store) (p : Z) : relation Z := rtc (edge st p).

Definition acyclic (st : Store) (p : Z) : Prop :=
  forall v, ~ tc (edge st p) v v.

(** The task ids [dfs] can be called on when it starts at [start]: [start]
    itself and the targets of the dependency rows. *)
Definition nodes (st : Store) (start : Z) : gset Z :=
  {[start]} ∪ list_to_set (dep_target_task <$> dependencies st).

(** What a negative answer of [dfs] leaves in [visited]: with every task
    it added, all the successors of that task; the source [s] is never
    added. *)
Definition explored (st : Store) (p s : Z) (visited visited' : gset Z)
    : Prop :=
  visited ⊆ visited'
  /\ forall x, x ∈ visited' -> x ∉ visited ->
               x <> s /\ forall y, edge st p x y -> y ∈ visited'.

(** The duration [adjacency_lists_fast] reads for edge [i]: 0 when the
    schema has no field 'duration'. *)
Definition read_duration (g : Graph.GraphStorage)
    (dur : option (Z * Graph.Field))
    (i : nat) : Graph.Read Z :=
  match dur with
  | Some (dur_ofs, dur_field) =>
      Graph.unpack_one (Graph.dtype dur_field) (Graph.buffer g)
        (Z.of_nat i * Graph.total_size (Graph.schema g) + dur_ofs)
  | None => Graph.Got 0
  end.





(** How a tick that took [rows] leaves a stored row [x] as [y]. *)
Definition left_by_tick (rows : list ScheduledAction)
    (x y : ScheduledAction) : Prop :=
  sched_id y = sched_id x
  /\ (In (sched_id x) (sched_id <$> rows) -> sched_status y <> "pending")
  /\ (~ In (sched_id x) (sched_id <$> rows) -> y = x).

(** Every task is stored under its primary key. *)
Definition well_keyed (st : Store) : Prop :=
  forall k t, tasks st !! k = Some t -> task_id t = k.

(** The columns of a task that no status change writes. *)
Definition same_card (t t' : Task) : Prop :=
  task_id t' = task_id t /\ task_project t' = task_project t
  /\ task_name t' = task_name t /\ task_assignee t' = task_assignee t
  /\ task_creator t' = task_creator t /\ task_deadline t' = task_deadline t.

(** What the dispatch of scheduled rows may do to what a reminder reads:
    users and projects stay, sent notifications stay sent, and tasks keep
    their key and their card. *)
Definition reminder_step (st st' : Store) : Prop :=
  users st' = users st /\ projects st' = projects st
  /\ (exists more, outbox st' = outbox st ++ more)
  /\ (well_keyed st ->
      well_keyed st'
      /\ forall k t, tasks st !! k = Some t ->
                     exists t', tasks st' !! k = Some t' /\ same_card t t').

(** [deadline - timedelta(hours=h)] can be computed: the difference of
    [h] hours is a [timedelta] and the result is a [datetime]. *)
Definition notify_time_in_range (deadline h : Z) : Prop :=
  timedelta_min <= hours h <= timedelta_max
  /\ 0 <= deadline - hours h <= datetime_max.

(** Referential integrity of the action table. *)
Definition actions_resolve (st : Store) : Prop :=
  forall a, In a (actions st) ->
            In (action_dependency a) (dep_id <$> dependencies st).

(** Two stores that differ at most in the call log. *)
Definition same_tables (st st' : Store) : Prop :=
  statuses st' = statuses st /\ users st' = users st
  /\ projects st' = projects st /\ members st' = members st
  /\ tasks st' = tasks st /\ dependencies st' = dependencies st
  /\ actions st' = actions st /\ events st' = events st
  /\ scheduled st' = scheduled st /\ outbox st' = outbox st.

(** The edge relation of a store: some stored edge, as [get_edge] reads
    it, goes from [s] to [t]. *)
Definition stored_edge (g : Graph.GraphStorage) (s t : Z) : Prop :=
  exists i m, Graph.get_edge g i = Graph.Got m
              /\ m !! Graph.source_field g = Some s
              /\ m !! Graph.target_field g = Some t.

(** [s] comes before [t] in [order]. *)
Definition before (order : list Z) (s t : Z) : Prop :=
  exists i j, (i < j)%nat /\ order !! i = Some s /\ order !! j = Some t.

(** The targets of a list of adjacency entries. *)
Definition targets_of (entries : list (Z * Z * Z)) : list Z :=
  (fun x : Z * Z * Z => x.1.1) <$> entries.

(** The number of edges into [v] whose source is not in [order]. *)
Definition pending (E : list (Z * Z)) (order : list Z) (v : Z) : nat :=
  length (List.filter (fun e : Z * Z => bool_decide (e.2 = v)
                                        && negb (bool_decide (e.1 ∈ order)))
            E).

(** What the loop of [topological_sort] keeps true of its three
    variables. *)
Definition kahn_invariant (E : list (Z * Z)) (V : gset Z)
    (indegree : gmap Z Z) (q order : list Z) : Prop :=
  NoDup (order ++ q)
  /\ (forall v, In v (order ++ q) -> v ∈ V)
  /\ (forall v, v ∈ V -> indegree !! v = Some (Z.of_nat (pending E order v)))
  /\ (forall v, v ∈ V -> (In v (order ++ q) <-> pending E order v = 0%nat))
  /\ (forall s t, In (s, t) E -> In t order -> before order s t).

(** The number of edges from [s] to [t]. *)
Definition parallel (E : list (Z * Z)) (s t : Z) : nat :=
  length (List.filter (fun e : Z * Z => bool_decide (e.1 = s)
                                        && bool_decide (e.2 = t)) E).

(** [path] is a walk from [s] to [t]: it starts at [s], ends at [t], and
    each step is a pair of [R]. *)
Definition walk (R : relation Z) (s : Z) (path : list Z) (t : Z) : Prop :=
  head path = Some s /\ last path = Some t
  /\ forall i a b, path !! i = Some a -> path !! S i = Some b -> R a b.

(** The vertex and the hop count of a queue entry. *)
Definition entry_vertex (e : Z * Z * list Z) : Z := e.1.1.
Definition entry_hops (e : Z * Z * list Z) : Z := e.1.2.

(** What the breadth-first search keeps true: [open] holds the entries
    whose successors are not all visited yet, [done] the vertices whose
    successors are. *)
Definition bfs_invariant (R : relation Z) (source target : Z) (bound : gset Z)
    (visited : gset Z) (open : list (Z * Z * list Z)) (done : gset Z)
    : Prop :=
  (forall v d p, In (v, d, p) open ->
     walk R source p v /\ d = Z.of_nat (length p) - 1
     /\ (v ∉ done)
     /\ forall p', walk R source p' v -> (length p <= length p')%nat)
  /\ (forall u, u ∈ visited <-> (u ∈ done) \/ In u (entry_vertex <$> open))
  /\ (forall u t, u ∈ done -> R u t -> t ∈ visited)
  /\ source ∈ visited
  /\ (target ∉ done)
  /\ visited ⊆ {[source]} ∪ bound
  /\ NoDup (entry_vertex <$> open)
  /\ (forall i j e1 e2, (i <= j)%nat -> open !! i = Some e1 ->
        open !! j = Some e2 -> entry_hops e1 <= entry_hops e2)
  /\ (forall e0 e, head open = Some e0 -> In e open ->
        entry_hops e <= entry_hops e0 + 1).

(** * Properties *)

(** ** Running the computations *)

Lemma bind_ok {A B} (c : M A) (k : A -> M B) (st st' : Store) (a : A) :
  c st = (Ok a, st') -> bind c k st = k a st'.
Proof. intros H. unfold bind. rewrite H. reflexivity. Qed.

Lemma the_task_ok (id : Z) (t : Task) (st : Store) :
  tasks st !! id = Some t -> TaskService.the_task id st = (Ok t, st).
Proof.
  intros H. unfold TaskService.the_task, bind, get_store, lift.
  rewrite H. reflexivity.
Qed.

(** ** Store relations kept by the computations *)

Section Respects.

Context (R : relation Store) `{!PreOrder R}.

Lemma respects_ret {A} (a : A) : respects R (ret a).
Proof. intros st r st' [= <- <-]. reflexivity. Qed.

Lemma respects_raise {A} (e : Exn) : respects R (@raise A e).
Proof. intros st r st' [= <- <-]. reflexivity. Qed.

Lemma respects_lift {A} (x : Res A) : respects R (lift x).
Proof. intros st r st' [= <- <-]. reflexivity. Qed.

Lemma respects_get : respects R get_store.
Proof. intros st r st' [= <- <-]. reflexivity. Qed.

Lemma respects_modify (f : Store -> Store) :
  (forall st, R st (f st)) -> respects R (modify f).
Proof. intros Hf st r st' [= <- <-]. apply Hf. Qed.

Lemma respects_bind {A B} (c : M A) (k : A -> M B) :
  respects R c -> (forall a, respects R (k a)) -> respects R (bind c k).
Proof.
  intros Hc Hk st r st'. unfold bind.
  destruct (c st) as [[a|e] st1] eqn:Hrun; intros Hres.
  - transitivity st1; [exact (Hc _ _ _ Hrun)|exact (Hk _ _ _ _ Hres)].
  - injection Hres as <- <-. exact (Hc _ _ _ Hrun).
Qed.

Lemma respects_try {A} (c : M A) (h : Exn -> M A) :
  respects R c -> (forall e, respects R (h e)) -> respects R (try_except c h).
Proof.
  intros Hc Hh st r st'. unfold try_except.
  destruct (c st) as [[a|e] st1] eqn:Hrun; intros Hres.
  - injection Hres as <- <-. exact (Hc _ _ _ Hrun).
  - transitivity st1; [exact (Hc _ _ _ Hrun)|exact (Hh _ _ _ _ Hres)].
Qed.

End Respects.

Ltac respects_step :=
  first [ apply respects_ret; solve [typeclasses eauto]
        | apply respects_raise; solve [typeclasses eauto]
        | apply respects_lift; solve [typeclasses eauto]
        | apply respects_get; solve [typeclasses eauto]
        | apply respects_bind; [typeclasses eauto| |intros ?]
        | apply respects_try; [typeclasses eauto| |intros ?]
        | apply respects_ret | apply respects_raise | apply respects_lift
        | apply respects_get
        | apply respects_bind; [|intros ?]
        | apply respects_try; [|intros ?]
        | match goal with
          | |- respects _ (if ?b then _ else _) => destruct b
          | |- respects _ (match ?x with _ => _ end) => destruct x
          end ].

#[local] Instance action_step_preorder : PreOrder action_step.
Proof.
  split.
  - intros st. repeat split; try reflexivity; [tauto|].
    exists []. rewrite app_nil_r. split; [reflexivity|constructor].
  - intros a b c (?&?&?&?&?&?&Hk1&l1&Hc1&Hl1) (?&?&?&?&?&?&Hk2&l2&Hc2&Hl2).
    repeat split; try congruence; [auto|].
    exists (l1 ++ l2). split.
    + rewrite Hc2, Hc1, app_assoc. reflexivity.
    + apply Forall_app; split; assumption.
Qed.

#[local] Instance evaluation_step_preorder : PreOrder evaluation_step.
Proof.
  split.
  - intros st. repeat split; try reflexivity. tauto.
  - intros a b c (?&?&?&?&?&?&Hk1) (?&?&?&?&?&?&Hk2).
    repeat split; try congruence. auto.
Qed.

Lemma action_step_evaluation_step (st st' : Store) :
  action_step st st' -> evaluation_step st st'.
Proof. intros (?&?&?&?&?&?&?&?). repeat split; assumption. Qed.

#[local] Instance scheduled_kept_preorder : PreOrder scheduled_kept.
Proof.
  split; [intros st; reflexivity|].
  intros a b c Hab Hbc. unfold scheduled_kept in *. congruence.
Qed.

Lemma respects_weaken (R R' : relation Store) {A} (c : M A) :
  (forall st st', R st st' -> R' st st') -> respects R c -> respects R' c.
Proof. intros Himp Hc st r st' Hrun. exact (Himp _ _ (Hc _ _ _ Hrun)). Qed.

Lemma action_step_calls (c : Call) (st : Store) :
  ~ is_evaluation c -> action_step st (set_calls (fun l => l ++ [c]) st).
Proof.
  intros Hc. repeat split; try reflexivity; [tauto|].
  exists [c]. split; [reflexivity|]. repeat constructor. exact Hc.
Qed.

Lemma action_step_same_tables (st st' : Store) :
  statuses st' = statuses st -> users st' = users st ->
  projects st' = projects st -> members st' = members st ->
  dependencies st' = dependencies st -> actions st' = actions st ->
  calls st' = calls st ->
  (forall k, is_Some (tasks st !! k) -> is_Some (tasks st' !! k)) ->
  action_step st st'.
Proof.
  intros. repeat split; try assumption.
  exists []. rewrite app_nil_r. split; [assumption|constructor].
Qed.

(** The UPDATE of [Task.save] deletes no row. *)
Lemma save_keeps_rows (m : gmap Z Task) (id : Z) (t : Task) (k : Z) :
  is_Some (m !! k) ->
  is_Some ((if bool_decide (has_task m id) then <[id := t]> m else m) !! k).
Proof.
  intros Hk. destruct (bool_decide _); [|exact Hk].
  destruct (decide (id = k)) as [->|Hne].
  - rewrite lookup_insert_eq. eauto.
  - rewrite lookup_insert_ne by exact Hne. exact Hk.
Qed.

Lemma Task_save_step (now : Z) (t : Task) :
  respects action_step (Task_save now t).
Proof.
  unfold Task_save, record_call.
  repeat respects_step; apply respects_modify; intros st.
  - apply action_step_same_tables; try reflexivity.
    intros k Hk. simpl. apply save_keeps_rows, Hk.
  - apply action_step_calls. simpl. tauto.
Qed.

Lemma TaskEvent_log_step task user ty old new meta :
  respects action_step (TaskEvent_log task user ty old new meta).
Proof.
  apply respects_modify. intros st.
  apply action_step_same_tables; try reflexivity. tauto.
Qed.

Lemma send_task_notification_step user ty data :
  respects action_step (TaskService.send_task_notification user ty data).
Proof.
  unfold TaskService.send_task_notification.
  repeat respects_step.
  apply respects_modify. intros st.
  apply action_step_same_tables; try reflexivity. tauto.
Qed.

Lemma execute_single_action_step action ev user now :
  respects action_step (TaskService.execute_single_action action ev user now).
Proof.
  unfold TaskService.execute_single_action, TaskService.dispatch_action,
    TaskService.the_dependency, TaskService.the_task, TaskService.the_user,
    TaskService.the_project, record_call.
  repeat first
    [ apply Task_save_step | apply TaskEvent_log_step
    | apply send_task_notification_step
    | respects_step ].
  apply respects_modify. intros st.
  apply action_step_calls. simpl. tauto.
Qed.

Lemma execute_single_action_keeps_scheduled action ev user now :
  respects scheduled_kept
    (TaskService.execute_single_action action ev user now).
Proof.
  unfold TaskService.execute_single_action, TaskService.dispatch_action,
    TaskService.the_dependency, TaskService.the_task, TaskService.the_user,
    TaskService.the_project, TaskService.send_task_notification, Task_save,
    TaskEvent_log, record_call.
  repeat respects_step; apply respects_modify; intros st; reflexivity.
Qed.

(** ** Readiness *)

Section Readiness.

Import TaskService.

Lemma incoming_row (st : Store) (task : Task) (d : TaskDependency) :
  In d (incoming st task) <->
  In d (dependencies st) /\ dep_project d = task_project task
  /\ dep_target_task d = task_id task.
Proof.
  unfold incoming. rewrite filter_In, andb_true_iff, !bool_decide_eq_true.
  tauto.
Qed.

Lemma all_sources_completed_spec (st : Store) (deps : list TaskDependency) :
  (forall d, In d deps -> is_Some (tasks st !! dep_source_task d)) ->
  exists b, all_sources_completed st deps = Ok b /\
    (b = true <->
     forall d source, In d deps -> tasks st !! dep_source_task d = Some source ->
                      status_name (task_status source) = "completed").
Proof.
  induction deps as [|dep rest IH]; intros Hfk; simpl.
  - exists true. split; [reflexivity|]. split; [intros _ d s []|reflexivity].
  - destruct (Hfk dep (or_introl eq_refl)) as [src Hsrc]. rewrite Hsrc. simpl.
    destruct (bool_decide (status_name (task_status src) = "completed"))
      eqn:Hc; simpl.
    + apply bool_decide_eq_true in Hc.
      destruct IH as [b [Hb Hiff]]; [intros d Hd; apply Hfk; now right|].
      exists b. split; [exact Hb|]. rewrite Hiff. split.
      * intros H d s [<-|Hd] Hs; [congruence|eauto].
      * intros H d s Hd Hs. apply (H d s); [now right|exact Hs].
    + apply bool_decide_eq_false in Hc. exists false.
      split; [reflexivity|]. split; [discriminate|].
      intros H. exfalso. apply Hc, (H dep src); [now left|exact Hsrc].
Qed.

(** C1: [check_task_readiness] answers, and answers true exactly when the
    task's status name is 'todo' and the source task of every dependency
    row that ends at the task has status name 'completed'; so a 'todo' task
    without incoming rows is ready and a task in another status never is.
    The hypothesis is referential integrity of the incoming rows. *)
Theorem check_task_readiness_iff (st : Store) (task : Task) :
  (forall d, In d (dependencies st) -> dep_project d = task_project task ->
             dep_target_task d = task_id task ->
             is_Some (tasks st !! dep_source_task d)) ->
  exists ready,
    check_task_readiness st task = Ok ready
    /\ (ready = true <->
        status_name (task_status task) = "todo"
        /\ forall d source,
             In d (dependencies st) -> dep_project d = task_project task ->
             dep_target_task d = task_id task ->
             tasks st !! dep_source_task d = Some source ->
             status_name (task_status source) = "completed")
    /\ (status_name (task_status task) <> "todo" -> ready = false)
    /\ (status_name (task_status task) = "todo" ->
        (forall d, In d (dependencies st) ->
                   dep_project d = task_project task ->
                   dep_target_task d <> task_id task) ->
        ready = true).
Proof.
  intros Hfk.
  destruct (all_sources_completed_spec st (incoming st task)) as [b [Hb Hiff]].
  { intros d Hd. apply incoming_row in Hd as (Hin & Hp & Ht). eauto. }
  assert (Hrows :
    b = true <->
    forall d source,
      In d (dependencies st) -> dep_project d = task_project task ->
      dep_target_task d = task_id task ->
      tasks st !! dep_source_task d = Some source ->
      status_name (task_status source) = "completed").
  { rewrite Hiff. split.
    - intros H d s Hin Hp Ht. apply H. apply incoming_row. tauto.
    - intros H d s Hd. apply incoming_row in Hd as (Hin & Hp & Ht). eauto. }
  unfold check_task_readiness.
  destruct (bool_decide (status_name (task_status task) = "todo")) eqn:Htodo;
    simpl.
  - apply bool_decide_eq_true in Htodo.
    exists b. split; [|split; [|split]].
    + destruct (incoming st task); [simpl in Hb; congruence|exact Hb].
    + rewrite Hrows. tauto.
    + congruence.
    + intros _ Hnone. apply Hrows. intros d s Hin Hp Ht.
      exfalso. exact (Hnone d Hin Hp Ht).
  - apply bool_decide_eq_false in Htodo.
    exists false. split; [reflexivity|]. split; [|split].
    + split; [discriminate|]. intros [H _]. contradiction.
    + reflexivity.
    + contradiction.
Qed.

(** The chain A -> B -> C of 'todo' tasks: the rows ending at B have their
    sources stored, and B is not ready. *)
Lemma check_task_readiness_iff_witness :
  exists ready,
    check_task_readiness Scenario.chain Scenario.B = Ok ready
    /\ ready = false.
Proof.
  destruct (check_task_readiness_iff Scenario.chain Scenario.B)
    as [ready [Hcall _]].
  - intros d Hd _ _.
    simpl in Hd. destruct Hd as [<-|[<-|[]]]; vm_compute; eauto.
  - exists ready. split; [exact Hcall|].
    vm_compute in Hcall. congruence.
Defined.

End Readiness.

(** ** Authorisation of dependency creation *)

Section CreateDependencyPermission.

(** C10: for a user whose role grants [create_dependencies] without
    [edit_any_task], on a task created by somebody else and without an
    assignee, [can_create_dependencies] raises [AttributeError] on the
    absent assignee instead of answering false, and [create_dependency]
    lets that exception out without writing anything. *)
Theorem can_create_dependencies_raises_on_absent_assignee
    (st : Store) (user : User) (task : Task) (role : ProjectRole)
    (creator : User) :
  ProjectService.get_user_role_in_project st user (task_project task)
    = Some role ->
  can_create_dependencies role = true ->
  can_edit_any_task role = false ->
  users st !! task_creator task = Some creator ->
  user_id creator <> user_id user ->
  task_assignee task = None ->
  ProjectService.can_create_dependencies st user task
    = Raise ProjectService.none_has_no_id
  /\ forall depth target dependency_type description now,
       TaskService.create_dependency depth task target user dependency_type
         description now st
       = (Raise ProjectService.none_has_no_id, st).
Proof.
  intros Hrole Hcreate Hany Hcreator Hother Hnone.
  assert (Hraise :
    ProjectService.can_create_dependencies st user task
    = Raise ProjectService.none_has_no_id).
  { unfold ProjectService.can_create_dependencies,
      ProjectService.creator_dot_id, ProjectService.assignee_dot_id.
    rewrite Hrole, Hcreate, Hany, Hcreator, Hnone. simpl.
    rewrite bool_decide_eq_false_2 by exact Hother. reflexivity. }
  split; [exact Hraise|].
  intros depth target ty descr now.
  unfold TaskService.create_dependency, bind, get_store, lift.
  rewrite Hraise. reflexivity.
Qed.

(** The developer ivan asks for a dependency from task A, which alice
    created and nobody is assigned to. *)
Lemma can_create_dependencies_raises_on_absent_assignee_witness :
  ProjectService.can_create_dependencies Scenario.chain Scenario.ivan
    Scenario.A = Raise ProjectService.none_has_no_id
  /\ TaskService.create_dependency 900 Scenario.A Scenario.B Scenario.ivan
       "simple" None 0 Scenario.chain
     = (Raise ProjectService.none_has_no_id, Scenario.chain).
Proof.
  destruct (can_create_dependencies_raises_on_absent_assignee
              Scenario.chain Scenario.ivan Scenario.A developer_role
              Scenario.alice) as [Hp Hc];
    [reflexivity | reflexivity | reflexivity | reflexivity
    | discriminate | reflexivity |].
  split; [exact Hp | apply Hc].
Defined.

End CreateDependencyPermission.

(** ** Status changes *)

Section StatusChange.

Import TaskService.

Lemma stamp_id (now : Z) (t : Task) : task_id (stamp now t) = task_id t.
Proof. unfold stamp. repeat case_match; reflexivity. Qed.

Lemma stamp_project (now : Z) (t : Task) :
  task_project (stamp now t) = task_project t.
Proof. unfold stamp. repeat case_match; reflexivity. Qed.

Lemma stamp_status (now : Z) (t : Task) :
  task_status (stamp now t) = task_status t.
Proof. unfold stamp. repeat case_match; reflexivity. Qed.

Lemma Task_save_eq (now : Z) (t : Task) (st : Store) :
  Task_save now t st
  = (Ok (stamp now t),
     set_calls (fun l => l ++ [CallSaveTask (task_id t)
                                 (status_name (task_status t))])
       (set_tasks (fun m => if bool_decide (has_task m (task_id t))
                            then <[task_id t := stamp now t]> m else m) st)).
Proof.
  unfold Task_save, bind, modify, record_call, ret.
  rewrite stamp_id, stamp_status. reflexivity.
Qed.

Lemma has_task_lookup (m : gmap Z Task) (k : Z) (t : Task) :
  m !! k = Some t -> has_task m (task_id t).
Proof. intros Hk. exists k, t. split; [exact Hk|reflexivity]. Qed.

(** The save of a task whose row is stored overwrites that row. *)
Lemma Task_save_stored (now : Z) (t : Task) (st : Store) :
  has_task (tasks st) (task_id t) ->
  Task_save now t st
  = (Ok (stamp now t),
     set_calls (fun l => l ++ [CallSaveTask (task_id t)
                                 (status_name (task_status t))])
       (set_tasks (fun m => <[task_id t := stamp now t]> m) st)).
Proof.
  intros Hrow. rewrite Task_save_eq. unfold set_tasks.
  rewrite (bool_decide_eq_true_2 _ Hrow). reflexivity.
Qed.

(** The save of a task whose row is gone writes nothing. *)
Lemma Task_save_gone (now : Z) (t : Task) (st : Store) :
  ~ has_task (tasks st) (task_id t) ->
  Task_save now t st
  = (Ok (stamp now t),
     set_calls (fun l => l ++ [CallSaveTask (task_id t)
                                 (status_name (task_status t))]) st).
Proof.
  intros Hrow. rewrite Task_save_eq. unfold set_tasks.
  rewrite (bool_decide_eq_false_2 _ Hrow). destruct st; reflexivity.
Qed.

Lemma find_unique_name (l : list TaskStatus) (s : TaskStatus) :
  NoDup (status_name <$> l) -> In s l ->
  List.find (fun x => bool_decide (status_name x = status_name s)) l = Some s.
Proof.
  induction l as [|x l IH]; intros Hnd Hin; [destruct Hin|].
  simpl in *. apply NoDup_cons in Hnd as [Hx Hnd].
  destruct Hin as [->|Hin].
  - rewrite bool_decide_eq_true_2; reflexivity.
  - rewrite bool_decide_eq_false_2; [apply IH; assumption|].
    intros Heq. apply Hx. rewrite Heq.
    apply list_elem_of_In, in_map, Hin.
Qed.

(** C8: asking for the status the task already has is a no-op for an actor
    who may edit the task: the record says [status_changed = false] with no
    executed actions, and the store (tasks, events, scheduled rows, outbox,
    call log) is the one before the call.  The hypotheses are the unique
    index on status names and that the task's status is a row of the status
    table. *)
Theorem change_task_status_same_status_is_noop
    (st : Store) (task : Task) (actor : User) (now : Z) :
  NoDup (status_name <$> statuses st) ->
  In (task_status task) (statuses st) ->
  ProjectService.can_edit_task st actor task = true ->
  change_task_status task (status_name (task_status task)) actor now st
  = (Ok (mkStatusChange task false (task_status task) (task_status task) []),
     st).
Proof.
  intros Hnd Hin Hperm.
  unfold change_task_status, bind, get_store, get_status_by_name.
  rewrite Hperm. simpl.
  rewrite (find_unique_name _ _ Hnd Hin).
  rewrite bool_decide_eq_true_2 by reflexivity. reflexivity.
Qed.

(** The owner asks to move the 'todo' task A to 'todo'. *)
Lemma change_task_status_same_status_is_noop_witness :
  change_task_status Scenario.A "todo" Scenario.alice 5 Scenario.chain
  = (Ok (mkStatusChange Scenario.A false todo_status todo_status []),
     Scenario.chain).
Proof.
  apply (change_task_status_same_status_is_noop Scenario.chain Scenario.A
           Scenario.alice 5).
  - apply (bool_decide_unpack _). vm_compute. exact I.
  - simpl. tauto.
  - reflexivity.
Defined.

(** C5, counterexample: ivan holds the developer role (no
    [edit_any_task]) and is the assignee of the completed task B; his
    request to move B back to 'todo' is not refused: it returns a record
    with [status_changed = true] and the stored B is in 'todo'. *)
Lemma developer_reopens_final_task :
  ProjectService.get_user_role_in_project Scenario.finished Scenario.ivan
    (task_project Scenario.B_done) = Some developer_role
  /\ can_edit_any_task developer_role = false
  /\ ProjectService.can_edit_task Scenario.finished Scenario.ivan
       Scenario.B_done = true
  /\ is_final (task_status Scenario.B_done) = true
  /\ (exists r st',
        change_task_status Scenario.B_done "todo" Scenario.ivan 7
          Scenario.finished = (Ok r, st')
        /\ status_changed r = true
        /\ is_final (new_status r) = false
        /\ task_status <$> tasks st' !! 2 = Some todo_status)
  /\ (forall e st',
        change_task_status Scenario.B_done "todo" Scenario.ivan 7
          Scenario.finished <> (Raise e, st')).
Proof.
  repeat split; try reflexivity.
  - eexists _, _. vm_compute. repeat split; reflexivity.
  - intros e st'. vm_compute. discriminate.
Qed.

(** C5, amended: [can_edit_task] is the only permission test of
    [change_task_status].  For an actor who passes it, a request for an
    existing status other than the current one is carried out whatever the
    finality of the old and the new status: the call returns a record with
    [status_changed = true] whose task carries the new status, and when the
    new status is not final (so in particular on a final to non-final
    transition) the stored task is that task.  The hypothesis on the store
    is that the row of the task is still there: [Task.save] updates it and
    would write nothing for a deleted row. *)
Theorem change_task_status_permitted_for_editor
    (st : Store) (task : Task) (name : string) (actor : User) (now : Z)
    (requested : TaskStatus) :
  has_task (tasks st) (task_id task) ->
  ProjectService.can_edit_task st actor task = true ->
  get_status_by_name st name = Some requested ->
  status_id (task_status task) <> status_id requested ->
  exists r st',
    change_task_status task name actor now st = (Ok r, st')
    /\ status_changed r = true
    /\ old_status r = task_status task
    /\ new_status r = requested
    /\ task_status (sc_task r) = requested
    /\ (is_final requested = false ->
        tasks st' !! task_id task = Some (sc_task r)).
Proof.
  intros Hrow Hperm Hfind Hne.
  unfold change_task_status, bind, get_store.
  rewrite Hperm, Hfind. cbn [negb].
  rewrite bool_decide_eq_false_2 by exact Hne.
  rewrite Task_save_stored by exact Hrow.
  unfold TaskEvent_log, modify. simpl.
  destruct (is_final requested && negb (is_final (task_status task)))
    eqn:Hcross.
  - unfold try_except, bind.
    match goal with
    | |- context [handle_task_completed ?t ?u ?n ?s] =>
        destruct (handle_task_completed t u n s) as [[acts|e] st2]
    end; unfold ret; eexists _, _; (split; [reflexivity|]); simpl;
      rewrite stamp_status; repeat split;
      intros Hnf; rewrite Hnf in Hcross; discriminate.
  - unfold ret. eexists _, _. split; [reflexivity|]. simpl.
    rewrite stamp_status. repeat split.
    intros _. apply lookup_insert_eq.
Qed.

(** The instance of the counterexample: ivan reopens the completed B,
    whose stored row is rewritten. *)
Lemma change_task_status_permitted_for_editor_witness :
  exists r st',
    change_task_status Scenario.B_done "todo" Scenario.ivan 7
      Scenario.finished = (Ok r, st')
    /\ status_changed r = true
    /\ task_status (sc_task r) = todo_status
    /\ tasks st' !! 2 = Some (sc_task r).
Proof.
  destruct (change_task_status_permitted_for_editor Scenario.finished
              Scenario.B_done "todo" Scenario.ivan 7 todo_status)
    as (r & st' & Hcall & Hchanged & _ & _ & Hstatus & Hstored);
    [exists 2, Scenario.B_done; split; reflexivity
    | reflexivity | reflexivity | discriminate |].
  exists r, st'. repeat split; try assumption. apply Hstored. reflexivity.
Defined.

(** The row of B was deleted after B was loaded: ivan's request still
    returns a record with [status_changed = true], and the save wrote
    nothing. *)
Example status_change_of_deleted_task_writes_nothing :
  exists r st',
    change_task_status Scenario.B "in_progress" Scenario.ivan 7
      (Scenario.store [Scenario.A; Scenario.C] [] [] []) = (Ok r, st')
    /\ status_changed r = true
    /\ tasks st' = tasks (Scenario.store [Scenario.A; Scenario.C] [] [] []).
Proof. eexists _, _. vm_compute. repeat split. Qed.

End StatusChange.

(** ** Immediate actions *)

Section SingleAction.

Import TaskService.

(** C6, counterexample: A -> B carries an active [notify_assignee] action
    with template "Ready: {task_name}" and B is assigned to ivan.  When the
    owner completes A the notifier is called once, for ivan, and the message
    of its payload is the template as stored, not "Ready: B". *)
Lemma template_placeholder_is_not_substituted :
  exists r st',
    change_task_status Scenario.A "completed" Scenario.alice 10
      Scenario.notifying = (Ok r, st')
    /\ res_status <$> actions_executed r = ["executed"]
    /\ (recipient <$> outbox st' = [user_id Scenario.ivan])
    /\ (data_message ∘ notif_data <$> outbox st'
        = [Some "Ready: {task_name}"])
    /\ (data_message ∘ notif_data <$> outbox st' <> [Some "Ready: B"]).
Proof.
  eexists _, _. vm_compute. repeat split. discriminate.
Qed.

(** C6, amended: no substitution is applied to [message_template].  When a
    [notify_assignee] action with a non-empty template is dispatched, its
    dependency, target task, assignee and project being stored and the
    assignee not having switched [dependency_ready] off, the notifier is
    called once, for the assignee, with kind 'task_ready' and with the
    template itself, character for character, as the payload's message; the
    action's record has status 'executed'. *)
Theorem notify_assignee_message_is_template
    (st : Store) (action : DependencyAction) (dependency : TaskDependency)
    (target_task : Task) (a : Z) (assignee : User) (project : Project)
    (template trigger_event : string) (triggered_by : User) (now : Z) :
  action_type action = "notify_assignee" ->
  message_template action = Some template ->
  template <> "" ->
  List.find (fun d => bool_decide (dep_id d = action_dependency action))
            (dependencies st) = Some dependency ->
  tasks st !! dep_target_task dependency = Some target_task ->
  task_assignee target_task = Some a ->
  users st !! a = Some assignee ->
  projects st !! task_project target_task = Some project ->
  default true (notification_settings_dict assignee !! "dependency_ready")
    = true ->
  exists r st',
    execute_single_action action trigger_event triggered_by now st
      = (Ok r, st')
    /\ res_status r = "executed"
    /\ outbox st'
       = outbox st
         ++ [mkNotification (user_id assignee) "task_ready"
               (mkTaskData (task_id target_task) (task_name target_task)
                  (project_name project) (Some template) None None)].
Proof.
  intros Hcode Htpl Hne Hdep Htask Hassignee Huser Hproject Hpref.
  unfold execute_single_action, dispatch_action, try_except, bind,
    record_call, modify, the_dependency, the_task, the_user, the_project,
    get_store, lift, send_task_notification, ret.
  rewrite Hcode. simpl. rewrite Hdep. simpl. rewrite Htask. simpl.
  rewrite Hassignee. simpl. rewrite Huser. simpl. rewrite Hproject. simpl.
  rewrite Hpref. simpl.
  eexists _, _. split; [reflexivity|]. split; [reflexivity|]. simpl.
  unfold template_or. rewrite Htpl.
  rewrite bool_decide_eq_false_2 by exact Hne. reflexivity.
Qed.

(** The action of the counterexample, dispatched on the stored chain. *)
Lemma notify_assignee_message_is_template_witness :
  exists r st',
    execute_single_action Scenario.notify_ready "task_completed"
      Scenario.alice 10 Scenario.notifying = (Ok r, st')
    /\ res_status r = "executed"
    /\ outbox st'
       = [mkNotification 2 "task_ready"
            (mkTaskData 2 "B" "Apollo" (Some "Ready: {task_name}") None None)].
Proof.
  apply (notify_assignee_message_is_template Scenario.notifying
           Scenario.notify_ready Scenario.AB Scenario.B 2 Scenario.ivan
           (mkProject 1 "Apollo") "Ready: {task_name}" "task_completed"
           Scenario.alice 10);
    solve [reflexivity | discriminate].
Defined.

(** C4, counterexample: A -> B carries an active [change_status] action to
    'completed' and B -> C an active [notify_assignee] action.  Completing A
    moves B from 'todo' (not final) to 'completed' (final), yet the actions
    of B -> C are not evaluated: the call log has no evaluation of
    dependency 2 and nothing is sent.  Completing B through
    [change_task_status] instead does evaluate B -> C. *)
Lemma change_status_action_does_not_cascade :
  (exists r st',
     change_task_status Scenario.A "completed" Scenario.alice 10
       Scenario.cascading = (Ok r, st')
     /\ task_status <$> tasks Scenario.cascading !! 2 = Some todo_status
     /\ task_status <$> tasks st' !! 2 = Some completed_status
     /\ calls st' = [CallSaveTask 1 "completed";
                     CallExecuteDependencyActions 1;
                     CallExecuteSingleAction 1;
                     CallSaveTask 2 "completed"]
     /\ outbox st' = [])
  /\ (exists r st',
        change_task_status Scenario.B "completed" Scenario.alice 10
          Scenario.cascading = (Ok r, st')
        /\ calls st' = [CallSaveTask 2 "completed";
                        CallExecuteDependencyActions 2;
                        CallExecuteSingleAction 2]
        /\ recipient <$> outbox st' = [2]).
Proof.
  split; eexists _, _; vm_compute; repeat split.
Qed.

(** C4, amended: a dispatched [change_status] action whose dependency and
    target task are stored writes the target status into the target task
    with [Task.save] and logs a 'status_changed' event in the name of the
    triggering user.  It does not go through [change_task_status]: the
    triggering user's permission is not consulted, and the outgoing
    dependencies of the target are not evaluated, whatever the finality of
    the target's old and new status; nothing is sent or scheduled. *)
Theorem change_status_action_writes_target_directly
    (st : Store) (action : DependencyAction) (dependency : TaskDependency)
    (target_task : Task) (target_status : TaskStatus)
    (trigger_event : string) (triggered_by : User) (now : Z) :
  action_type action = "change_status" ->
  action_target_status action = Some target_status ->
  List.find (fun d => bool_decide (dep_id d = action_dependency action))
            (dependencies st) = Some dependency ->
  tasks st !! dep_target_task dependency = Some target_task ->
  exists r st',
    execute_single_action action trigger_event triggered_by now st
      = (Ok r, st')
    /\ res_status r = "executed"
    /\ res_new_status r = Some (status_name target_status)
    /\ tasks st'
       = <[task_id target_task
           := stamp now (set_task_status target_status target_task)]>
           (tasks st)
    /\ events st'
       = events st
         ++ [mkTaskEvent (task_project target_task) (task_id target_task)
               (user_id triggered_by) "status_changed"
               (str_if_truthy (Some (status_name (task_status target_task))))
               (str_if_truthy (Some (status_name target_status)))
               (Some (MetaTriggeredByAction (action_id action)))]
    /\ calls st'
       = calls st
         ++ [CallExecuteSingleAction (action_id action);
             CallSaveTask (task_id target_task) (status_name target_status)]
    /\ outbox st' = outbox st
    /\ scheduled st' = scheduled st.
Proof.
  intros Hcode Hstatus Hdep Htask.
  pose proof (has_task_lookup _ _ _ Htask) as Hrow.
  unfold execute_single_action, dispatch_action, try_except, bind,
    record_call, modify, the_dependency, the_task, get_store, lift.
  rewrite Hcode, Hstatus. simpl. rewrite Hdep. simpl. rewrite Htask.
  cbn [resolve]. unfold ret.
  rewrite !stamp_id, !stamp_status, !stamp_project. simpl.
  eexists _, _. split; [reflexivity|]. simpl.
  rewrite (bool_decide_eq_true_2 _ Hrow), <- app_assoc. repeat split.
Qed.

(** The [change_status] action of the counterexample, on the same store. *)
Lemma change_status_action_writes_target_directly_witness :
  exists r st',
    execute_single_action Scenario.complete_B "task_completed"
      Scenario.alice 10 Scenario.cascading = (Ok r, st')
    /\ res_new_status r = Some "completed"
    /\ calls st' = [CallExecuteSingleAction 1; CallSaveTask 2 "completed"]
    /\ outbox st' = [].
Proof.
  destruct (change_status_action_writes_target_directly Scenario.cascading
              Scenario.complete_B Scenario.AB Scenario.B completed_status
              "task_completed" Scenario.alice 10)
    as (r & st' & Hcall & _ & Hnew & _ & _ & Hcalls & Hout & _);
    [reflexivity | reflexivity | reflexivity | reflexivity |].
  exists r, st'. repeat split; assumption.
Defined.

End SingleAction.

(** ** The scheduler tick *)

Section SchedulerTick.

Import TaskService.

Lemma returns_ret {A} (P : A -> Prop) (a : A) : P a -> returns P (ret a).
Proof. intros Ha st x st' [= <- _]. exact Ha. Qed.

Lemma returns_bind {A B} (P : B -> Prop) (c : M A) (k : A -> M B) :
  (forall a, returns P (k a)) -> returns P (bind c k).
Proof.
  intros Hk st b st'. unfold bind.
  destruct (c st) as [[a|e] st1]; [apply Hk|discriminate].
Qed.

Lemma dispatch_scheduled_step (s : ScheduledAction) (now : Z) :
  respects scheduled_kept (dispatch_scheduled s now).
Proof.
  unfold dispatch_scheduled, the_task, the_user, the_project, the_action,
    the_dependency, send_task_notification.
  repeat first
    [ apply execute_single_action_keeps_scheduled | respects_step ];
    apply respects_modify; intros st; reflexivity.
Qed.






Lemma filter_sublist {A} (f : A -> bool) (l : list A) :
  List.filter f l `sublist_of` l.
Proof.
  induction l as [|x l IH]; simpl; [constructor|].
  destruct (f x); [apply sublist_skip|apply sublist_cons]; exact IH.
Qed.




(** A due row of an action type the tick does not know is reported as
    'completed' and stamped, but its stored status stays 'processing'. *)
Example unknown_action_type_stays_processing :
  let row := mkScheduledAction 1 1 2 "weekly_digest" 50 None PayloadNull None
               "pending" in
  exists st',
    process_scheduled_actions 60 (Scenario.store [Scenario.B] [] [] [row])
    = (Ok [mkProcessed 1 "weekly_digest" "completed" None], st')
    /\ scheduled st'
       = [mkScheduledAction 1 1 2 "weekly_digest" 50 (Some 60) PayloadNull
            None "processing"].
Proof. eexists. vm_compute. split; reflexivity. Qed.


End SchedulerTick.

(** ** The edge store *)

Section EdgeStore.

Import Graph.

Lemma kwargs_get_In (kw : Kwargs) (n : string) (v : Value) :
  kwargs_get kw n = Some v -> In (n, v) kw.
Proof.
  unfold kwargs_get. intros H.
  destruct (List.find _ kw) as [[k x]|] eqn:Hfind; [|discriminate].
  injection H as <-. apply find_some in Hfind as [Hin Hk].
  apply bool_decide_eq_true in Hk. simpl in Hk. subst k. exact Hin.
Qed.

Lemma first_missing_some names kw n :
  first_missing names kw = Some n -> In n names /\ kwargs_get kw n = None.
Proof.
  induction names as [|x names IH]; simpl; [discriminate|].
  destruct (kwargs_get kw x) eqn:Hx.
  - intros H. destruct (IH H). tauto.
  - intros [= <-]. tauto.
Qed.

Lemma first_missing_none names kw :
  first_missing names kw = None ->
  forall n, In n names -> is_Some (kwargs_get kw n).
Proof.
  induction names as [|x names IH]; simpl; [intros _ n []|].
  destruct (kwargs_get kw x) eqn:Hx; [|discriminate].
  intros H n [<-|Hn]; [rewrite Hx; eauto|exact (IH H n Hn)].
Qed.

Lemma field_map_some (s : EdgeSchema) (n : string) (f : Field) :
  field_map s n = Some f -> In f (fields s) /\ name f = n.
Proof.
  unfold field_map. intros H. apply find_some in H as [Hin Hn].
  apply bool_decide_eq_true in Hn. split; [|exact Hn].
  apply in_rev. exact Hin.
Qed.

Lemma field_map_in_offsets (s : EdgeSchema) (n : string) :
  in_offsets s n = true <-> is_Some (field_map s n).
Proof.
  unfold in_offsets, field_names. rewrite bool_decide_eq_true. split.
  - intros Hn. apply list_elem_of_fmap in Hn as (f & -> & Hf).
    unfold field_map.
    destruct (List.find (fun f0 => bool_decide (name f0 = name f))
                (rev (fields s))) eqn:Hfind; [eauto|].
    exfalso. apply list_elem_of_In, in_rev in Hf.
    pose proof (find_none _ _ Hfind _ Hf) as Hno. simpl in Hno.
    rewrite bool_decide_eq_true_2 in Hno by reflexivity. discriminate.
  - intros [f Hf]. apply field_map_some in Hf as [Hin <-].
    apply list_elem_of_fmap. exists f. split; [reflexivity|].
    apply list_elem_of_In, Hin.
Qed.

Lemma field_map_unique (s : EdgeSchema) (f : Field) :
  NoDup (field_names s) -> In f (fields s) -> field_map s (name f) = Some f.
Proof.
  intros Hnd Hin.
  destruct (proj1 (field_map_in_offsets s (name f))) as [f' Hf'].
  { apply bool_decide_eq_true, list_elem_of_fmap. exists f.
    split; [reflexivity|apply list_elem_of_In, Hin]. }
  rewrite Hf'. f_equal.
  apply field_map_some in Hf' as [Hin' Hname].
  unfold field_names in Hnd. revert Hnd Hin Hin' Hname.
  generalize (fields s). intros l. induction l as [|x l IH]; [intros _ []|].
  rewrite fmap_cons, NoDup_cons. intros [Hx Hnd] [->|Hf] [->|Hf'] Hname;
    try reflexivity.
  - exfalso. apply Hx. rewrite <- Hname.
    apply list_elem_of_fmap. exists f'. split; [reflexivity|].
    apply list_elem_of_In, Hf'.
  - exfalso. apply Hx. rewrite Hname.
    apply list_elem_of_fmap. exists f. split; [reflexivity|].
    apply list_elem_of_In, Hf.
  - exact (IH Hnd Hf Hf' Hname).
Qed.

(** The largest value [get_max_value] reports for a field of an 8, 16 or
    32 bit dtype is the largest value of the dtype. *)
Lemma get_max_value_narrow (s : EdgeSchema) (n : string) (f : Field) :
  field_map s n = Some f -> dtype_size (dtype f) <= 4 ->
  get_max_value s n = dtype_max (dtype f).
Proof.
  intros Hf Hnarrow. unfold get_max_value, get_field_dtype. rewrite Hf.
  destruct (dtype f); try reflexivity; simpl in Hnarrow; lia.
Qed.

(** Whatever the dtype, a value that passed the range test can be packed. *)
Lemma get_max_value_fits (s : EdgeSchema) (n : string) (f : Field) :
  field_map s n = Some f ->
  dtype_min (dtype f) <= 0 /\ get_max_value s n <= dtype_max (dtype f).
Proof.
  intros Hf. unfold get_max_value, get_field_dtype. rewrite Hf.
  destruct (dtype f); vm_compute; split; discriminate.
Qed.

Lemma first_invalid_some (s : EdgeSchema) (kw : Kwargs) (e : Error) :
  (forall n v, In (n, v) kw -> exists z, v = VInt z) ->
  first_invalid s kw = Some e ->
  exists n z, e = OutOfRange n /\ In (n, VInt z) kw
              /\ in_offsets s n = true
              /\ (z < 0 \/ get_max_value s n < z).
Proof.
  induction kw as [|[n v] kw IH]; intros Hints; simpl; [discriminate|].
  assert (Hrest : forall n v, In (n, v) kw -> exists z, v = VInt z)
    by (intros; eapply Hints; right; eassumption).
  destruct (Hints n v (or_introl eq_refl)) as [z ->].
  destruct (in_offsets s n) eqn:Hoff.
  - simpl. destruct ((z <? 0) || (get_max_value s n <? z)) eqn:Hrange.
    + intros [= <-]. exists n, z. repeat split; [now left| |].
      * exact Hoff.
      * apply orb_true_iff in Hrange as [H|H]; apply Z.ltb_lt in H; lia.
    + intros H. destruct (IH Hrest H) as (n' & z' & He & Hin & Hrem).
      exists n', z'. split; [exact He|]. split; [now right|exact Hrem].
  - intros H. destruct (IH Hrest H) as (n' & z' & He & Hin & Hrem).
    exists n', z'. split; [exact He|]. split; [now right|exact Hrem].
Qed.

Lemma first_invalid_none (s : EdgeSchema) (kw : Kwargs) :
  first_invalid s kw = None ->
  forall n z, In (n, VInt z) kw -> in_offsets s n = true ->
              0 <= z <= get_max_value s n.
Proof.
  induction kw as [|[k v] kw IH]; simpl; [intros _ n z []|].
  intros Hnone n z [[= -> ->]|Hin] Hoff.
  - rewrite Hoff in Hnone. simpl in Hnone.
    destruct ((z <? 0) || (get_max_value s n <? z)) eqn:Hrange;
      [discriminate|].
    apply orb_false_iff in Hrange as [H1 H2].
    apply Z.ltb_ge in H1, H2. lia.
  - apply IH; try assumption.
    destruct (in_offsets s k); [|exact Hnone].
    destruct v; try discriminate;
      destruct (out_of_range _ _); (discriminate || exact Hnone).
Qed.

Lemma total_size_nonneg (fs : list Field) : 0 <= total_size (mkEdgeSchema fs).
Proof.
  unfold total_size. simpl. induction fs as [|f fs IH]; simpl; [lia|].
  destruct (dtype f); simpl; lia.
Qed.

Lemma length_le_bytes (n : nat) (v : Z) : length (le_bytes n v) = n.
Proof. revert v. induction n; intros v; simpl; [|rewrite IHn]; reflexivity. Qed.

Lemma pack_fields_ok (fs : list Field) (kw : Kwargs) :
  (forall f, In f fs ->
     exists z, kwargs_get kw (name f) = Some (VInt z)
               /\ dtype_min (dtype f) <= z <= dtype_max (dtype f)) ->
  exists record,
    pack_fields fs kw = (record, true)
    /\ length record = Z.to_nat (total_size (mkEdgeSchema fs)).
Proof.
  induction fs as [|f fs IH]; intros Hall; simpl.
  - exists []. split; reflexivity.
  - destruct (Hall f (or_introl eq_refl)) as (z & -> & Hlo & Hhi).
    destruct IH as (record & -> & Hlen);
      [intros g Hg; apply Hall; now right|].
    rewrite (proj2 (Z.leb_le _ _) Hlo), (proj2 (Z.leb_le _ _) Hhi). simpl.
    eexists. split; [reflexivity|].
    rewrite length_app, length_le_bytes, Hlen.
    pose proof (total_size_nonneg fs) as Hnn.
    unfold total_size in *. simpl in *.
    rewrite Z2Nat.inj_add; [reflexivity| |exact Hnn].
    destruct (dtype f); simpl; lia.
Qed.

(** C9, counterexample: -1 is a value of dtype int8, and [add_edge]
    refuses it for the int8 field with the range error. *)
Lemma add_edge_refuses_negative_int8 :
  representable int8 (-1)
  /\ field_map (schema empty_storage) "delta" = Some (mkField "delta" int8)
  /\ add_edge empty_storage
       [("source", VInt 1); ("target", VInt 2); ("delta", VInt (-1))]
     = Failed (OutOfRange "delta") empty_storage.
Proof.
  split; [|split; reflexivity]. unfold representable. vm_compute.
  split; discriminate.
Qed.

(** C9, amended: for a store whose schema has distinct field names of 8,
    16 or 32 bit dtypes and whose buffer holds [num_edges] records, and for
    integer arguments: [add_edge] appends exactly when every schema field is
    supplied and every value supplied for a schema field lies between 0 and
    the largest value of the field's dtype (so a negative value is refused
    for a signed dtype too); it then returns the old edge count and the
    buffer grows by one record.  In every other case it fails and the store
    is the one before the call: with the missing-field error whenever a
    schema field is absent, or else with the range error of a supplied
    value that is negative or above the largest value of its dtype. *)
Theorem add_edge_accepts_zero_to_dtype_max (g : GraphStorage) (kw : Kwargs) :
  NoDup (field_names (schema g)) ->
  (forall f, In f (fields (schema g)) -> dtype_size (dtype f) <= 4) ->
  (forall n v, In (n, v) kw -> exists z, v = VInt z) ->
  length (buffer g) = Z.to_nat (num_edges g * total_size (schema g)) ->
  (well_supplied g kw ->
   exists record,
     length record = Z.to_nat (total_size (schema g))
     /\ add_edge g kw
        = Added (num_edges g)
                (with_buffer (buffer g ++ record) (num_edges g + 1) g))
  /\ (forall i g', add_edge g kw = Added i g' -> well_supplied g kw)
  /\ (~ well_supplied g kw -> exists e, add_edge g kw = Failed e g)
  /\ ((exists n, In n (field_names (schema g)) /\ kwargs_get kw n = None) ->
      exists n, add_edge g kw = Failed (MissingField n) g
                /\ In n (field_names (schema g)) /\ kwargs_get kw n = None)
  /\ (forall e g',
        add_edge g kw = Failed e g' ->
        g' = g /\ ~ well_supplied g kw
        /\ ((exists n, e = MissingField n /\ In n (field_names (schema g))
                       /\ kwargs_get kw n = None)
            \/ ((forall n, In n (field_names (schema g)) ->
                           is_Some (kwargs_get kw n))
                /\ exists n z f, e = OutOfRange n /\ In (n, VInt z) kw
                                 /\ field_map (schema g) n = Some f
                                 /\ (z < 0 \/ dtype_max (dtype f) < z)))).
Proof.
  intros Hnames Hnarrow Hints Hbuffer.
  assert (Hrun :
    first_missing (field_names (schema g)) kw = None ->
    first_invalid (schema g) kw = None ->
    exists record,
      length record = Z.to_nat (total_size (schema g))
      /\ add_edge g kw
         = Added (num_edges g)
                 (with_buffer (buffer g ++ record) (num_edges g + 1) g)).
  { intros Hpresent Hvalid. unfold add_edge. rewrite Hpresent, Hvalid.
    destruct (pack_fields_ok (fields (schema g)) kw) as (record & Hpack & Hlen).
    { intros f Hf.
      destruct (first_missing_none _ _ Hpresent (name f)) as [v Hv].
      { apply in_map, Hf. }
      destruct (Hints _ _ (kwargs_get_In _ _ _ Hv)) as [z ->].
      exists z. split; [exact Hv|].
      pose proof (field_map_unique _ _ Hnames Hf) as Hmap.
      pose proof (get_max_value_fits _ _ _ Hmap) as [Hmin Hmax].
      assert (0 <= z <= get_max_value (schema g) (name f)); [|lia].
      apply (first_invalid_none _ _ Hvalid);
        [exact (kwargs_get_In _ _ _ Hv)|].
      apply field_map_in_offsets. rewrite Hmap. eauto. }
    replace (mkEdgeSchema (fields (schema g))) with (schema g) in Hlen
      by (destruct (schema g); reflexivity).
    rewrite Hpack. exists record. split; [exact Hlen|].
    rewrite <- Hbuffer.
    set (zeros := replicate (Z.to_nat (total_size (schema g))) 0).
    assert (Hzeros : length zeros = Z.to_nat (total_size (schema g)))
      by apply length_replicate.
    rewrite <- Hzeros.
    rewrite (proj2 (Nat.ltb_ge _ _)) by (rewrite length_app; lia).
    rewrite take_app_length.
    rewrite <- length_app, drop_all, app_nil_r. reflexivity. }
  assert (Hsupplied :
    well_supplied g kw <->
    first_missing (field_names (schema g)) kw = None
    /\ first_invalid (schema g) kw = None).
  { split.
    - intros [Hpresent Hrange]. split.
      + destruct (first_missing _ kw) as [n|] eqn:Hmiss; [|reflexivity].
        apply first_missing_some in Hmiss as [Hin Hnone].
        destruct (Hpresent n Hin) as [v Hv]. congruence.
      + destruct (first_invalid _ kw) as [e|] eqn:Hbad; [|reflexivity].
        apply first_invalid_some in Hbad
          as (n & z & _ & Hin & Hoff & Hout); [|exact Hints].
        apply field_map_in_offsets in Hoff as [f Hf].
        pose proof (Hrange n z f Hin Hf).
        rewrite (get_max_value_narrow _ _ _ Hf) in Hout; [lia|].
        apply Hnarrow. apply (field_map_some _ _ _ Hf).
    - intros [Hpresent Hvalid]. split.
      + exact (first_missing_none _ _ Hpresent).
      + intros n z f Hin Hf.
        rewrite <- (get_max_value_narrow _ _ _ Hf)
          by (apply Hnarrow; apply (field_map_some _ _ _ Hf)).
        apply (first_invalid_none _ _ Hvalid); [exact Hin|].
        apply field_map_in_offsets. rewrite Hf. eauto. }
  assert (Hfailed : forall e g',
    add_edge g kw = Failed e g' ->
    g' = g /\ ~ well_supplied g kw
    /\ ((exists n, e = MissingField n /\ In n (field_names (schema g))
                   /\ kwargs_get kw n = None)
        \/ ((forall n, In n (field_names (schema g)) ->
                       is_Some (kwargs_get kw n))
            /\ exists n z f, e = OutOfRange n /\ In (n, VInt z) kw
                             /\ field_map (schema g) n = Some f
                             /\ (z < 0 \/ dtype_max (dtype f) < z)))).
  { intros e g' Hfail.
    destruct (first_missing (field_names (schema g)) kw) as [n|] eqn:Hmiss.
    - unfold add_edge in Hfail. rewrite Hmiss in Hfail.
      injection Hfail as <- <-.
      split; [reflexivity|]. split.
      + intros Hws. apply Hsupplied in Hws as [Hbad _]. discriminate.
      + apply first_missing_some in Hmiss as [Hin Hnone].
        left. exists n. tauto.
    - destruct (first_invalid (schema g) kw) as [e'|] eqn:Hbad.
      + unfold add_edge in Hfail. rewrite Hmiss, Hbad in Hfail.
        injection Hfail as <- <-.
        split; [reflexivity|]. split.
        * intros Hws. apply Hsupplied in Hws as [_ Hnone]. discriminate.
        * apply first_invalid_some in Hbad
            as (n & z & -> & Hin & Hoff & Hout); [|exact Hints].
          apply field_map_in_offsets in Hoff as [f Hf].
          rewrite (get_max_value_narrow _ _ _ Hf) in Hout
            by (apply Hnarrow; apply (field_map_some _ _ _ Hf)).
          right. split; [exact (first_missing_none _ _ Hmiss)|].
          exists n, z, f. tauto.
      + destruct (Hrun eq_refl eq_refl) as (record & _ & Hadded).
        congruence. }
  split; [|split; [|split; [|split; [|exact Hfailed]]]].
  - intros Hws. apply Hsupplied in Hws as [Hpresent Hvalid].
    exact (Hrun Hpresent Hvalid).
  - intros i g' Hadded. apply Hsupplied.
    unfold add_edge in Hadded.
    destruct (first_missing (field_names (schema g)) kw); [discriminate|].
    destruct (first_invalid (schema g) kw); [discriminate|]. tauto.
  - intros Hbad.
    destruct (add_edge g kw) as [i g'|e g'] eqn:Hcall.
    + exfalso. apply Hbad, Hsupplied.
      unfold add_edge in Hcall.
      destruct (first_missing (field_names (schema g)) kw); [discriminate|].
      destruct (first_invalid (schema g) kw); [discriminate|]. tauto.
    + destruct (Hfailed e g' eq_refl) as (-> & _). exists e. reflexivity.
  - intros (n & Hin & Hnone).
    destruct (first_missing (field_names (schema g)) kw) as [m|] eqn:Hmiss.
    + exists m. unfold add_edge. rewrite Hmiss.
      apply first_missing_some in Hmiss as [Hm Hmnone]. tauto.
    + destruct (first_missing_none _ _ Hmiss n Hin) as [v Hv]. congruence.
Qed.

(** A float passes the range test and is refused by [pack_into] only after
    the buffer was extended: the call fails, the edge count stays, and the
    buffer has grown by one record. *)
Example float_argument_extends_buffer :
  add_edge empty_storage
    [("source", VInt 1); ("target", VInt 2); ("delta", VFloat (3 # 2))]
  = Failed StructError (with_buffer [1; 0; 2; 0; 0] 0 empty_storage).
Proof. reflexivity. Qed.

(** A value above 65535 is refused for a uint64 field. *)
Example uint64_is_capped_at_65535 :
  let g := mkGraphStorage
             (mkEdgeSchema [mkField "source" uint64; mkField "target" uint64])
             "source" "target" [] 0 in
  representable uint64 70000
  /\ add_edge g [("source", VInt 70000); ("target", VInt 1)]
     = Failed (OutOfRange "source") g.
Proof.
  split; [|reflexivity]. unfold representable. vm_compute.
  split; discriminate.
Qed.

(** On the store of the counterexample the largest int8 is accepted, and
    a call that leaves out the field 'delta' is refused. *)
Lemma add_edge_accepts_zero_to_dtype_max_witness :
  (exists record,
     length record = 5%nat
     /\ add_edge empty_storage
          [("source", VInt 1); ("target", VInt 2); ("delta", VInt 127)]
        = Added 0 (with_buffer ([] ++ record) 1 empty_storage))
  /\ (exists n,
        add_edge empty_storage [("source", VInt 1); ("target", VInt 2)]
        = Failed (MissingField n) empty_storage
        /\ In n (field_names signed_schema)
        /\ kwargs_get [("source", VInt 1); ("target", VInt 2)] n = None).
Proof.
  split.
  - apply (add_edge_accepts_zero_to_dtype_max empty_storage
             [("source", VInt 1); ("target", VInt 2); ("delta", VInt 127)]).
    + apply (bool_decide_unpack _). vm_compute. exact I.
    + intros f [<-|[<-|[<-|[]]]]; simpl; lia.
    + intros n v [[= <- <-]|[[= <- <-]|[[= <- <-]|[]]]]; eauto.
    + reflexivity.
    + split.
      * intros n [<-|[<-|[<-|[]]]]; vm_compute; eauto.
      * intros n z f [[= <- <-]|[[= <- <-]|[[= <- <-]|[]]]] [= <-];
          vm_compute; split; discriminate.
  - apply (add_edge_accepts_zero_to_dtype_max empty_storage
             [("source", VInt 1); ("target", VInt 2)]).
    + apply (bool_decide_unpack _). vm_compute. exact I.
    + intros f [<-|[<-|[<-|[]]]]; simpl; lia.
    + intros n v [[= <- <-]|[[= <- <-]|[]]]; eauto.
    + reflexivity.
    + exists "delta". split; [simpl; tauto|reflexivity].
Defined.

End EdgeStore.

(** ** Evaluation of the outgoing dependencies on completion *)

Section Completion.

Import TaskService.


Lemma schedule_delayed_step dep action ev user now :
  respects action_step (schedule_delayed dep action ev user now).
Proof.
  unfold schedule_delayed, the_task.
  repeat respects_step. apply respects_modify. intros st.
  apply action_step_same_tables; try reflexivity. tauto.
Qed.


Lemma execute_actions_step dep ev user now todo :
  respects action_step (execute_actions dep ev user now todo).
Proof.
  induction todo as [|action rest IH]; simpl.
  - respects_step.
  - repeat first
      [ apply schedule_delayed_step | apply execute_single_action_step
      | exact IH | respects_step ].
Qed.




Lemma check_task_readiness_returns (st : Store) (task : Task) :
  dependencies_resolve st -> exists b, check_task_readiness st task = Ok b.
Proof.
  intros Hres. unfold check_task_readiness.
  destruct (negb _); [eauto|].
  destruct (all_sources_completed_spec st (incoming st task)) as [b [Hb _]].
  { intros d Hd. apply incoming_row in Hd as [Hd _]. apply Hres, Hd. }
  destruct (incoming st task); [eauto|]. exists b. exact Hb.
Qed.



Lemma outgoing_row (st : Store) (task : Task) (d : TaskDependency) :
  In d (outgoing st task) <->
  In d (dependencies st) /\ dep_project d = task_project task
  /\ dep_source_task d = task_id task.
Proof.
  unfold outgoing. rewrite filter_In, andb_true_iff, !bool_decide_eq_true.
  tauto.
Qed.



End Completion.

(** ** Cycle prevention *)

Section CycleCheck.

Import TaskService.

Variables (st : Store) (source : Task).

Local Abbreviation p := (task_project source).
Local Abbreviation s := (task_id source).

Lemma successors_row (u : Z) (d : TaskDependency) :
  In d (successors st source u) <->
  In d (dependencies st) /\ dep_project d = p /\ dep_source_task d = u.
Proof.
  unfold successors. rewrite filter_In, andb_true_iff, !bool_decide_eq_true.
  tauto.
Qed.

Lemma edge_successor (u v : Z) :
  edge st p u v <->
  exists d, In d (successors st source u) /\ dep_target_task d = v.
Proof.
  unfold edge. split.
  - intros (d & Hd & Hp & Hs & Ht). exists d.
    split; [apply successors_row; tauto|exact Ht].
  - intros (d & Hd & Ht). apply successors_row in Hd. exists d. tauto.
Qed.

(** A positive answer of [dfs] is witnessed by a path to the source. *)
Lemma dfs_true_reaches (depth : nat) :
  forall visited u visited',
    dfs depth st source visited u = Some (true, visited') ->
    reaches st p u s.
Proof.
  induction depth as [|depth IH]; intros visited u visited'; simpl;
    (destruct (bool_decide (u = task_id source)) eqn:Hs;
     [apply bool_decide_eq_true in Hs; intros _; subst u; apply rtc_refl|]);
    (destruct (bool_decide (u ∈ visited)); [discriminate|]);
    [discriminate|].
  assert (Hloop : forall deps v v',
    (forall d, In d deps -> edge st p u (dep_target_task d)) ->
    dfs_loop (dfs depth st source) deps v = Some (true, v') ->
    reaches st p u s).
  { induction deps as [|d deps IHd]; intros v v' Hedges; simpl;
      [discriminate|].
    destruct (dfs depth st source v (dep_target_task d))
      as [[[|] w]|] eqn:Hrec; [| |discriminate].
    - intros _. eapply rtc_l; [apply Hedges; now left|].
      exact (IH _ _ _ Hrec).
    - apply IHd. intros d' Hd'. apply Hedges. now right. }
  apply Hloop. intros d Hd. apply edge_successor. eauto.
Qed.

Lemma explored_refl (visited : gset Z) : explored st p s visited visited.
Proof. split; [reflexivity|]. intros x Hx Hnx. contradiction. Qed.

Lemma explored_trans (a b c : gset Z) :
  explored st p s a b -> explored st p s b c -> explored st p s a c.
Proof.
  intros [Hab Hb] [Hbc Hc]. split; [set_solver|].
  intros x Hx Hnx. destruct (decide (x ∈ b)) as [Hin|Hout].
  - destruct (Hb x Hin Hnx) as [Hne Hsucc]. split; [exact Hne|].
    intros y Hy. apply Hbc, Hsucc, Hy.
  - exact (Hc x Hx Hout).
Qed.

Lemma dfs_false_explored (depth : nat) :
  forall visited u visited',
    dfs depth st source visited u = Some (false, visited') ->
    u ∈ visited' /\ explored st p s visited visited'.
Proof.
  induction depth as [|depth IH]; intros visited u visited'; simpl;
    (destruct (bool_decide (u = task_id source)) eqn:Hs; [discriminate|]);
    apply bool_decide_eq_false in Hs;
    (destruct (bool_decide (u ∈ visited)) eqn:Hseen;
     [apply bool_decide_eq_true in Hseen; intros [= <-];
      split; [exact Hseen|apply explored_refl]|]);
    [discriminate|].
  apply bool_decide_eq_false in Hseen.
  assert (Hloop : forall deps v v',
    dfs_loop (dfs depth st source) deps v = Some (false, v') ->
    explored st p s v v' /\ forall d, In d deps -> dep_target_task d ∈ v').
  { induction deps as [|d deps IHd]; intros v v'; simpl.
    - intros [= <-]. split; [apply explored_refl|intros d []].
    - destruct (dfs depth st source v (dep_target_task d))
        as [[[|] w]|] eqn:Hrec; try discriminate.
      intros Hrest. destruct (IH _ _ _ Hrec) as [Hd Hvw].
      destruct (IHd _ _ Hrest) as [Hwv' Hdeps].
      split; [exact (explored_trans _ _ _ Hvw Hwv')|].
      intros d' [<-|Hd']; [apply Hwv', Hd|exact (Hdeps d' Hd')]. }
  intros Hrun. destruct (Hloop _ _ _ Hrun) as [[Hsub Hnew] Hsucc].
  split; [set_solver|]. split; [set_solver|].
  intros x Hx Hnx. destruct (decide (x = u)) as [->|Hne].
  - split; [exact Hs|]. intros y Hy.
    apply edge_successor in Hy as (d & Hd & <-). exact (Hsucc d Hd).
  - apply Hnew; [exact Hx|set_solver].
Qed.

(** With a depth that covers the unvisited nodes, [dfs] answers. *)
Lemma dfs_answers (start : Z) (depth : nat) :
  forall visited u,
    u ∈ nodes st start ->
    (size (nodes st start ∖ visited) <= depth)%nat ->
    exists b visited',
      dfs depth st source visited u = Some (b, visited')
      /\ visited ⊆ visited'.
Proof.
  induction depth as [|depth IH]; intros visited u Hu Hsize; simpl;
    (destruct (bool_decide (u = task_id source)); [eexists _, _; eauto|]);
    (destruct (bool_decide (u ∈ visited)) eqn:Hseen; [eexists _, _; eauto|]);
    apply bool_decide_eq_false in Hseen.
  { exfalso. assert (Hin : u ∈ nodes st start ∖ visited) by set_solver.
    assert (Hempty : nodes st start ∖ visited ≡ ∅)
      by (apply size_empty_inv; lia).
    set_solver. }
  assert (Hless : (size (nodes st start ∖ ({[u]} ∪ visited)) <= depth)%nat).
  { assert (Hsub : nodes st start ∖ ({[u]} ∪ visited)
                   ⊂ nodes st start ∖ visited) by set_solver.
    pose proof (subset_size _ _ Hsub). lia. }
  assert (Hloop : forall deps v,
    {[u]} ∪ visited ⊆ v ->
    (forall d, In d deps -> dep_target_task d ∈ nodes st start) ->
    exists b v', dfs_loop (dfs depth st source) deps v = Some (b, v')
                 /\ v ⊆ v').
  { induction deps as [|d deps IHd]; intros v Hv Hdeps; simpl.
    - eexists _, _. eauto.
    - destruct (IH v (dep_target_task d)) as (b & w & -> & Hvw).
      + apply Hdeps. now left.
      + assert (Hsub : nodes st start ∖ v
                       ⊆ nodes st start ∖ ({[u]} ∪ visited)) by set_solver.
        pose proof (subseteq_size _ _ Hsub). lia.
      + destruct b; [eexists _, _; eauto|].
        destruct (IHd w) as (b & v' & -> & Hwv').
        * set_solver.
        * intros d' Hd'. apply Hdeps. now right.
        * eexists _, _. split; [reflexivity|set_solver]. }
  destruct (Hloop (successors st source u) ({[u]} ∪ visited))
    as (b & v' & Hrun & Hsub).
  - reflexivity.
  - intros d Hd. apply successors_row in Hd as [Hd _].
    unfold nodes. apply elem_of_union_r, elem_of_list_to_set.
    apply list_elem_of_In, in_map, Hd.
  - exists b, v'. split; [exact Hrun|set_solver].
Qed.

Lemma size_nodes (start : Z) :
  (size (nodes st start) <= S (length (dependencies st)))%nat.
Proof.
  unfold nodes. rewrite size_union_alt, size_singleton.
  assert (forall l : list Z,
            (size (list_to_set l : gset Z) <= length l)%nat) as Hlist.
  { induction l as [|x l IHl].
    - rewrite list_to_set_nil, size_empty. simpl. lia.
    - rewrite list_to_set_cons, size_union_alt, size_singleton.
      assert (Hsub : list_to_set l ∖ {[x]} ⊆ (list_to_set l : gset Z))
        by set_solver.
      pose proof (subseteq_size _ _ Hsub). simpl. lia. }
  pose proof (Hlist (dep_target_task <$> dependencies st)) as Hl.
  rewrite length_fmap in Hl.
  assert (Hsub :
    list_to_set (dep_target_task <$> dependencies st) ∖ {[start]}
    ⊆ (list_to_set (dep_target_task <$> dependencies st) : gset Z))
    by set_solver.
  pose proof (subseteq_size _ _ Hsub). lia.
Qed.

(** An answer of [dfs] stays the answer at any greater depth. *)
Lemma dfs_deeper (depth : nat) :
  forall depth' visited u r,
    (depth <= depth')%nat ->
    dfs depth st source visited u = Some r ->
    dfs depth' st source visited u = Some r.
Proof.
  induction depth as [|depth IH]; intros depth' visited u r Hle;
    destruct depth' as [|depth']; try lia; simpl;
    destruct (bool_decide (u = task_id source)); try (intros H; exact H);
    destruct (bool_decide (u ∈ visited)); try (intros H; exact H);
    try discriminate.
  generalize (successors st source u) ({[u]} ∪ visited).
  intros deps. induction deps as [|d deps IHd]; intros v; simpl;
    [intros H; exact H|].
  destruct (dfs depth st source v (dep_target_task d)) as [[[|] w]|] eqn:Hrec;
    [| |discriminate];
    rewrite (IH depth' _ _ _ ltac:(lia) Hrec); [intros H; exact H|apply IHd].
Qed.

(** The two ways [would_create_cycle] ends: with an answer, which is true
    exactly when the source is reachable from the target over the rows of
    the source's project; or with [RecursionError], which takes at least
    as many rows as the depth left to [dfs], and two different tasks. *)
Lemma would_create_cycle_cases (depth : nat) (target : Task) :
  (exists b,
     would_create_cycle depth st source target = Ok b
     /\ (b = true <-> reaches st p (task_id target) s))
  \/ (would_create_cycle depth st source target = Raise RecursionError
      /\ (depth <= length (dependencies st))%nat
      /\ task_id target <> s).
Proof.
  unfold would_create_cycle.
  destruct (dfs depth st source ∅ (task_id target)) as [[b visited']|]
    eqn:Hrun.
  - left. exists b. split; [reflexivity|].
    destruct b.
    + split; [intros _|reflexivity]. exact (dfs_true_reaches _ _ _ _ Hrun).
    + split; [discriminate|]. intros Hreach. exfalso.
      destruct (dfs_false_explored _ _ _ _ Hrun) as [Hstart [_ Hclosed]].
      assert (Hall : forall y, reaches st p (task_id target) y ->
                               y ∈ visited').
      { apply (rtc_ind_r (fun y => y ∈ visited') (task_id target)).
        - exact Hstart.
        - intros y z _ Hyz Hy.
          destruct (Hclosed y Hy) as [_ Hsucc]; [set_solver|].
          apply Hsucc, Hyz. }
      destruct (Hclosed s (Hall s Hreach)) as [Hne _]; [set_solver|].
      apply Hne. reflexivity.
  - right. split; [reflexivity|]. split.
    + destruct (le_lt_dec depth (length (dependencies st))) as [Hle|Hlt];
        [exact Hle|exfalso].
      destruct (dfs_answers (task_id target) depth ∅ (task_id target))
        as (b & visited' & Hans & _).
      * unfold nodes. set_solver.
      * pose proof (size_nodes (task_id target)) as Hnodes.
        assert (Hsub : nodes st (task_id target) ∖ ∅
                       ⊆ nodes st (task_id target)) by set_solver.
        pose proof (subseteq_size _ _ Hsub). lia.
      * congruence.
    + intros Hsame. destruct depth; simpl in Hrun;
        rewrite (bool_decide_eq_true_2 _ Hsame) in Hrun; discriminate.
Qed.

End CycleCheck.

Section CreateDependency.

Import TaskService.

(** Adding the edge [s -> t] to an acyclic relation in which [s] is not
    reachable from [t] leaves it acyclic ([added] tells whether the edge
    belongs to the relation at all). *)
Lemma acyclic_add_edge (R R' : relation Z) (s t : Z) (added : Prop) :
  (forall x y, R' x y -> R x y \/ (added /\ x = s /\ y = t)) ->
  (forall v, ~ tc R v v) -> (added -> ~ rtc R t s) ->
  forall v, ~ tc R' v v.
Proof.
  intros Hnew Hacyclic Hunreachable.
  assert (Hsplit : forall x y, tc R' x y ->
                     tc R x y \/ (added /\ rtc R x s /\ rtc R t y)).
  { intros x y Hxy. induction Hxy as [x y Hstep|x z y Hstep _ IH].
    - destruct (Hnew _ _ Hstep) as [Hold|(Hadded & -> & ->)].
      + left. apply tc_once, Hold.
      + right. split; [exact Hadded|]. split; apply rtc_refl.
    - destruct (Hnew _ _ Hstep) as [Hold|(Hadded & -> & ->)].
      + destruct IH as [Hzy|(Hadded & Hzs & Hty)].
        * left. eapply tc_l; eassumption.
        * right. split; [exact Hadded|].
          split; [eapply rtc_l; eassumption|exact Hty].
      + right. split; [exact Hadded|]. split; [apply rtc_refl|].
        destruct IH as [Hzy|(_ & _ & Hty)]; [apply tc_rtc, Hzy|exact Hty]. }
  intros v Hcycle. destruct (Hsplit _ _ Hcycle) as [Hold|(Hadded & Hvs & Htv)].
  - exact (Hacyclic v Hold).
  - apply (Hunreachable Hadded). etransitivity; eassumption.
Qed.

Lemma execute_dependency_actions_step dep ev user now :
  respects evaluation_step (execute_dependency_actions dep ev user now).
Proof.
  unfold execute_dependency_actions, record_call.
  repeat first
    [ apply (respects_weaken action_step evaluation_step);
      [exact action_step_evaluation_step|apply execute_actions_step]
    | respects_step ].
  apply respects_modify. intros st. repeat split; try reflexivity. tauto.
Qed.

(** The two ways a call of [create_dependency] ends: refused before any
    write, or with the new row appended to the dependency table. *)
Lemma create_dependency_cases (depth : nat) (st : Store)
    (source target : Task) (actor : User) (dependency_type : string)
    (description : option string) (now : Z) :
  exists r st',
    create_dependency depth source target actor dependency_type description
      now st = (r, st')
    /\ ((st' = st
         /\ exists e, r = Raise e
            /\ (reaches st (task_project source) (task_id target)
                  (task_id source) ->
                ProjectService.can_create_dependencies st actor source
                  = Ok true ->
                task_project source = task_project target ->
                e = ValueError "This dependency would create a cycle"
                \/ (e = RecursionError
                    /\ (depth <= length (dependencies st))%nat
                    /\ task_id target <> task_id source)))
        \/ (~ reaches st (task_project source) (task_id target)
               (task_id source)
            /\ exists dep,
                 dependencies st' = dependencies st ++ [dep]
                 /\ dep_project dep = task_project source
                 /\ dep_source_task dep = task_id source
                 /\ dep_target_task dep = task_id target
                 /\ forall d, r = Ok d -> d = dep)).
Proof.
  unfold create_dependency. rewrite (bind_ok _ _ st st st) by reflexivity.
  unfold bind at 1, lift.
  destruct (ProjectService.can_create_dependencies st actor source)
    as [[|]|e] eqn:Hperm; simpl.
  2:{ eexists _, st. split; [reflexivity|]. left. split; [reflexivity|].
      eexists. split; [reflexivity|]. discriminate. }
  2:{ eexists _, st. split; [reflexivity|]. left. split; [reflexivity|].
      eexists. split; [reflexivity|]. discriminate. }
  destruct (bool_decide (task_project source = task_project target))
    eqn:Hsame; simpl.
  2:{ apply bool_decide_eq_false in Hsame.
      eexists _, st. split; [reflexivity|]. left. split; [reflexivity|].
      eexists. split; [reflexivity|]. intros _ _ Heq. contradiction. }
  unfold bind at 1, lift.
  destruct (would_create_cycle_cases st source depth target)
    as [(b & Hcheck & Hb)|(Hcheck & Hdepth & Hne)]; rewrite Hcheck.
  2:{ eexists _, st. split; [reflexivity|]. left. split; [reflexivity|].
      eexists. split; [reflexivity|]. intros _ _ _. right. tauto. }
  destruct b.
  { eexists _, st. split; [reflexivity|]. left. split; [reflexivity|].
    eexists. split; [reflexivity|]. intros _ _ _. left. reflexivity. }
  assert (Hunreachable : ~ reaches st (task_project source) (task_id target)
                           (task_id source)).
  { intros Hreach. apply Hb in Hreach. discriminate. }
  destruct (List.find _ (dependencies st)).
  { eexists _, st. split; [reflexivity|]. left. split; [reflexivity|].
    eexists. split; [reflexivity|]. intros Hreach. contradiction. }
  destruct (existsb _ (dependencies st)).
  { eexists _, st. split; [reflexivity|]. left. split; [reflexivity|].
    eexists. split; [reflexivity|]. intros Hreach. contradiction. }
  set (dep := mkTaskDependency _ _ _ _ _ _ _).
  unfold bind at 1, modify.
  set (st1 := set_dependencies _ st).
  match goal with
  | |- exists r st', ?c st1 = _ /\ _ =>
      destruct (c st1) as [r st'] eqn:Hrun;
      assert (Hstep : respects evaluation_step c)
  end.
  { unfold TaskEvent_log.
    repeat first [ apply execute_dependency_actions_step | respects_step ].
    apply respects_modify. intros x. repeat split; try reflexivity. tauto. }
  exists r, st'. split; [reflexivity|]. right.
  split; [exact Hunreachable|]. exists dep.
  destruct (Hstep _ _ _ Hrun) as (_&_&_&_&Hdeps&_).
  split; [rewrite Hdeps; reflexivity|]. repeat split.
  intros d ->. revert Hrun. unfold bind, TaskEvent_log, modify, ret.
  repeat case_match; congruence.
Qed.

(** C2, failing input: a chain of 1001 dependency rows from task 1 to
    task 1002.  The row 1002 -> 1 would close a cycle, and the owner's
    request for it is refused with [RecursionError], not with the
    would-create-cycle error, whenever the interpreter leaves [dfs] no more
    than 1000 nested calls, as its default recursion limit of 1000 does.
    The store is unchanged. *)
Lemma long_chain_is_refused_with_recursion_error :
  reaches (Scenario.long_chain 1001) 1 1 1002
  /\ forall depth, (depth <= 1000)%nat ->
       create_dependency depth (Scenario.link 1002) (Scenario.link 1)
         Scenario.alice "simple" None 0 (Scenario.long_chain 1001)
       = (Raise RecursionError, Scenario.long_chain 1001).
Proof.
  split.
  - assert (Hfound : exists visited,
      dfs 1001 (Scenario.long_chain 1001) (Scenario.link 1002) ∅ 1
      = Some (true, visited)) by (eexists; vm_compute; reflexivity).
    destruct Hfound as [visited Hfound].
    exact (dfs_true_reaches _ _ _ _ _ _ Hfound).
  - intros depth Hdepth.
    assert (Hdeep : dfs 1000 (Scenario.long_chain 1001) (Scenario.link 1002)
                      ∅ 1 = None) by (vm_compute; reflexivity).
    assert (Hraise : dfs depth (Scenario.long_chain 1001) (Scenario.link 1002)
                       ∅ 1 = None).
    { destruct (dfs depth _ _ _ _) as [r|] eqn:Hrun; [|reflexivity].
      rewrite (dfs_deeper _ _ _ _ _ _ r Hdepth Hrun) in Hdeep.
      discriminate. }
    unfold create_dependency.
    rewrite (bind_ok _ _ (Scenario.long_chain 1001)
               (Scenario.long_chain 1001) (Scenario.long_chain 1001))
      by reflexivity.
    assert (Hperm : ProjectService.can_create_dependencies
                      (Scenario.long_chain 1001) Scenario.alice
                      (Scenario.link 1002) = Ok true)
      by (vm_compute; reflexivity).
    unfold bind at 1, lift. rewrite Hperm. cbn [negb].
    rewrite (bool_decide_eq_true_2 _ (eq_refl : task_project
      (Scenario.link 1002) = task_project (Scenario.link 1))). cbn [negb].
    unfold bind, lift, would_create_cycle.
    change (task_id (Scenario.link 1)) with 1. rewrite Hraise. reflexivity.
Qed.

(** X27: every call of [create_dependency] leaves the dependency
    graph of every project acyclic if it was.  When the source is reachable
    from the target over the rows of the source's project the call is
    refused and the store is the one before the call (no row is written).
    Once the two earlier tests, the permission and the common project, let
    the call through, the error is the would-create-cycle error or the
    [RecursionError] of the depth-first search, and it is the
    would-create-cycle error when the interpreter leaves the search more
    nested calls than there are dependency rows, and for a self-loop
    always.  A returned dependency is a stored row from the source to the
    target. *)
Theorem create_dependency_preserves_acyclicity (depth : nat) (st : Store)
    (source target : Task) (actor : User) (dependency_type : string)
    (description : option string) (now : Z) :
  exists r st',
    create_dependency depth source target actor dependency_type description
      now st = (r, st')
    /\ (forall q, acyclic st q -> acyclic st' q)
    /\ (reaches st (task_project source) (task_id target) (task_id source) ->
        st' = st
        /\ exists e, r = Raise e
           /\ (ProjectService.can_create_dependencies st actor source
                 = Ok true ->
               task_project source = task_project target ->
               (e = ValueError "This dependency would create a cycle"
                \/ e = RecursionError)
               /\ ((length (dependencies st) < depth)%nat ->
                   e = ValueError "This dependency would create a cycle")
               /\ (task_id source = task_id target ->
                   e = ValueError "This dependency would create a cycle")))
    /\ (task_id source = task_id target ->
        st' = st /\ exists e, r = Raise e)
    /\ (forall dep, r = Ok dep ->
          In dep (dependencies st')
          /\ dep_project dep = task_project source
          /\ dep_source_task dep = task_id source
          /\ dep_target_task dep = task_id target).
Proof.
  destruct (create_dependency_cases depth st source target actor
              dependency_type description now) as (r & st' & Hrun & Hcases).
  exists r, st'. split; [exact Hrun|].
  assert (Hreach :
    reaches st (task_project source) (task_id target) (task_id source) ->
    st' = st
    /\ exists e, r = Raise e
       /\ (ProjectService.can_create_dependencies st actor source = Ok true ->
           task_project source = task_project target ->
           (e = ValueError "This dependency would create a cycle"
            \/ e = RecursionError)
           /\ ((length (dependencies st) < depth)%nat ->
               e = ValueError "This dependency would create a cycle")
           /\ (task_id source = task_id target ->
               e = ValueError "This dependency would create a cycle"))).
  { intros Hpath. destruct Hcases as [[-> (e & -> & He)]|[Hno _]];
      [|contradiction].
    split; [reflexivity|]. exists e. split; [reflexivity|].
    intros Hperm Hsame.
    destruct (He Hpath Hperm Hsame) as [->|(-> & Hdepth & Hne)].
    - split; [now left|]. split; intros _; reflexivity.
    - split; [now right|]. split; [intros Hlt; lia|].
      intros Heq. symmetry in Heq. contradiction. }
  split; [|split; [exact Hreach|split]].
  - intros q Hacyclic.
    destruct Hcases as [[-> _]|(Hno & dep & Hdeps & Hp & Hs & Ht & _)];
      [exact Hacyclic|].
    unfold acyclic in *.
    apply (acyclic_add_edge (edge st q) (edge st' q) (task_id source)
             (task_id target) (q = task_project source)).
    + intros x y (d & Hd & Hq & Hx & Hy). rewrite Hdeps in Hd.
      apply in_app_iff in Hd as [Hd|[<-|[]]].
      * left. exists d. tauto.
      * right. split; [congruence|]. split; congruence.
    + exact Hacyclic.
    + intros ->. exact Hno.
  - intros Hloop. destruct Hreach as [Hst (e & He & _)].
    + rewrite Hloop. apply rtc_refl.
    + split; [exact Hst|]. exists e. exact He.
  - intros dep ->.
    destruct Hcases as [[_ (e & He & _)]|(_ & dep' & Hdeps & Hp & Hs & Ht & Hd)];
      [discriminate|].
    rewrite <- (Hd dep eq_refl) in *. rewrite Hdeps.
    split; [apply in_app_iff; right; now left|]. tauto.
Qed.

(** With A -> B and B -> C stored, the owner asks for C -> A: the call is
    refused with the would-create-cycle error and the store is unchanged. *)
Lemma create_dependency_preserves_acyclicity_witness :
  create_dependency 900 Scenario.C Scenario.A Scenario.alice "simple" None 10
    Scenario.chain
  = (Raise (ValueError "This dependency would create a cycle"),
     Scenario.chain).
Proof.
  destruct (create_dependency_preserves_acyclicity 900 Scenario.chain
              Scenario.C Scenario.A Scenario.alice "simple" None 10)
    as (r & st' & Hrun & _ & Hreach & _).
  destruct Hreach as [-> (e & -> & He)].
  - apply rtc_l with 2; [exists Scenario.AB; simpl; tauto|].
    apply rtc_once. exists Scenario.BC. simpl. tauto.
  - rewrite Hrun.
    destruct (He eq_refl eq_refl) as (_ & Hdeep & _).
    rewrite Hdeep by (simpl; lia). reflexivity.
Defined.

End CreateDependency.

(** ** Reading the binary edge store *)

Section EdgeStoreReading.

Import Graph.

Lemma le_value_le_bytes (n : nat) (z : Z) :
  le_value (le_bytes n z) = z mod 256 ^ Z.of_nat n.
Proof.
  revert z. induction n as [|n IH]; intros z.
  - simpl. rewrite Z.mod_1_r. reflexivity.
  - cbn [le_bytes le_value]. rewrite IH.
    rewrite Nat2Z.inj_succ, Z.pow_succ_r by lia.
    rewrite Z.rem_mul_r by lia. reflexivity.
Qed.

Lemma decode_le_bytes (d : DType) (z : Z) :
  dtype_min d <= z <= dtype_max d ->
  decode d (le_bytes (Z.to_nat (dtype_size d)) z) = z.
Proof.
  intros Hrange. unfold decode. rewrite le_value_le_bytes.
  rewrite Z2Nat.id by (destruct d; simpl; lia).
  assert (Hpow : 256 ^ dtype_size d = 2 ^ (8 * dtype_size d))
    by (destruct d; reflexivity).
  rewrite Hpow.
  unfold dtype_min, dtype_max in Hrange.
  destruct (dtype_signed d) eqn:Hsigned; simpl.
  - assert (Hhalf : 2 ^ (8 * dtype_size d) = 2 * 2 ^ (8 * dtype_size d - 1)).
    { rewrite <- Z.pow_succ_r by (destruct d; simpl; lia).
      f_equal. lia. }
    set (h := 2 ^ (8 * dtype_size d - 1)) in *.
    assert (0 < h) by (subst h; apply Z.pow_pos_nonneg; destruct d; simpl; lia).
    rewrite Hhalf. destruct (Z_lt_le_dec z 0) as [Hneg|Hpos].
    + rewrite <- (Z.mod_unique_pos z (2 * h) (-1) (z + 2 * h)) by lia.
      rewrite (proj2 (Z.leb_le _ _)) by lia. lia.
    + rewrite Z.mod_small by lia.
      rewrite (proj2 (Z.leb_gt _ _)) by lia. reflexivity.
  - rewrite Z.mod_small; [reflexivity|lia].
Qed.

Lemma pack_fields_unpack (fs : list Field) (kw : Kwargs) (record : list Z) :
  pack_fields fs kw = (record, true) ->
  length record = Z.to_nat (total_size (mkEdgeSchema fs))
  /\ Forall2 (fun f z => kwargs_get kw (name f) = Some (VInt z))
             fs (unpack_values fs record).
Proof.
  revert record. induction fs as [|f fs IH]; intros record; simpl.
  - intros [= <-]. split; [reflexivity|constructor].
  - destruct (kwargs_get kw (name f)) as [[z|q|]|] eqn:Hget;
      try (intros [= _ Hbad]; discriminate).
    destruct ((dtype_min (dtype f) <=? z) && (z <=? dtype_max (dtype f)))
      eqn:Hrange; [|intros [= _ Hbad]; discriminate].
    destruct (pack_fields fs kw) as [bytes ok] eqn:Hrest.
    intros [= <- ->]. destruct (IH bytes eq_refl) as [Hlen Hall].
    apply andb_true_iff in Hrange as [Hlo Hhi].
    apply Z.leb_le in Hlo, Hhi.
    pose proof (total_size_nonneg fs) as Hnn.
    unfold total_size in *. simpl in *.
    split.
    + rewrite length_app, length_le_bytes, Hlen.
      rewrite Z2Nat.inj_add; [reflexivity| |exact Hnn].
      destruct (dtype f); simpl; lia.
    + rewrite take_app_length' by (rewrite length_le_bytes; reflexivity).
      rewrite drop_app_length' by (rewrite length_le_bytes; reflexivity).
      constructor; [|exact Hall].
      rewrite decode_le_bytes by lia. exact Hget.
Qed.

(** What a successful [add_edge] did to a well-sized store. *)
Lemma add_edge_added (g g' : GraphStorage) (kw : Kwargs) (i : Z) :
  well_sized g -> add_edge g kw = Added i g' ->
  exists record,
    pack_fields (fields (schema g)) kw = (record, true)
    /\ length record = Z.to_nat (total_size (schema g))
    /\ i = num_edges g
    /\ g' = with_buffer (buffer g ++ record) (num_edges g + 1) g.
Proof.
  intros [Hnn Hlen]. unfold add_edge.
  destruct (first_missing _ kw); [discriminate|].
  destruct (first_invalid _ kw); [discriminate|].
  destruct (_ <? _)%nat; [discriminate|].
  destruct (pack_fields (fields (schema g)) kw) as [record ok] eqn:Hpack.
  destruct ok; [|discriminate].
  intros [= <- <-]. exists record.
  destruct (pack_fields_unpack _ _ _ Hpack) as [Hrecord _].
  replace (mkEdgeSchema (fields (schema g))) with (schema g) in Hrecord
    by (destruct (schema g); reflexivity).
  split; [reflexivity|]. split; [exact Hrecord|]. split; [reflexivity|].
  f_equal. rewrite <- Hlen.
  set (zeros := replicate (Z.to_nat (total_size (schema g))) 0).
  assert (Hzeros : length zeros = Z.to_nat (total_size (schema g)))
    by apply length_replicate.
  rewrite <- Hzeros, take_app_length.
  rewrite <- length_app, drop_all, app_nil_r. reflexivity.
Qed.

Lemma length_unpack_values (fs : list Field) (data : list Z) :
  length (unpack_values fs data) = length fs.
Proof.
  revert data. induction fs as [|f fs IH]; intros data; simpl;
    [|rewrite IH]; reflexivity.
Qed.

Lemma to_dict_lookup (names : list string) (values : list Z) (i : nat)
    (n : string) (z : Z) :
  NoDup names -> length names = length values ->
  names !! i = Some n -> values !! i = Some z ->
  to_dict names values !! n = Some z.
Proof.
  intros Hnd Hlen Hn Hz. unfold to_dict.
  apply elem_of_list_to_map_1.
  - rewrite <- Permutation_rev, fst_zip by lia. exact Hnd.
  - rewrite <- Permutation_rev.
    apply (list_elem_of_lookup_2 _ i).
    rewrite lookup_zip_with, Hn, Hz. reflexivity.
Qed.

Lemma to_dict_dom (names : list string) (values : list Z) :
  length names = length values ->
  dom (to_dict names values) = list_to_set names.
Proof.
  intros Hlen. unfold to_dict. rewrite dom_list_to_map_L.
  rewrite <- Permutation_rev, fst_zip by lia. reflexivity.
Qed.

Lemma schema_size_nonneg (s : EdgeSchema) : 0 <= total_size s.
Proof. destruct s as [fs]. apply total_size_nonneg. Qed.

(** Reading edge [idx] of a well-sized store succeeds for an index in
    range. *)
Lemma get_edge_in_range (g : GraphStorage) (idx : Z) :
  well_sized g -> 0 <= idx < num_edges g ->
  get_edge g idx
  = Got (to_dict (field_names (schema g))
           (unpack_values (fields (schema g))
              (take (Z.to_nat (total_size (schema g)))
                 (drop (Z.to_nat (idx * total_size (schema g)))
                    (buffer g))))).
Proof.
  intros [Hnn Hlen] Hidx. unfold get_edge, unpack_from.
  rewrite (proj2 (Z.ltb_ge _ _)) by lia.
  rewrite (proj2 (Z.leb_gt _ _)) by lia. simpl.
  pose proof (schema_size_nonneg (schema g)) as Hsize.
  rewrite (proj2 (Nat.ltb_ge _ _)); [reflexivity|].
  rewrite Hlen, <- Z2Nat.inj_add by nia. apply Z2Nat.inj_le; nia.
Qed.

(** X1: an edge that [add_edge] accepted into a store holding exactly its
    records, over a schema with distinct field names, is read back by
    [get_edge] at the returned index: every schema field was supplied as an
    integer, and the dictionary gives that integer under the field's name
    (also for a negative value of a signed field, had it been let in). *)
Theorem get_edge_returns_added_values (g g' : GraphStorage) (kw : Kwargs)
    (i : Z) :
  NoDup (field_names (schema g)) -> well_sized g ->
  add_edge g kw = Added i g' ->
  exists m,
    get_edge g' i = Got m
    /\ forall n, In n (field_names (schema g)) ->
         exists z, kwargs_get kw n = Some (VInt z) /\ m !! n = Some z.
Proof.
  intros Hnames Hsized Hadd.
  destruct (add_edge_added _ _ _ _ Hsized Hadd)
    as (record & Hpack & Hrecord & -> & ->).
  destruct (pack_fields_unpack _ _ _ Hpack) as [_ Hall].
  destruct Hsized as [Hnn Hlen].
  pose proof (schema_size_nonneg (schema g)) as Hsize.
  eexists. split.
  - rewrite get_edge_in_range; [reflexivity| |simpl; lia].
    split; simpl; [lia|].
    rewrite length_app, Hlen, Hrecord, <- Z2Nat.inj_add by nia.
    f_equal. lia.
  - intros n Hn. simpl.
    rewrite <- Hlen, drop_app_length, take_ge by lia.
    apply list_elem_of_In, list_elem_of_lookup_1 in Hn as [k Hk].
    pose proof Hk as Hfield. unfold field_names in Hfield.
    rewrite list_lookup_fmap in Hfield.
    destruct (fields (schema g) !! k) as [f|] eqn:Hf; [|discriminate].
    injection Hfield as <-.
    destruct (Forall2_lookup_l _ _ _ _ _ Hall Hf) as (z & Hz & Hget).
    exists z. split; [exact Hget|].
    apply (to_dict_lookup _ _ k); try assumption.
    unfold field_names. rewrite length_fmap, length_unpack_values.
    reflexivity.
Qed.

Lemma get_edge_returns_added_values_witness :
  exists m,
    get_edge one_edge 0 = Got m
    /\ forall n, In n (field_names (schema empty_storage)) ->
         exists z, kwargs_get first_edge n = Some (VInt z)
                   /\ m !! n = Some z.
Proof.
  apply (get_edge_returns_added_values empty_storage one_edge first_edge 0).
  - apply (bool_decide_unpack _). vm_compute. exact I.
  - split; [simpl; lia|reflexivity].
  - reflexivity.
Defined.

(** X2: a successful [add_edge] leaves every edge stored before it as it
    was: [get_edge] at an earlier index answers the same after as
    before. *)
Theorem add_edge_keeps_stored_edges (g g' : GraphStorage) (kw : Kwargs)
    (i j : Z) :
  well_sized g -> add_edge g kw = Added i g' ->
  0 <= j < num_edges g ->
  get_edge g' j = get_edge g j.
Proof.
  intros Hsized Hadd Hj.
  destruct (add_edge_added _ _ _ _ Hsized Hadd)
    as (record & _ & Hrecord & -> & ->).
  pose proof (schema_size_nonneg (schema g)) as Hsize.
  pose proof Hsized as [Hnn Hlen].
  rewrite (get_edge_in_range g j Hsized Hj).
  rewrite get_edge_in_range; simpl; [| |lia].
  - assert (Hfit : (Z.to_nat (j * total_size (schema g))
                    + Z.to_nat (total_size (schema g))
                    <= length (buffer g))%nat).
    { rewrite Hlen, <- Z2Nat.inj_add by nia. apply Z2Nat.inj_le; nia. }
    rewrite drop_app_le by lia.
    rewrite take_app_le by (rewrite length_drop; lia). reflexivity.
  - split; simpl; [lia|].
    rewrite length_app, Hlen, Hrecord, <- Z2Nat.inj_add by nia.
    f_equal. lia.
Qed.

Lemma add_edge_keeps_stored_edges_witness :
  get_edge two_edges 0 = get_edge one_edge 0.
Proof.
  apply (add_edge_keeps_stored_edges one_edge two_edges second_edge 1 0).
  - split; [simpl; lia|reflexivity].
  - reflexivity.
  - simpl. lia.
Defined.

(** Integer arguments that passed both checks are always packed. *)
Lemma checked_integers_pack (g : GraphStorage) (kw : Kwargs) :
  NoDup (field_names (schema g)) ->
  (forall n v, In (n, v) kw -> exists z, v = VInt z) ->
  first_missing (field_names (schema g)) kw = None ->
  first_invalid (schema g) kw = None ->
  exists record, pack_fields (fields (schema g)) kw = (record, true).
Proof.
  intros Hnames Hints Hpresent Hvalid.
  destruct (pack_fields_ok (fields (schema g)) kw) as (record & Hpack & _);
    [|eauto].
  intros f Hf.
  destruct (first_missing_none _ _ Hpresent (name f)) as [v Hv].
  { apply in_map, Hf. }
  destruct (Hints _ _ (kwargs_get_In _ _ _ Hv)) as [z ->].
  exists z. split; [exact Hv|].
  pose proof (field_map_unique _ _ Hnames Hf) as Hmap.
  pose proof (get_max_value_fits _ _ _ Hmap) as [Hmin Hmax].
  assert (0 <= z <= get_max_value (schema g) (name f)); [|lia].
  apply (first_invalid_none _ _ Hvalid); [exact (kwargs_get_In _ _ _ Hv)|].
  apply field_map_in_offsets. rewrite Hmap. eauto.
Qed.

(** X3: on a store holding exactly its records, over a schema with
    distinct field names, [add_edge] called with integers either appends
    (it returns the old edge count, the count grows by one, the schema is
    the same and the buffer again holds exactly the records), or it raises
    one of its own errors and the store is untouched; [struct] never
    refuses a value that passed the checks, whatever the dtype. *)
Theorem add_edge_keeps_well_sized (g : GraphStorage) (kw : Kwargs) :
  NoDup (field_names (schema g)) ->
  (forall n v, In (n, v) kw -> exists z, v = VInt z) ->
  well_sized g ->
  (exists g',
     add_edge g kw = Added (num_edges g) g'
     /\ num_edges g' = num_edges g + 1
     /\ schema g' = schema g
     /\ well_sized g')
  \/ (exists e, add_edge g kw = Failed e g /\ e <> StructError).
Proof.
  intros Hnames Hints Hsized.
  destruct (first_missing (field_names (schema g)) kw) as [n|] eqn:Hmiss.
  { right. exists (MissingField n). unfold add_edge. rewrite Hmiss.
    split; [reflexivity|discriminate]. }
  destruct (first_invalid (schema g) kw) as [e|] eqn:Hbad.
  { right. exists e. unfold add_edge. rewrite Hmiss, Hbad.
    split; [reflexivity|].
    apply first_invalid_some in Hbad as (n & z & -> & _); [|exact Hints].
    discriminate. }
  left.
  destruct (checked_integers_pack g kw Hnames Hints Hmiss Hbad)
    as (record & Hpack).
  assert (Hadd : exists g', add_edge g kw = Added (num_edges g) g').
  { unfold add_edge. rewrite Hmiss, Hbad, Hpack.
    destruct Hsized as [Hnn Hlen].
    rewrite (proj2 (Nat.ltb_ge _ _)); [eauto|].
    rewrite length_app, length_replicate, Hlen. lia. }
  destruct Hadd as [g' Hadd]. exists g'. split; [exact Hadd|].
  destruct (add_edge_added _ _ _ _ Hsized Hadd)
    as (record' & _ & Hrecord & _ & ->).
  destruct Hsized as [Hnn Hlen].
  pose proof (schema_size_nonneg (schema g)) as Hsize.
  split; [reflexivity|]. split; [reflexivity|].
  split; simpl; [lia|].
  rewrite length_app, Hlen, Hrecord, <- Z2Nat.inj_add by nia.
  f_equal. lia.
Qed.

Lemma add_edge_keeps_well_sized_witness :
  (exists g',
     add_edge one_edge second_edge = Added (num_edges one_edge) g'
     /\ num_edges g' = num_edges one_edge + 1
     /\ schema g' = schema one_edge
     /\ well_sized g')
  \/ (exists e, add_edge one_edge second_edge = Failed e one_edge
                /\ e <> StructError).
Proof.
  apply (add_edge_keeps_well_sized one_edge second_edge).
  - apply (bool_decide_unpack _). vm_compute. exact I.
  - intros n v [[= <- <-]|[[= <- <-]|[[= <- <-]|[]]]]; eauto.
  - split; [simpl; lia|reflexivity].
Defined.

(** X4: on a store holding exactly its records, [get_edge] raises
    [IndexError] exactly for a negative index or one at or beyond the edge
    count; for an index in range it returns a dictionary whose keys are the
    schema's field names. *)
Theorem get_edge_index_error_iff (g : GraphStorage) (idx : Z) :
  well_sized g ->
  (get_edge g idx = ReadFailed IndexError <->
   idx < 0 \/ num_edges g <= idx)
  /\ (0 <= idx < num_edges g ->
      exists m, get_edge g idx = Got m
                /\ dom m = list_to_set (field_names (schema g))).
Proof.
  intros Hsized. split.
  - split.
    + intros Hfail.
      destruct (Z_lt_le_dec idx 0) as [?|Hlo]; [now left|].
      destruct (Z_lt_le_dec idx (num_edges g)) as [Hhi|?]; [|now right].
      rewrite get_edge_in_range in Hfail by (assumption || lia).
      discriminate.
    + intros Hout. unfold get_edge.
      destruct Hout as [H|H].
      * rewrite (proj2 (Z.ltb_lt _ _) H). reflexivity.
      * rewrite (proj2 (Z.leb_le _ _) H), orb_true_r. reflexivity.
  - intros Hidx. rewrite get_edge_in_range by assumption.
    eexists. split; [reflexivity|]. apply to_dict_dom.
    unfold field_names. rewrite length_fmap, length_unpack_values.
    reflexivity.
Qed.

Lemma get_edge_index_error_iff_witness :
  (get_edge two_edges 2 = ReadFailed IndexError <->
   2 < 0 \/ num_edges two_edges <= 2)
  /\ (0 <= 2 < num_edges two_edges ->
      exists m, get_edge two_edges 2 = Got m
                /\ dom m = list_to_set (field_names (schema two_edges))).
Proof.
  apply (get_edge_index_error_iff two_edges 2).
  split; [simpl; lia|reflexivity].
Defined.

Lemma dtype_size_pos (d : DType) : 0 < dtype_size d.
Proof. destruct d; simpl; lia. Qed.

Lemma find_unique_key {A} (key : A -> string) (l : list A) (a : A) :
  NoDup (key <$> l) -> In a l ->
  List.find (fun x => bool_decide (key x = key a)) l = Some a.
Proof.
  induction l as [|x l IH]; intros Hnd Hin; [destruct Hin|].
  simpl in *. apply NoDup_cons in Hnd as [Hx Hnd].
  destruct Hin as [->|Hin].
  - rewrite bool_decide_eq_true_2; reflexivity.
  - rewrite bool_decide_eq_false_2; [apply IH; assumption|].
    intros Heq. apply Hx. rewrite Heq.
    apply list_elem_of_In, in_map, Hin.
Qed.

Lemma find_rev_unique_key {A} (key : A -> string) (l : list A) (a : A) :
  NoDup (key <$> l) -> In a l ->
  List.find (fun x => bool_decide (key x = key a)) (rev l) = Some a.
Proof.
  intros Hnd Hin. apply find_unique_key.
  - rewrite <- Permutation_rev. exact Hnd.
  - apply in_rev. rewrite rev_involutive. exact Hin.
Qed.

Lemma offsets_from_names (start : Z) (fs : list Field) :
  (offsets_from start fs).*1 = name <$> fs.
Proof.
  revert start. induction fs as [|f fs IH]; intros start; [reflexivity|].
  simpl. rewrite IH. reflexivity.
Qed.

(** Field [k] of a record: its offset lies within the record and the
    value unpacked for it is decoded from the bytes at this offset. *)
Lemma offsets_from_lookup (start : Z) (fs : list Field) (k : nat) (f : Field) :
  fs !! k = Some f ->
  exists o,
    offsets_from start fs !! k = Some (name f, o)
    /\ start <= o
    /\ o + dtype_size (dtype f) <= start + total_size (mkEdgeSchema fs)
    /\ forall data,
         unpack_values fs data !! k
         = Some (decode (dtype f)
                   (take (Z.to_nat (dtype_size (dtype f)))
                      (drop (Z.to_nat (o - start)) data))).
Proof.
  revert start k. induction fs as [|x fs IH]; intros start k Hk;
    [rewrite lookup_nil in Hk; discriminate|].
  pose proof (total_size_nonneg fs) as Hrest.
  pose proof (dtype_size_pos (dtype x)) as Hx.
  unfold total_size in *. simpl in *.
  destruct k as [|k].
  - injection Hk as ->. exists start. simpl.
    split; [reflexivity|]. split; [lia|]. split; [lia|].
    intros data. rewrite Z.sub_diag. reflexivity.
  - simpl in Hk.
    destruct (IH (start + dtype_size (dtype x)) k Hk)
      as (o & Ho & Hlo & Hhi & Hval).
    exists o. simpl. split; [exact Ho|]. split; [lia|]. split; [lia|].
    intros data. rewrite Hval, drop_drop. do 3 f_equal.
    rewrite <- Z2Nat.inj_add by lia. f_equal. lia.
Qed.

Lemma take_drop_take {A} (l : list A) (n a t : nat) :
  (a + n <= t)%nat -> take n (drop a (take t l)) = take n (drop a l).
Proof.
  intros Hle. rewrite !take_drop_commute, take_take.
  rewrite Nat.min_l by lia. reflexivity.
Qed.

Lemma offsets_some (s : EdgeSchema) (n : string) (o : Z) :
  offsets s n = Some o -> In n (field_names s).
Proof.
  unfold offsets. intros H.
  destruct (List.find _ _) as [[k x]|] eqn:Hfind; [|discriminate].
  apply find_some in Hfind as [Hin Hk].
  apply bool_decide_eq_true in Hk. simpl in Hk. subst k.
  apply in_rev in Hin. unfold field_names.
  rewrite <- (offsets_from_names 0). apply list_elem_of_In.
  apply list_elem_of_fmap. exists (n, x).
  split; [reflexivity|apply list_elem_of_In, Hin].
Qed.

Lemma offsets_none (s : EdgeSchema) (n : string) :
  offsets s n = None -> ~ In n (field_names s).
Proof.
  unfold offsets. intros H Hin.
  destruct (List.find _ _) as [kx|] eqn:Hfind; [discriminate|].
  unfold field_names in Hin. rewrite <- (offsets_from_names 0) in Hin.
  apply list_elem_of_In, list_elem_of_fmap in Hin as ([k x] & -> & Hkx).
  apply list_elem_of_In, in_rev in Hkx.
  pose proof (find_none _ _ Hfind _ Hkx) as Hno. simpl in Hno.
  rewrite bool_decide_eq_true_2 in Hno by reflexivity. discriminate.
Qed.

(** A field of a schema with distinct names: both dictionaries of the
    schema know it, and its entry in an unpacked record is decoded from the
    bytes at its offset. *)
Lemma schema_field (s : EdgeSchema) (n : string) :
  NoDup (field_names s) -> In n (field_names s) ->
  exists o f,
    offsets s n = Some o
    /\ field_map s n = Some f
    /\ 0 <= o
    /\ o + dtype_size (dtype f) <= total_size s
    /\ forall data,
         to_dict (field_names s) (unpack_values (fields s) data) !! n
         = Some (decode (dtype f)
                   (take (Z.to_nat (dtype_size (dtype f)))
                      (drop (Z.to_nat o) data))).
Proof.
  intros Hnd Hn.
  apply list_elem_of_In, list_elem_of_lookup_1 in Hn as [k Hk].
  unfold field_names in Hk. rewrite list_lookup_fmap in Hk.
  destruct (fields s !! k) as [f|] eqn:Hf; [|discriminate].
  injection Hk as <-.
  destruct (offsets_from_lookup 0 _ _ _ Hf) as (o & Ho & Hlo & Hhi & Hval).
  exists o, f.
  split.
  { unfold offsets.
    rewrite (find_rev_unique_key fst _ (name f, o)); [reflexivity| |].
    - rewrite offsets_from_names. exact Hnd.
    - apply list_elem_of_In. eapply list_elem_of_lookup_2. exact Ho. }
  split.
  { apply field_map_unique; [exact Hnd|].
    apply list_elem_of_In. eapply list_elem_of_lookup_2. exact Hf. }
  split; [exact Hlo|]. split; [exact Hhi|].
  intros data.
  apply (to_dict_lookup _ _ k); [exact Hnd| | |].
  - unfold field_names. rewrite length_fmap, length_unpack_values.
    reflexivity.
  - unfold field_names. rewrite list_lookup_fmap, Hf. reflexivity.
  - rewrite Hval, Z.sub_0_r. reflexivity.
Qed.

(** What [get_vertices] and [adjacency_lists_fast] read for a field of
    edge [i] is the entry of this field in the dictionary of [get_edge]. *)
Lemma field_of_edge (g : GraphStorage) (i : nat) (n : string) (o : Z)
    (f : Field) :
  NoDup (field_names (schema g)) -> well_sized g ->
  (i < Z.to_nat (num_edges g))%nat ->
  offsets (schema g) n = Some o ->
  field_map (schema g) n = Some f ->
  exists m z,
    get_edge g (Z.of_nat i) = Got m
    /\ m !! n = Some z
    /\ unpack_one (dtype f) (buffer g)
         (Z.of_nat i * total_size (schema g) + o) = Got z.
Proof.
  intros Hnd Hsized Hi Ho Hf.
  destruct (schema_field (schema g) n Hnd (offsets_some _ _ _ Ho))
    as (o' & f' & Ho' & Hf' & Hlo & Hhi & Hval).
  rewrite Ho in Ho'. injection Ho' as <-.
  rewrite Hf in Hf'. injection Hf' as <-.
  pose proof (dtype_size_pos (dtype f)) as Hpos.
  pose proof Hsized as [Hnn Hlen].
  rewrite get_edge_in_range by (assumption || lia).
  eexists. eexists.
  split; [reflexivity|]. split; [apply Hval|].
  unfold unpack_one.
  rewrite (proj2 (Nat.ltb_ge _ _)).
  2:{ rewrite Hlen, <- Z2Nat.inj_add by nia. apply Z2Nat.inj_le; nia. }
  do 2 f_equal.
  rewrite take_drop_take, drop_drop.
  2:{ rewrite <- Z2Nat.inj_add by lia. apply Z2Nat.inj_le; lia. }
  do 2 f_equal.
  rewrite <- Z2Nat.inj_add by nia. f_equal.
Qed.

Lemma endpoints_found (g : GraphStorage) :
  NoDup (field_names (schema g)) ->
  In (source_field g) (field_names (schema g)) ->
  In (target_field g) (field_names (schema g)) ->
  exists src_ofs tgt_ofs src_field tgt_field,
    endpoints g = Got (src_ofs, tgt_ofs, src_field, tgt_field)
    /\ offsets (schema g) (source_field g) = Some src_ofs
    /\ offsets (schema g) (target_field g) = Some tgt_ofs
    /\ field_map (schema g) (source_field g) = Some src_field
    /\ field_map (schema g) (target_field g) = Some tgt_field.
Proof.
  intros Hnd Hs Ht.
  destruct (schema_field _ _ Hnd Hs) as (so & sf & Hso & Hsf & _).
  destruct (schema_field _ _ Hnd Ht) as (to & tf & Hto & Htf & _).
  exists so, to, sf, tf. unfold endpoints.
  rewrite Hso, Hto, Hsf, Htf. repeat split; reflexivity.
Qed.

(** The loop of [get_vertices] over records that can be read. *)
Lemma vertices_loop_spec (g : GraphStorage) (src_ofs tgt_ofs : Z)
    (src_field tgt_field : Field) (indices : list nat) (acc : gset Z) :
  (forall i, In i indices ->
     (exists s, unpack_one (dtype src_field) (buffer g)
                  (Z.of_nat i * total_size (schema g) + src_ofs) = Got s)
     /\ (exists t, unpack_one (dtype tgt_field) (buffer g)
                     (Z.of_nat i * total_size (schema g) + tgt_ofs) = Got t)) ->
  exists vs,
    vertices_loop g src_ofs tgt_ofs src_field tgt_field indices acc = Got vs
    /\ forall v,
         v ∈ vs <->
         v ∈ acc
         \/ exists i, In i indices
              /\ (unpack_one (dtype src_field) (buffer g)
                    (Z.of_nat i * total_size (schema g) + src_ofs) = Got v
                  \/ unpack_one (dtype tgt_field) (buffer g)
                       (Z.of_nat i * total_size (schema g) + tgt_ofs) = Got v).
Proof.
  revert acc. induction indices as [|i rest IH]; intros acc Hread.
  - exists acc. split; [reflexivity|]. intros v. split; [tauto|].
    intros [H|(i & [] & _)]. exact H.
  - destruct (Hread i (or_introl eq_refl)) as [[s Hs] [t Ht]].
    destruct (IH ({[t]} ∪ ({[s]} ∪ acc))) as (vs & Hloop & Hvs).
    { intros j Hj. apply Hread. right. exact Hj. }
    exists vs. simpl. rewrite Hs, Ht. split; [exact Hloop|].
    intros v. rewrite Hvs. split.
    + intros [Hv|(j & Hj & Hv)].
      * apply elem_of_union in Hv as [Hv|Hv].
        { apply elem_of_singleton in Hv as ->. right. exists i.
          split; [left; reflexivity|right; exact Ht]. }
        apply elem_of_union in Hv as [Hv|Hv]; [|left; exact Hv].
        apply elem_of_singleton in Hv as ->. right. exists i.
        split; [left; reflexivity|left; exact Hs].
      * right. exists j. split; [right; exact Hj|exact Hv].
    + intros [Hv|(j & [<-|Hj] & Hv)].
      * left. set_solver.
      * left. destruct Hv as [Hv|Hv].
        { rewrite Hs in Hv. injection Hv as ->. set_solver. }
        rewrite Ht in Hv. injection Hv as ->. set_solver.
      * right. exists j. split; assumption.
Qed.

(** X5: [get_vertices] returns exactly the values that the edges read by
    [get_edge] have under the source field or under the target field, when
    the field names are distinct, the two fields are in the schema (the
    constructor checks it) and the buffer holds exactly the records. *)
Theorem get_vertices_are_edge_endpoints (g : GraphStorage) :
  NoDup (field_names (schema g)) -> well_sized g ->
  In (source_field g) (field_names (schema g)) ->
  In (target_field g) (field_names (schema g)) ->
  exists vs,
    get_vertices g = Got vs
    /\ forall v,
         v ∈ vs <->
         exists i m, get_edge g i = Got m
                     /\ (m !! source_field g = Some v
                         \/ m !! target_field g = Some v).
Proof.
  intros Hnd Hsized Hs Ht.
  destruct (endpoints_found g Hnd Hs Ht)
    as (so & to & sf & tf & Hends & Hso & Hto & Hsf & Htf).
  assert (Hread : forall i, In i (edge_indices g) ->
    exists m s t,
      get_edge g (Z.of_nat i) = Got m
      /\ m !! source_field g = Some s /\ m !! target_field g = Some t
      /\ unpack_one (dtype sf) (buffer g)
           (Z.of_nat i * total_size (schema g) + so) = Got s
      /\ unpack_one (dtype tf) (buffer g)
           (Z.of_nat i * total_size (schema g) + to) = Got t).
  { intros i Hi. apply in_seq in Hi as [_ Hi]. simpl in Hi.
    destruct (field_of_edge g i _ _ _ Hnd Hsized Hi Hso Hsf)
      as (m & s & Hm & Hms & Hus).
    destruct (field_of_edge g i _ _ _ Hnd Hsized Hi Hto Htf)
      as (m' & t & Hm' & Hmt & Hut).
    rewrite Hm in Hm'. injection Hm' as <-.
    exists m, s, t. repeat split; assumption. }
  destruct (vertices_loop_spec g so to sf tf (edge_indices g) ∅)
    as (vs & Hloop & Hvs).
  { intros i Hi. destruct (Hread i Hi) as (m & s & t & _ & _ & _ & Hus & Hut).
    eauto. }
  exists vs. unfold get_vertices. rewrite Hends. split; [exact Hloop|].
  intros v. rewrite Hvs. split.
  - intros [Hv|(i & Hi & Hv)]; [set_solver|].
    destruct (Hread i Hi) as (m & s & t & Hm & Hms & Hmt & Hus & Hut).
    exists (Z.of_nat i), m. split; [exact Hm|].
    destruct Hv as [Hv|Hv].
    + rewrite Hus in Hv. injection Hv as <-. left. exact Hms.
    + rewrite Hut in Hv. injection Hv as <-. right. exact Hmt.
  - intros (i & m & Hm & Hv). right.
    assert (Hi : 0 <= i < num_edges g).
    { destruct (Z_lt_le_dec i 0) as [Hlo|Hlo].
      - unfold get_edge in Hm. rewrite (proj2 (Z.ltb_lt _ _) Hlo) in Hm.
        discriminate.
      - destruct (Z_lt_le_dec i (num_edges g)) as [Hhi|Hhi]; [lia|].
        unfold get_edge in Hm.
        rewrite (proj2 (Z.leb_le _ _) Hhi), orb_true_r in Hm.
        discriminate. }
    exists (Z.to_nat i). split.
    { apply in_seq. simpl. split; [lia|]. apply Z2Nat.inj_lt; lia. }
    destruct (Hread (Z.to_nat i)) as (m' & s & t & Hm' & Hms & Hmt & Hus & Hut).
    { apply in_seq. simpl. split; [lia|]. apply Z2Nat.inj_lt; lia. }
    rewrite Z2Nat.id in * by lia.
    rewrite Hm in Hm'. injection Hm' as <-.
    destruct Hv as [Hv|Hv].
    + left. rewrite Hus. f_equal. congruence.
    + right. rewrite Hut. f_equal. congruence.
Qed.

Lemma get_vertices_are_edge_endpoints_witness :
  exists vs,
    get_vertices two_edges = Got vs
    /\ forall v,
         v ∈ vs <->
         exists i m, get_edge two_edges i = Got m
                     /\ (m !! source_field two_edges = Some v
                         \/ m !! target_field two_edges = Some v).
Proof.
  apply (get_vertices_are_edge_endpoints two_edges).
  - apply (bool_decide_unpack _). vm_compute. exact I.
  - split; [simpl; lia|reflexivity].
  - simpl. auto.
  - simpl. auto.
Defined.

Lemma adj_append_In (v u : Z) (x y : Z * Z * Z) (d : Adjacency) :
  In y (default [] (adj_append v x d !! u)) <->
  In y (default [] (d !! u)) \/ (u = v /\ y = x).
Proof.
  unfold adj_append, Adjacency in *. destruct (decide (u = v)) as [->|Hne].
  - rewrite lookup_insert_eq. simpl. rewrite in_app_iff. simpl.
    split; intros [H|H]; auto.
    + destruct H as [<-|[]]. auto.
    + destruct H as [_ ->]. auto.
  - rewrite lookup_insert_ne by congruence. split; [auto|].
    intros [H|[H _]]; [exact H|contradiction].
Qed.

Lemma adjacency_loop_mirror (g : GraphStorage) (src_ofs tgt_ofs : Z)
    (src_field tgt_field : Field) (dur : option (Z * Field))
    (indices : list nat) (out inn out' inn' : Adjacency) :
  (forall s t i w,
     In (t, i, w) (default [] (out !! s)) <->
     In (s, i, w) (default [] (inn !! t))) ->
  adjacency_loop g src_ofs tgt_ofs src_field tgt_field dur indices out inn
  = Got (out', inn') ->
  forall s t i w,
    In (t, i, w) (default [] (out' !! s)) <->
    In (s, i, w) (default [] (inn' !! t)).
Proof.
  revert out inn. induction indices as [|j rest IH]; intros out inn Hsym.
  - simpl. intros [= <- <-]. exact Hsym.
  - simpl.
    destruct (unpack_one (dtype src_field) _ _) as [src|]; [|discriminate].
    destruct (unpack_one (dtype tgt_field) _ _) as [tgt|]; [|discriminate].
    destruct (match dur with Some _ => _ | None => _ end) as [w0|];
      [|discriminate].
    apply IH. intros s t i w. rewrite !adj_append_In, Hsym.
    split; (intros [H|[-> [= -> -> ->]]]; [left; exact H|right; auto]).
Qed.

(** The loop of [adjacency_lists_fast] over records that can be read. *)
Lemma adjacency_loop_spec (g : GraphStorage) (src_ofs tgt_ofs : Z)
    (src_field tgt_field : Field) (dur : option (Z * Field))
    (indices : list nat) (out inn : Adjacency) :
  (forall i, In i indices ->
     exists s t w,
       unpack_one (dtype src_field) (buffer g)
         (Z.of_nat i * total_size (schema g) + src_ofs) = Got s
       /\ unpack_one (dtype tgt_field) (buffer g)
            (Z.of_nat i * total_size (schema g) + tgt_ofs) = Got t
       /\ read_duration g dur i = Got w) ->
  exists out' inn',
    adjacency_loop g src_ofs tgt_ofs src_field tgt_field dur indices out inn
    = Got (out', inn')
    /\ forall s t j w,
         In (t, j, w) (default [] (out' !! s)) <->
         In (t, j, w) (default [] (out !! s))
         \/ exists i, In i indices /\ j = Z.of_nat i
              /\ unpack_one (dtype src_field) (buffer g)
                   (Z.of_nat i * total_size (schema g) + src_ofs) = Got s
              /\ unpack_one (dtype tgt_field) (buffer g)
                   (Z.of_nat i * total_size (schema g) + tgt_ofs) = Got t
              /\ read_duration g dur i = Got w.
Proof.
  revert out inn. induction indices as [|i rest IH]; intros out inn Hread.
  - exists out, inn. split; [reflexivity|]. intros s t j w. split; [tauto|].
    intros [H|(i & [] & _)]. exact H.
  - destruct (Hread i (or_introl eq_refl)) as (s0 & t0 & w0 & Hs & Ht & Hw).
    destruct (IH (adj_append s0 (t0, Z.of_nat i, w0) out)
                 (adj_append t0 (s0, Z.of_nat i, w0) inn))
      as (out' & inn' & Hloop & Hout).
    { intros j Hj. apply Hread. right. exact Hj. }
    exists out', inn'. split.
    { simpl. rewrite Hs, Ht. unfold read_duration in Hw. rewrite Hw.
      exact Hloop. }
    intros s t j w. rewrite Hout, adj_append_In. split.
    + intros [[H|[-> [= -> -> ->]]]|(k & Hk & H)].
      * left. exact H.
      * right. exists i. split; [left; reflexivity|]. auto.
      * right. exists k. split; [right; exact Hk|exact H].
    + intros [H|(k & [<-|Hk] & -> & Hks & Hkt & Hkw)].
      * left. left. exact H.
      * left. right. rewrite Hs in Hks. rewrite Ht in Hkt. rewrite Hw in Hkw.
        injection Hks as ->. injection Hkt as ->. injection Hkw as ->.
        split; reflexivity.
      * right. exists k. auto.
Qed.

(** X6: the two dictionaries of [adjacency_lists_fast] mirror each other:
    [(t, i, w)] is listed under [s] in [out] exactly when [(s, i, w)] is
    listed under [t] in [inn]. *)
Theorem adjacency_lists_mirror (g : GraphStorage) (out inn : Adjacency) :
  adjacency_lists_fast g = Got (out, inn) ->
  forall s t i w,
    In (t, i, w) (default [] (out !! s)) <->
    In (s, i, w) (default [] (inn !! t)).
Proof.
  unfold adjacency_lists_fast.
  destruct (endpoints g) as [[[[so to] sf] tf]|]; [|discriminate].
  apply adjacency_loop_mirror.
  intros s t i w. unfold Adjacency. rewrite !lookup_empty. reflexivity.
Qed.

Lemma adjacency_lists_mirror_witness :
  adjacency_lists_fast two_edges = Got (two_edges_out, two_edges_inn)
  /\ forall s t i w,
       In (t, i, w) (default [] (two_edges_out !! s)) <->
       In (s, i, w) (default [] (two_edges_inn !! t)).
Proof.
  split; [vm_compute; reflexivity|].
  apply (adjacency_lists_mirror two_edges two_edges_out two_edges_inn).
  vm_compute. reflexivity.
Defined.

Lemma get_edge_got_range (g : GraphStorage) (i : Z) (m : gmap string Z) :
  get_edge g i = Got m -> 0 <= i < num_edges g.
Proof.
  unfold get_edge. intros Hm.
  destruct (Z_lt_le_dec i 0) as [Hlo|Hlo].
  { rewrite (proj2 (Z.ltb_lt _ _) Hlo) in Hm. discriminate. }
  destruct (Z_lt_le_dec i (num_edges g)) as [Hhi|Hhi]; [lia|].
  rewrite (proj2 (Z.leb_le _ _) Hhi), orb_true_r in Hm. discriminate.
Qed.

(** The duration [adjacency_lists_fast] reads for edge [i] is the entry
    'duration' of the dictionary of [get_edge], or 0 without one. *)
Lemma duration_of_edge (g : GraphStorage) (i : nat) :
  NoDup (field_names (schema g)) -> well_sized g ->
  (i < Z.to_nat (num_edges g))%nat ->
  exists m,
    get_edge g (Z.of_nat i) = Got m
    /\ read_duration g (duration_reader (schema g)) i
       = Got (default 0 (m !! "duration")).
Proof.
  intros Hnd Hsized Hi. unfold duration_reader.
  destruct (offsets (schema g) "duration") as [o|] eqn:Ho.
  - destruct (schema_field _ _ Hnd (offsets_some _ _ _ Ho))
      as (o' & f & Ho' & Hf & _).
    rewrite Hf.
    destruct (field_of_edge g i _ _ _ Hnd Hsized Hi Ho Hf)
      as (m & z & Hm & Hmz & Hz).
    exists m. split; [exact Hm|]. simpl. rewrite Hz, Hmz. reflexivity.
  - pose proof Hsized as [Hnn _].
    rewrite get_edge_in_range by (assumption || lia).
    eexists. split; [reflexivity|]. simpl.
    rewrite (proj1 (not_elem_of_dom _ _)); [reflexivity|].
    rewrite to_dict_dom.
    + rewrite elem_of_list_to_set, list_elem_of_In.
      apply offsets_none, Ho.
    + unfold field_names. rewrite length_fmap, length_unpack_values.
      reflexivity.
Qed.

(** X7: [adjacency_lists_fast] lists [(t, i, w)] under [s] in [out]
    exactly when edge [i], as [get_edge] reads it, goes from [s] to [t] and
    [w] is its entry 'duration', or 0 when the schema has no such field. *)
Theorem adjacency_lists_list_the_edges (g : GraphStorage) :
  NoDup (field_names (schema g)) -> well_sized g ->
  In (source_field g) (field_names (schema g)) ->
  In (target_field g) (field_names (schema g)) ->
  exists out inn,
    adjacency_lists_fast g = Got (out, inn)
    /\ forall s t i w,
         In (t, i, w) (default [] (out !! s)) <->
         exists m, get_edge g i = Got m
                   /\ m !! source_field g = Some s
                   /\ m !! target_field g = Some t
                   /\ w = default 0 (m !! "duration").
Proof.
  intros Hnd Hsized Hs Ht.
  destruct (endpoints_found g Hnd Hs Ht)
    as (so & to & sf & tf & Hends & Hso & Hto & Hsf & Htf).
  assert (Hread : forall i, In i (edge_indices g) ->
    exists m s t,
      get_edge g (Z.of_nat i) = Got m
      /\ m !! source_field g = Some s /\ m !! target_field g = Some t
      /\ unpack_one (dtype sf) (buffer g)
           (Z.of_nat i * total_size (schema g) + so) = Got s
      /\ unpack_one (dtype tf) (buffer g)
           (Z.of_nat i * total_size (schema g) + to) = Got t
      /\ read_duration g (duration_reader (schema g)) i
         = Got (default 0 (m !! "duration"))).
  { intros i Hi. apply in_seq in Hi as [_ Hi]. simpl in Hi.
    destruct (field_of_edge g i _ _ _ Hnd Hsized Hi Hso Hsf)
      as (m & s & Hm & Hms & Hus).
    destruct (field_of_edge g i _ _ _ Hnd Hsized Hi Hto Htf)
      as (m' & t & Hm' & Hmt & Hut).
    destruct (duration_of_edge g i Hnd Hsized Hi) as (m'' & Hm'' & Hw).
    rewrite Hm in Hm'. injection Hm' as <-.
    rewrite Hm in Hm''. injection Hm'' as <-.
    exists m, s, t. repeat split; assumption. }
  destruct (adjacency_loop_spec g so to sf tf (duration_reader (schema g))
              (edge_indices g) ∅ ∅) as (out & inn & Hloop & Hout).
  { intros i Hi.
    destruct (Hread i Hi) as (m & s & t & _ & _ & _ & Hus & Hut & Hw).
    eexists s, t, _. repeat split; eassumption. }
  exists out, inn. unfold adjacency_lists_fast. rewrite Hends.
  split; [exact Hloop|].
  intros s t j w. rewrite Hout. unfold Adjacency. rewrite lookup_empty.
  simpl. split.
  - intros [[]|(i & Hi & -> & Hs' & Ht' & Hw')].
    destruct (Hread i Hi) as (m & s0 & t0 & Hm & Hms & Hmt & Hus & Hut & Hw).
    exists m. rewrite Hus in Hs'. rewrite Hut in Ht'. rewrite Hw in Hw'.
    injection Hs' as <-. injection Ht' as <-. injection Hw' as <-.
    repeat split; assumption.
  - intros (m & Hm & Hms & Hmt & ->). right.
    pose proof (get_edge_got_range _ _ _ Hm) as Hj.
    assert (Hin : In (Z.to_nat j) (edge_indices g)).
    { apply in_seq. simpl. split; [lia|]. apply Z2Nat.inj_lt; lia. }
    exists (Z.to_nat j). split; [exact Hin|].
    destruct (Hread _ Hin) as (m' & s0 & t0 & Hm' & Hms' & Hmt' & Hus & Hut & Hw).
    rewrite Z2Nat.id in * by lia.
    rewrite Hm in Hm'. injection Hm' as <-.
    split; [reflexivity|].
    rewrite Hus, Hut, Hw. repeat split; congruence.
Qed.

Lemma adjacency_lists_list_the_edges_witness :
  exists out inn,
    adjacency_lists_fast two_edges = Got (out, inn)
    /\ forall s t i w,
         In (t, i, w) (default [] (out !! s)) <->
         exists m, get_edge two_edges i = Got m
                   /\ m !! source_field two_edges = Some s
                   /\ m !! target_field two_edges = Some t
                   /\ w = default 0 (m !! "duration").
Proof.
  apply (adjacency_lists_list_the_edges two_edges).
  - apply (bool_decide_unpack _). vm_compute. exact I.
  - split; [simpl; lia|reflexivity].
  - simpl. auto.
  - simpl. auto.
Defined.

End EdgeStoreReading.

(** ** Permission predicates of ProjectService *)

Section Permissions.

Lemma no_active_membership (st : Store) (user : User) (project : Z) :
  (forall m, In m (members st) -> member_project m = project ->
             member_user m = user_id user -> member_is_active m = false) ->
  List.find (fun m => bool_decide (member_project m = project)
                      && bool_decide (member_user m = user_id user)
                      && member_is_active m)
            (members st) = None.
Proof.
  intros Hnone.
  destruct (List.find _ (members st)) as [m|] eqn:Hfind; [|reflexivity].
  apply find_some in Hfind as [Hin Hm].
  apply andb_true_iff in Hm as [Hm Hactive].
  apply andb_true_iff in Hm as [Hp Hu].
  apply bool_decide_eq_true in Hp, Hu.
  rewrite (Hnone m Hin Hp Hu) in Hactive. discriminate.
Qed.

(** X8: a user who has no active membership row in the project of a task
    (none at all, or only deactivated ones) is refused by every permission
    predicate, and none of them raises: [is_member], [can_manage_members],
    [can_edit_project], [can_delete_project], [can_create_tasks],
    [can_edit_task] and [can_delete_task] answer false and
    [can_create_dependencies] returns false. *)
Theorem user_without_active_membership_is_denied (st : Store) (user : User)
    (task : Task) :
  (forall m, In m (members st) ->
             member_project m = task_project task ->
             member_user m = user_id user -> member_is_active m = false) ->
  ProjectService.is_member st user (task_project task) = false
  /\ ProjectService.can_manage_members st user (task_project task) = false
  /\ ProjectService.can_edit_project st user (task_project task) = false
  /\ ProjectService.can_delete_project st user (task_project task) = false
  /\ ProjectService.can_create_tasks st user (task_project task) = false
  /\ ProjectService.can_edit_task st user task = false
  /\ ProjectService.can_delete_task st user task = false
  /\ ProjectService.can_create_dependencies st user task = Ok false.
Proof.
  intros Hnone. apply no_active_membership in Hnone.
  unfold ProjectService.is_member, ProjectService.can_manage_members,
    ProjectService.can_edit_project, ProjectService.can_delete_project,
    ProjectService.can_create_tasks, ProjectService.can_edit_task,
    ProjectService.can_delete_task, ProjectService.can_create_dependencies,
    ProjectService.get_user_role_in_project.
  rewrite Hnone. repeat split.
Qed.

(** eve holds no membership in the project of task A. *)
Lemma user_without_active_membership_is_denied_witness :
  ProjectService.can_edit_task Scenario.chain (mkUser 3 "eve" None) Scenario.A
  = false
  /\ ProjectService.can_create_dependencies Scenario.chain
       (mkUser 3 "eve" None) Scenario.A = Ok false.
Proof.
  destruct (user_without_active_membership_is_denied Scenario.chain
              (mkUser 3 "eve" None) Scenario.A)
    as (_ & _ & _ & _ & _ & Hedit & _ & Hdeps).
  - intros m [<-|[<-|[]]] _ Hu; simpl in Hu; discriminate.
  - split; assumption.
Defined.

(** X9: for a member who is the creator of the task,
    [can_create_dependencies] never raises and returns the role's
    [can_create_dependencies] flag, whatever the assignee column holds: the
    [or] stops at the creator test and [task.assignee.id] is not read. *)
Theorem can_create_dependencies_of_creator (st : Store) (user : User)
    (task : Task) (role : ProjectRole) (creator : User) :
  ProjectService.get_user_role_in_project st user (task_project task)
  = Some role ->
  users st !! task_creator task = Some creator ->
  user_id creator = user_id user ->
  ProjectService.can_create_dependencies st user task
  = Ok (can_create_dependencies role).
Proof.
  intros Hrole Hcreator Hsame.
  unfold ProjectService.can_create_dependencies,
    ProjectService.creator_dot_id.
  rewrite Hrole, Hcreator. simpl.
  rewrite (bool_decide_eq_true_2 _ Hsame).
  destruct (can_create_dependencies role), (can_edit_any_task role);
    reflexivity.
Qed.

(** alice created task A, which has no assignee. *)
Lemma can_create_dependencies_of_creator_witness :
  task_assignee Scenario.A = None
  /\ ProjectService.can_create_dependencies Scenario.chain Scenario.alice
       Scenario.A = Ok true.
Proof.
  split; [reflexivity|].
  apply (can_create_dependencies_of_creator Scenario.chain Scenario.alice
           Scenario.A owner_role Scenario.alice); vm_compute; reflexivity.
Defined.

End Permissions.

(** ** How a status change ends *)

Section StatusChangeOutcome.

Import TaskService.

(** X10: [change_task_status] raises in two cases only, and both before
    any write: [PermissionError] when [can_edit_task] refuses the actor
    (tested first), else [ValueError] when no status has the requested
    name; the store is then the one before the call.  Past these two tests
    the call always returns a record (an exception while the completion is
    handled is swallowed), and the record says [status_changed] exactly
    when the ids of the old and the requested status differ. *)
Theorem change_task_status_raises_before_writing (st : Store) (task : Task)
    (name : string) (actor : User) (now : Z) :
  exists r st',
    change_task_status task name actor now st = (r, st')
    /\ (ProjectService.can_edit_task st actor task = false ->
        r = Raise (PermissionError
                     "You don't have permission to change this task status")
        /\ st' = st)
    /\ (ProjectService.can_edit_task st actor task = true ->
        get_status_by_name st name = None ->
        r = Raise (ValueError ("Status '" +:+ name +:+ "' not found"))
        /\ st' = st)
    /\ (ProjectService.can_edit_task st actor task = true ->
        forall requested, get_status_by_name st name = Some requested ->
        exists record,
          r = Ok record
          /\ old_status record = task_status task
          /\ new_status record = requested
          /\ status_changed record
             = negb (bool_decide (status_id (task_status task)
                                  = status_id requested))).
Proof.
  unfold change_task_status, bind, get_store.
  destruct (ProjectService.can_edit_task st actor task); cbn [negb].
  { destruct (get_status_by_name st name) as [requested|].
    - destruct (bool_decide (status_id (task_status task)
                             = status_id requested)) eqn:Hsame.
      + eexists _, _. split; [reflexivity|].
        split; [discriminate|]. split; [discriminate|].
        intros _ x [= <-]. eexists. split; [reflexivity|].
        simpl. rewrite Hsame. repeat split.
      + rewrite Task_save_eq. unfold TaskEvent_log, modify.
        destruct (is_final requested && negb (is_final (task_status task))).
        * unfold try_except, bind.
          match goal with
          | |- context [handle_task_completed ?t ?u ?n ?s] =>
              destruct (handle_task_completed t u n s) as [[acts|e] st2]
          end; unfold ret; eexists _, _; (split; [reflexivity|]);
            (split; [discriminate|]); (split; [discriminate|]);
            intros _ x [= <-]; eexists; (split; [reflexivity|]);
            simpl; rewrite Hsame; repeat split.
        * unfold ret. eexists _, _. split; [reflexivity|].
          split; [discriminate|]. split; [discriminate|].
          intros _ x [= <-]. eexists. split; [reflexivity|].
          simpl. rewrite Hsame. repeat split.
    - eexists _, _. split; [reflexivity|]. split; [discriminate|].
      split; [intros _ _; split; reflexivity|]. intros _ x; discriminate. }
  eexists _, _. split; [reflexivity|].
  split; [intros _; split; reflexivity|].
  split; intros; discriminate.
Qed.

(** X11: the task a status change returns carries the requested status
    and [updated_at = now]; [started_at] and [completed_at] are written
    once: a value already set is kept (also when the task leaves and
    re-enters the status), and an empty one is set to [now] exactly on
    arrival in the status named 'in_progress', respectively 'completed'.
    Id, project, name, assignee, creator and deadline are not touched. *)
Theorem change_task_status_stamps_once (st st' : Store) (task : Task)
    (name : string) (actor : User) (now : Z) (record : StatusChange) :
  change_task_status task name actor now st = (Ok record, st') ->
  status_changed record = true ->
  let saved := sc_task record in
  task_status saved = new_status record
  /\ task_updated_at saved = now
  /\ (forall t, task_started_at task = Some t ->
                task_started_at saved = Some t)
  /\ (forall t, task_completed_at task = Some t ->
                task_completed_at saved = Some t)
  /\ (task_started_at task = None ->
      task_started_at saved
      = if bool_decide (status_name (new_status record) = "in_progress")
        then Some now else None)
  /\ (task_completed_at task = None ->
      task_completed_at saved
      = if bool_decide (status_name (new_status record) = "completed")
        then Some now else None)
  /\ task_id saved = task_id task
  /\ task_project saved = task_project task
  /\ task_name saved = task_name task
  /\ task_assignee saved = task_assignee task
  /\ task_creator saved = task_creator task
  /\ task_deadline saved = task_deadline task.
Proof.
  unfold change_task_status, bind, get_store.
  destruct (ProjectService.can_edit_task st actor task); cbn [negb];
    [|discriminate].
  destruct (get_status_by_name st name) as [requested|]; [|discriminate].
  destruct (bool_decide (status_id (task_status task) = status_id requested)).
  { intros [= <- _]. discriminate. }
  rewrite Task_save_eq. unfold TaskEvent_log, modify.
  assert (Hstamp :
    let saved := stamp now (set_task_status requested task) in
    task_status saved = requested
    /\ task_updated_at saved = now
    /\ (forall t, task_started_at task = Some t ->
                  task_started_at saved = Some t)
    /\ (forall t, task_completed_at task = Some t ->
                  task_completed_at saved = Some t)
    /\ (task_started_at task = None ->
        task_started_at saved
        = if bool_decide (status_name requested = "in_progress")
          then Some now else None)
    /\ (task_completed_at task = None ->
        task_completed_at saved
        = if bool_decide (status_name requested = "completed")
          then Some now else None)
    /\ task_id saved = task_id task
    /\ task_project saved = task_project task
    /\ task_name saved = task_name task
    /\ task_assignee saved = task_assignee task
    /\ task_creator saved = task_creator task
    /\ task_deadline saved = task_deadline task).
  { unfold stamp. simpl.
    destruct (bool_decide (status_name requested = "in_progress")) eqn:Hp;
      destruct (bool_decide (status_name requested = "completed")) eqn:Hc;
      destruct (task_started_at task) as [t1|];
      destruct (task_completed_at task) as [t2|]; simpl;
      repeat split; try congruence; try (intros; discriminate).
    all: apply bool_decide_eq_true in Hp, Hc; rewrite Hp in Hc;
      discriminate. }
  destruct (is_final requested && negb (is_final (task_status task))).
  - unfold try_except, bind.
    match goal with
    | |- context [handle_task_completed ?t ?u ?n ?s] =>
        destruct (handle_task_completed t u n s) as [[acts|e] st2]
    end; unfold ret; intros [= <- _] _; exact Hstamp.
  - unfold ret. intros [= <- _] _. exact Hstamp.
Qed.

(** The owner completes A at time 5. *)
Lemma change_task_status_stamps_once_witness :
  exists record st',
    change_task_status Scenario.A "completed" Scenario.alice 5 Scenario.chain
    = (Ok record, st')
    /\ task_updated_at (sc_task record) = 5
    /\ task_completed_at (sc_task record) = Some 5.
Proof.
  assert (H : exists record st',
    change_task_status Scenario.A "completed" Scenario.alice 5 Scenario.chain
    = (Ok record, st')
    /\ status_changed record = true
    /\ status_name (new_status record) = "completed")
    by (eexists _, _; vm_compute; repeat split).
  destruct H as (record & st' & Hrun & Hchanged & Hname).
  exists record, st'. split; [exact Hrun|].
  destruct (change_task_status_stamps_once _ _ _ _ _ _ _ Hrun Hchanged)
    as (_ & Hupdated & _ & _ & _ & Hcompleted & _).
  split; [exact Hupdated|].
  rewrite (Hcompleted eq_refl), Hname. reflexivity.
Defined.

End StatusChangeOutcome.

(** ** Actions without a handler *)

Section UnhandledActions.

Import TaskService.

(** X12: an action that none of the four branches of
    [execute_single_action] handles is reported as 'executed' although
    nothing is done: for a type code other than the four handled ones (the
    default type 'create_subtask' is one), for 'notify_custom' without a
    target user and for 'change_status' without a target status, the
    record has status 'executed', no error, no target user and no new
    status, and no table of the store changes (only the call is logged). *)
Theorem unhandled_action_is_reported_executed (action : DependencyAction)
    (trigger_event : string) (triggered_by : User) (now : Z) (st : Store) :
  action_type action <> "notify_assignee" ->
  action_type action <> "notify_creator" ->
  (action_type action = "notify_custom" -> action_target_user action = None) ->
  (action_type action = "change_status" ->
   action_target_status action = None) ->
  execute_single_action action trigger_event triggered_by now st
  = (Ok (mkActionResult (action_id action) (action_type action) "executed"
           (Some now) None None None None),
     set_calls (fun l => l ++ [CallExecuteSingleAction (action_id action)])
       st).
Proof.
  intros Hassignee Hcreator Hcustom Hstatus.
  unfold execute_single_action, bind, record_call, modify, try_except,
    dispatch_action.
  rewrite (bool_decide_eq_false_2 _ Hassignee).
  rewrite (bool_decide_eq_false_2 _ Hcreator).
  destruct (bool_decide (action_type action = "notify_custom")) eqn:Hc.
  - apply bool_decide_eq_true in Hc. rewrite (Hcustom Hc). simpl.
    destruct (action_target_status action) as [s|]; [|reflexivity].
    rewrite bool_decide_eq_false_2; [reflexivity|].
    rewrite Hc. discriminate.
  - simpl. destruct (action_target_status action) as [s|] eqn:Hs;
      [|reflexivity].
    destruct (bool_decide (action_type action = "change_status")) eqn:Hk;
      [|reflexivity].
    apply bool_decide_eq_true in Hk. specialize (Hstatus Hk). congruence.
Qed.

(** An action of the default type 'create_subtask'. *)
Lemma unhandled_action_is_reported_executed_witness :
  execute_single_action
    (mkDependencyAction 9 1 "create_subtask" (Some 2) None None 0 0 true)
    "task_completed" Scenario.alice 5 Scenario.chain
  = (Ok (mkActionResult 9 "create_subtask" "executed" (Some 5) None None None
           None),
     set_calls (fun l => l ++ [CallExecuteSingleAction 9]) Scenario.chain).
Proof.
  apply (unhandled_action_is_reported_executed
           (mkDependencyAction 9 1 "create_subtask" (Some 2) None None 0 0
              true) "task_completed" Scenario.alice 5 Scenario.chain);
    simpl; intros H; discriminate H.
Defined.

End UnhandledActions.

(** ** The records and rows of an evaluation *)

Section Evaluation.

Import TaskService.













End Evaluation.

(** ** Rows taken and rows left by a tick *)

Section TickOnce.

Import TaskService.

Lemma dispatch_scheduled_status (s : ScheduledAction) (now : Z) :
  returns (fun done => sched_id done = sched_id s
                       /\ (sched_status done = "completed"
                           \/ sched_status done = sched_status s))
          (dispatch_scheduled s now).
Proof.
  unfold dispatch_scheduled.
  destruct (bool_decide (sched_action_type s = "deadline_approaching")).
  - repeat (apply returns_bind; intros ?).
    apply returns_ret. split; [reflexivity|left; reflexivity].
  - destruct (sched_dependency_action s);
      [destruct (bool_decide _)|];
      repeat (apply returns_bind; intros ?);
      apply returns_ret; (split; [reflexivity|]); auto.
Qed.

Lemma process_one_table (now : Z) (row : ScheduledAction) (st : Store) :
  exists p final st',
    process_one now row st = (Ok p, st')
    /\ sched_id final = sched_id row
    /\ sched_status final <> "pending"
    /\ scheduled st'
       = overwrite final
           (overwrite (set_sched_status "processing" row) (scheduled st)).
Proof.
  unfold process_one. set (s := set_sched_status "processing" row).
  unfold bind at 1. unfold ScheduledAction_save at 1, modify.
  unfold try_except, bind.
  destruct (dispatch_scheduled s now (set_scheduled (overwrite s) st))
    as [[done|e] st1] eqn:Hrun.
  - destruct (dispatch_scheduled_status _ _ _ _ _ Hrun) as (Hid & Hstatus).
    pose proof (dispatch_scheduled_step _ _ _ _ _ Hrun) as Hsched.
    unfold scheduled_kept in Hsched.
    eexists _, (set_executed_at now done), _.
    split; [reflexivity|]. split; [exact Hid|]. split.
    + simpl. destruct Hstatus as [->| ->]; simpl; discriminate.
    + simpl. rewrite Hsched. reflexivity.
  - pose proof (dispatch_scheduled_step _ _ _ _ _ Hrun) as Hsched.
    unfold scheduled_kept in Hsched.
    eexists _, (set_sched_status "failed" s), _.
    split; [reflexivity|]. split; [reflexivity|]. split; [discriminate|].
    simpl. rewrite Hsched. reflexivity.
Qed.

Lemma overwrite_left (row final : ScheduledAction)
    (table : list ScheduledAction) :
  sched_id final = sched_id row -> sched_status final <> "pending" ->
  Forall2 (left_by_tick [row]) table
    (overwrite final (overwrite (set_sched_status "processing" row) table)).
Proof.
  intros Hid Hstatus. induction table as [|x table IH]; simpl;
    constructor; [|exact IH].
  destruct (decide (sched_id x = sched_id row)) as [Heq|Hne].
  - rewrite (bool_decide_eq_true_2 _ Heq). simpl.
    rewrite bool_decide_eq_true_2 by congruence.
    split; [congruence|]. split; [intros _; exact Hstatus|].
    intros Hnot. exfalso. apply Hnot. left. congruence.
  - rewrite (bool_decide_eq_false_2 _ Hne).
    rewrite bool_decide_eq_false_2 by congruence.
    split; [reflexivity|]. split; [|reflexivity].
    intros [Hin|[]]. congruence.
Qed.

Lemma process_rows_table (now : Z) (rows : list ScheduledAction) :
  forall st,
    exists ps st',
      process_rows now rows st = (Ok ps, st')
      /\ length ps = length rows
      /\ Forall2 (left_by_tick rows) (scheduled st) (scheduled st').
Proof.
  induction rows as [|row rest IH]; intros st.
  - exists [], st. split; [reflexivity|]. split; [reflexivity|].
    apply Forall2_same_length_lookup. split; [reflexivity|].
    intros i x y Hx Hy. rewrite Hx in Hy. injection Hy as <-.
    split; [reflexivity|]. split; [intros []|reflexivity].
  - destruct (process_one_table now row st)
      as (p & final & st1 & Hstep & Hid & Hstatus & Htable).
    destruct (IH st1) as (ps & st2 & Hrest & Hlen & Hall).
    exists (p :: ps), st2. split; [|split].
    + simpl. unfold bind at 1. rewrite Hstep.
      unfold bind. rewrite Hrest. reflexivity.
    + simpl. rewrite Hlen. reflexivity.
    + pose proof (overwrite_left row final (scheduled st) Hid Hstatus)
        as Hfirst.
      rewrite <- Htable in Hfirst.
      apply Forall2_same_length_lookup. split.
      { rewrite (Forall2_length _ _ _ Hfirst).
        exact (Forall2_length _ _ _ Hall). }
      intros i x z Hx Hz.
      destruct (Forall2_lookup_l _ _ _ _ _ Hfirst Hx) as (y & Hy & H1 & H2 & H3).
      destruct (Forall2_lookup_l _ _ _ _ _ Hall Hy) as (z' & Hz' & H4 & H5 & H6).
      rewrite Hz in Hz'. injection Hz' as <-.
      split; [congruence|]. split.
      * intros Hin. simpl in Hin.
        destruct (in_dec Z.eq_dec (sched_id y) (sched_id <$> rest)) as [Hr|Hr].
        -- exact (H5 Hr).
        -- rewrite (H6 Hr). apply H2. simpl.
           destruct Hin as [Hin|Hin]; [left; exact Hin|].
           exfalso. apply Hr. rewrite H1. exact Hin.
      * intros Hnot. simpl in Hnot.
        rewrite H6, H3; [reflexivity| |].
        -- simpl. intros [Hin|[]]. apply Hnot. left. exact Hin.
        -- rewrite H1. intros Hin. apply Hnot. right. exact Hin.
Qed.

(** X15: [process_scheduled_actions] never raises and returns one entry
    per row it took.  It adds and removes no row: the table after the tick
    matches the table before it row by row, a row whose id is not among
    the taken ones is exactly as it was, and a row whose id is among them
    is no longer 'pending'.  Hence no later tick takes a row of this tick
    again: rows left 'failed' or 'processing' are never retried. *)
Theorem tick_takes_no_row_twice (st : Store) (now : Z) :
  exists ps st',
    process_scheduled_actions now st = (Ok ps, st')
    /\ length ps = length (due_rows st now)
    /\ Forall2 (left_by_tick (due_rows st now)) (scheduled st) (scheduled st')
    /\ forall later row,
         In row (due_rows st' later) ->
         ~ In (sched_id row) (sched_id <$> due_rows st now).
Proof.
  unfold process_scheduled_actions, bind, get_store.
  destruct (process_rows_table now (due_rows st now) st)
    as (ps & st' & Hrun & Hlen & Hall).
  exists ps, st'. split; [exact Hrun|]. split; [exact Hlen|].
  split; [exact Hall|].
  intros later row Hrow Htaken.
  unfold due_rows in Hrow.
  apply list_elem_of_In, elem_of_take in Hrow as (i & Hi & _).
  apply list_elem_of_lookup_2, list_elem_of_In, filter_In in Hi
    as [Hstored Hdue].
  apply andb_true_iff in Hdue as [_ Hpending].
  apply bool_decide_eq_true in Hpending.
  apply list_elem_of_In, list_elem_of_lookup_1 in Hstored as [j Hj].
  destruct (Forall2_lookup_r _ _ _ _ _ Hall Hj) as (x & Hx & Hid & Htook & _).
  apply Htook; [|exact Hpending]. rewrite <- Hid. exact Htaken.
Qed.

End TickOnce.

(** ** Delivery of deadline reminders *)

Section Reminders.

Import TaskService.

#[local] Instance reminder_step_preorder : PreOrder reminder_step.
Proof.
  split.
  - intros st. split; [reflexivity|]. split; [reflexivity|].
    split; [exists []; rewrite app_nil_r; reflexivity|].
    intros Hk. split; [exact Hk|]. intros k t Ht. exists t.
    split; [exact Ht|]. repeat split.
  - intros a b c (Hu1 & Hp1 & [m1 Ho1] & Ht1) (Hu2 & Hp2 & [m2 Ho2] & Ht2).
    split; [congruence|]. split; [congruence|]. split.
    { exists (m1 ++ m2). rewrite Ho2, Ho1, app_assoc. reflexivity. }
    intros Hk. destruct (Ht1 Hk) as [Hk1 Hc1]. destruct (Ht2 Hk1) as [Hk2 Hc2].
    split; [exact Hk2|]. intros k t Ht.
    destruct (Hc1 k t Ht) as (t1 & Ht1' & Hs1).
    destruct (Hc2 k t1 Ht1') as (t2 & Ht2' & Hs2).
    exists t2. split; [exact Ht2'|].
    destruct Hs1 as (?&?&?&?&?&?), Hs2 as (?&?&?&?&?&?).
    repeat split; congruence.
Qed.

Lemma reminder_step_same (st st' : Store) :
  users st' = users st -> projects st' = projects st ->
  tasks st' = tasks st -> outbox st' = outbox st ->
  reminder_step st st'.
Proof.
  intros Hu Hp Ht Ho. split; [exact Hu|]. split; [exact Hp|].
  split; [exists []; rewrite app_nil_r; exact Ho|].
  unfold well_keyed. rewrite Ht. intros Hk. split; [exact Hk|].
  intros k t Hkt. exists t. split; [exact Hkt|]. repeat split.
Qed.

Lemma same_card_stamp (now : Z) (s : TaskStatus) (t : Task) :
  same_card t (stamp now (set_task_status s t)).
Proof. unfold stamp. repeat case_match; repeat split. Qed.

Lemma reminder_step_save (st : Store) (k now : Z) (s : TaskStatus) (t : Task)
    (f : list Call -> list Call) :
  tasks st !! k = Some t ->
  reminder_step st
    (set_calls f
       (set_tasks (fun m => <[task_id (set_task_status s t)
                              := stamp now (set_task_status s t)]> m) st)).
Proof.
  intros Ht. split; [reflexivity|]. split; [reflexivity|].
  split; [exists []; rewrite app_nil_r; reflexivity|].
  intros Hk. pose proof (Hk k t Ht) as Hid. simpl in *.
  pose proof (same_card_stamp now s t) as Hcard.
  split.
  - intros k' t'. simpl. destruct (decide (task_id t = k')) as [<-|Hne].
    + rewrite lookup_insert_eq. intros [= <-]. apply Hcard.
    + rewrite lookup_insert_ne by exact Hne. apply Hk.
  - intros k' t' Ht'. destruct (decide (task_id t = k')) as [<-|Hne].
    + rewrite lookup_insert_eq. eexists. split; [reflexivity|].
      rewrite Hid in Ht'. rewrite Ht in Ht'. injection Ht' as <-.
      exact Hcard.
    + rewrite lookup_insert_ne by exact Hne. exists t'.
      split; [exact Ht'|]. repeat split.
Qed.

Lemma send_task_notification_reminder_step user ty data :
  respects reminder_step (send_task_notification user ty data).
Proof.
  unfold send_task_notification.
  repeat respects_step.
  apply respects_modify. intros st.
  split; [reflexivity|]. split; [reflexivity|].
  split; [eexists; reflexivity|].
  intros Hk. split; [exact Hk|]. intros k t Ht. exists t.
  split; [exact Ht|]. repeat split.
Qed.

Lemma TaskEvent_log_reminder_step task user ty old new meta :
  respects reminder_step (TaskEvent_log task user ty old new meta).
Proof.
  apply respects_modify. intros st. apply reminder_step_same; reflexivity.
Qed.

(** Reading a task and running on with it. *)
Lemma respects_the_task (R : relation Store) `{!PreOrder R} {A} (k : Z)
    (K : Task -> M A) :
  (forall st t, tasks st !! k = Some t ->
                forall r st', K t st = (r, st') -> R st st') ->
  respects R (bind (the_task k) K).
Proof.
  intros HK st r st'.
  destruct (tasks st !! k) as [t|] eqn:Ht.
  - rewrite (bind_ok _ _ _ _ _ (the_task_ok _ _ _ Ht)). apply (HK st t Ht).
  - unfold bind, the_task, bind, get_store, lift. rewrite Ht. simpl.
    intros [= <- <-]. reflexivity.
Qed.

Lemma execute_single_action_reminder_step action ev user now :
  respects reminder_step (execute_single_action action ev user now).
Proof.
  unfold execute_single_action, record_call.
  apply respects_bind; [typeclasses eauto| |intros _].
  { apply respects_modify. intros st. apply reminder_step_same; reflexivity. }
  apply respects_try; [typeclasses eauto| |intros e; apply respects_ret;
                                            typeclasses eauto].
  unfold dispatch_action.
  destruct (bool_decide (action_type action = "notify_assignee")).
  { unfold the_dependency, the_task, the_user, the_project.
    repeat first [ apply send_task_notification_reminder_step
                 | respects_step ]. }
  destruct (bool_decide (action_type action = "notify_creator")).
  { unfold the_dependency, the_task, the_user, the_project.
    repeat first [ apply send_task_notification_reminder_step
                 | respects_step ]. }
  destruct (bool_decide (action_type action = "notify_custom")
            && bool_decide (action_target_user action <> None)).
  { unfold the_dependency, the_task, the_user, the_project.
    repeat first [ apply send_task_notification_reminder_step
                 | respects_step ]. }
  destruct (action_target_status action) as [target_status|];
    [|apply respects_ret; typeclasses eauto].
  destruct (bool_decide (action_type action = "change_status"));
    [|apply respects_ret; typeclasses eauto].
  apply respects_bind; [typeclasses eauto| |intros dependency].
  { unfold the_dependency. repeat respects_step. }
  apply respects_the_task; [typeclasses eauto|].
  intros st t Ht r st'. unfold bind at 1.
  rewrite Task_save_stored by exact (has_task_lookup _ _ _ Ht).
  match goal with
  | |- ?c ?s = _ -> _ =>
      assert (Hrest : respects reminder_step c);
      [|intros Hrun; transitivity s; [|exact (Hrest _ _ _ Hrun)]]
  end.
  { repeat first [ apply TaskEvent_log_reminder_step | respects_step ]. }
  apply reminder_step_save with (k := dep_target_task dependency).
  exact Ht.
Qed.

Lemma dispatch_scheduled_reminder_step (s : ScheduledAction) (now : Z) :
  respects reminder_step (dispatch_scheduled s now).
Proof.
  unfold dispatch_scheduled, the_task, the_user, the_project, the_action,
    the_dependency.
  repeat first
    [ apply execute_single_action_reminder_step
    | apply send_task_notification_reminder_step
    | respects_step ].
Qed.

Lemma ScheduledAction_save_reminder_step (row : ScheduledAction) :
  respects reminder_step (ScheduledAction_save row).
Proof.
  apply respects_modify. intros st. apply reminder_step_same; reflexivity.
Qed.

Lemma process_one_reminder_step (now : Z) (row : ScheduledAction) :
  respects reminder_step (process_one now row).
Proof.
  unfold process_one.
  repeat first
    [ apply dispatch_scheduled_reminder_step
    | apply ScheduledAction_save_reminder_step
    | respects_step ].
Qed.

Lemma process_rows_reminder_step (now : Z) (rows : list ScheduledAction) :
  respects reminder_step (process_rows now rows).
Proof.
  induction rows as [|row rest IH]; simpl.
  - apply respects_ret. typeclasses eauto.
  - repeat first
      [ apply process_one_reminder_step | exact IH | respects_step ].
Qed.

Lemma process_rows_returns (now : Z) (rows : list ScheduledAction)
    (st : Store) :
  exists ps st', process_rows now rows st = (Ok ps, st').
Proof.
  destruct (process_rows_table now rows st) as (ps & st' & Hrun & _).
  eauto.
Qed.

Lemma process_rows_app (now : Z) (pre post : list ScheduledAction)
    (st : Store) :
  exists ps1 st1 ps2 st2,
    process_rows now pre st = (Ok ps1, st1)
    /\ process_rows now post st1 = (Ok ps2, st2)
    /\ process_rows now (pre ++ post) st = (Ok (ps1 ++ ps2), st2).
Proof.
  revert st. induction pre as [|row pre IH]; intros st; simpl.
  - destruct (process_rows_returns now post st) as (ps2 & st2 & Hpost).
    exists [], st, ps2, st2. repeat split; assumption.
  - destruct (process_one_table now row st) as (p & final & sta & Hone & _).
    destruct (IH sta) as (ps1 & st1 & ps2 & st2 & Hpre & Hpost & Hall).
    exists (p :: ps1), st1, ps2, st2.
    unfold bind at 1 3. rewrite Hone.
    unfold bind. rewrite Hpre, Hall. repeat split. exact Hpost.
Qed.

(** A due reminder whose task has an assignee: what its dispatch does. *)
Lemma process_one_reminder (now : Z) (row : ScheduledAction) (st : Store)
    (o : PayloadObject) (t : Task) (a : Z) (u : User) (p : Project) :
  sched_action_type row = "deadline_approaching" ->
  json_loads (payload row) = Ok o ->
  tasks st !! sched_task row = Some t ->
  task_assignee t = Some a ->
  users st !! a = Some u ->
  projects st !! task_project t = Some p ->
  exists st',
    process_one now row st
    = (Ok (mkProcessed (sched_id row) "deadline_approaching" "completed"
             None), st')
    /\ outbox st'
       = outbox st
         ++ [mkNotification (user_id u) "deadline_approaching"
               (mkTaskData (task_id t) (task_name t) (project_name p) None
                  (task_deadline t) (Some (default 24 (hours_before o))))].
Proof.
  intros Hkind Hpayload Ht Ha Hu Hp.
  unfold process_one, bind, ScheduledAction_save, modify, try_except,
    dispatch_scheduled. simpl.
  rewrite Hkind. rewrite bool_decide_eq_true_2 by reflexivity.
  unfold bind, the_task, the_user, the_project, get_store, lift. simpl.
  rewrite Ht, Hpayload. simpl. rewrite Ha. unfold bind. simpl.
  rewrite Hu. simpl. rewrite Hp. simpl.
  unfold send_task_notification. simpl.
  unfold bind, get_store, modify, ret. simpl.
  eexists. split; reflexivity.
Qed.

(** X16: every due reminder that a tick takes is delivered when its task
    has an assignee: if the row is of type 'deadline_approaching' with a
    readable payload, its task is stored with an assignee and the assignee
    and the project resolve, then the tick reports the row 'completed' and
    the notifier has been called for the assignee with type
    'deadline_approaching', the task's id, name, project name and
    deadline, and [hours_left] equal to the payload's ['hours_before'] (24
    when absent) -- whatever the assignee's notification settings and
    whatever rows the tick handled before it.  The hypotheses are that
    tasks are stored under their ids and the foreign keys resolve. *)
Theorem due_deadline_reminder_is_delivered (st : Store) (now : Z)
    (row : ScheduledAction) (o : PayloadObject) (t : Task) (a : Z) (u : User)
    (p : Project) :
  well_keyed st ->
  In row (due_rows st now) ->
  sched_action_type row = "deadline_approaching" ->
  json_loads (payload row) = Ok o ->
  tasks st !! sched_task row = Some t ->
  task_assignee t = Some a ->
  users st !! a = Some u ->
  projects st !! task_project t = Some p ->
  exists ps st',
    process_scheduled_actions now st = (Ok ps, st')
    /\ In (mkProcessed (sched_id row) "deadline_approaching" "completed" None)
          ps
    /\ In (mkNotification (user_id u) "deadline_approaching"
             (mkTaskData (task_id t) (task_name t) (project_name p) None
                (task_deadline t) (Some (default 24 (hours_before o)))))
          (outbox st').
Proof.
  intros Hkeyed Hrow Hkind Hpayload Ht Ha Hu Hp.
  unfold process_scheduled_actions, bind, get_store.
  apply in_split in Hrow as (pre & post & Hsplit). rewrite Hsplit.
  destruct (process_rows_app now pre (row :: post) st)
    as (ps1 & st1 & ps2 & st2 & Hpre & Hpost & Hall).
  rewrite Hall. exists (ps1 ++ ps2), st2. split; [reflexivity|].
  destruct (process_rows_reminder_step _ _ _ _ _ Hpre)
    as (Husers & Hprojects & _ & Htasks).
  destruct (Htasks Hkeyed) as [_ Hcards].
  destruct (Hcards _ _ Ht) as (t' & Ht' & Hid & Hproject & Hname & Hassignee
                               & _ & Hdeadline).
  destruct (process_one_reminder now row st1 o t' a u p) as (sta & Hone & Hout);
    try assumption; try congruence.
  simpl in Hpost. unfold bind at 1 in Hpost. rewrite Hone in Hpost.
  destruct (process_rows now post sta) as [[ps3|e] st3] eqn:Htail;
    unfold bind in Hpost; rewrite Htail in Hpost; [|discriminate].
  injection Hpost as <- <-.
  destruct (process_rows_reminder_step _ _ _ _ _ Htail)
    as (_ & _ & [more Hmore] & _).
  split.
  - apply in_app_iff. right. left. reflexivity.
  - rewrite Hmore, Hout, Hid, Hname, Hdeadline.
    apply in_app_iff. left. apply in_app_iff. right. left. reflexivity.
Qed.

(** The tick at time 60 over the table holding the reminder for B. *)
Lemma due_deadline_reminder_is_delivered_witness :
  exists ps st',
    process_scheduled_actions 60 Scenario.reminding = (Ok ps, st')
    /\ In (mkProcessed 1 "deadline_approaching" "completed" None) ps
    /\ In (mkNotification 2 "deadline_approaching"
             (mkTaskData 2 "B" "Apollo" None None (Some 24)))
          (outbox st').
Proof.
  apply (due_deadline_reminder_is_delivered Scenario.reminding 60
           Scenario.reminder (mkPayloadObject (Some 24) None None None None)
           Scenario.B 2 Scenario.ivan (mkProject 1 "Apollo")).
  - intros k t Ht.
    unfold Scenario.reminding, Scenario.store, Scenario.table in Ht.
    simpl in Ht.
    repeat (apply lookup_insert_Some in Ht as [[<- <-]|[_ Ht]];
            [reflexivity|]).
    rewrite lookup_empty in Ht. discriminate.
  - vm_compute. auto.
  - reflexivity.
  - reflexivity.
  - vm_compute. reflexivity.
  - reflexivity.
  - vm_compute. reflexivity.
  - vm_compute. reflexivity.
Defined.

End Reminders.

(** ** Scheduling a deadline reminder *)

Section ScheduleReminder.

Import TaskService.

Lemma next_id_above (ids : list Z) (x : Z) : In x ids -> x < next_id ids.
Proof.
  unfold next_id. induction ids as [|y ids IH]; [intros []|].
  simpl. intros [->|Hx]; [lia|]. specialize (IH Hx). lia.
Qed.

Lemma next_id_fresh (ids : list Z) : ~ In (next_id ids) ids.
Proof. intros Hin. apply next_id_above in Hin. lia. Qed.

(** X17: [schedule_deadline_notification] never schedules in the past and
    writes at most one row.  For a task without deadline, or with a naive
    deadline such that [deadline - hours_before] hours is earlier than now,
    it returns [None] and writes nothing.  For a naive deadline that is not
    late it appends one 'pending' 'deadline_approaching' row for the task
    with a fresh id, due at [deadline - hours_before] hours, whose payload
    reads back ['hours_before']; no tick before that time takes the row,
    and every tick from that time on takes it when the table held fewer
    than 100 rows.  It raises in two cases only, and then writes nothing:
    [OverflowError] when the subtraction leaves the range of [timedelta]
    or of [datetime], and otherwise [TypeError] when the deadline is aware,
    because it is compared with the naive [datetime.now()]. *)
Theorem schedule_deadline_notification_is_never_late (task : Task)
    (tzinfo : option Z) (hours_before now : Z) (st : Store) :
  exists r st',
    schedule_deadline_notification task tzinfo hours_before now st = (r, st')
    /\ match r with
       | Raise e =>
           st' = st
           /\ exists deadline,
                task_deadline task = Some deadline
                /\ ((~ notify_time_in_range deadline hours_before
                     /\ exists msg, e = OverflowError msg)
                    \/ (notify_time_in_range deadline hours_before
                        /\ is_Some tzinfo
                        /\ exists msg, e = TypeError msg))
       | Ok None =>
           st' = st
           /\ (task_deadline task = None
               \/ exists deadline,
                    task_deadline task = Some deadline /\ tzinfo = None
                    /\ notify_time_in_range deadline hours_before
                    /\ deadline - hours hours_before < now)
       | Ok (Some row) =>
           exists deadline,
             task_deadline task = Some deadline /\ tzinfo = None
             /\ notify_time_in_range deadline hours_before
             /\ scheduled_for row = deadline - hours hours_before
             /\ now <= scheduled_for row
             /\ sched_action_type row = "deadline_approaching"
             /\ sched_task row = task_id task
             /\ sched_status row = "pending"
             /\ executed_at row = None
             /\ json_loads (payload row)
                = Ok (mkPayloadObject (Some hours_before) None None None None)
             /\ ~ In (sched_id row) (sched_id <$> scheduled st)
             /\ scheduled st' = scheduled st ++ [row]
             /\ (forall tick, tick < scheduled_for row ->
                              ~ In row (due_rows st' tick))
             /\ (forall tick, scheduled_for row <= tick ->
                              (length (scheduled st) < 100)%nat ->
                              In row (due_rows st' tick))
       end.
Proof.
  unfold schedule_deadline_notification.
  destruct (task_deadline task) as [wall|].
  2:{ exists (Ok None), st. split; [reflexivity|]. split; [reflexivity|].
      left. reflexivity. }
  cbv zeta. unfold bind at 1, lift, timedelta_hours.
  destruct ((timedelta_min <=? hours hours_before)
            && (hours hours_before <=? timedelta_max)) eqn:Hdelta.
  2:{ eexists _, st. split; [reflexivity|]. split; [reflexivity|].
      eexists. split; [reflexivity|]. left. split; [|eauto].
      intros [[Hlo Hhi] _].
      apply Z.leb_le in Hlo, Hhi. rewrite Hlo, Hhi in Hdelta. discriminate. }
  apply andb_true_iff in Hdelta as [Hlo Hhi]. apply Z.leb_le in Hlo, Hhi.
  unfold bind at 1, lift, datetime_sub. cbn [wall_clock utcoffset].
  destruct ((0 <=? wall - hours hours_before)
            && (wall - hours hours_before <=? datetime_max)) eqn:Hdate.
  2:{ eexists _, st. split; [reflexivity|]. split; [reflexivity|].
      eexists. split; [reflexivity|]. left. split; [|eauto].
      intros [_ [Hmin Hmax]].
      apply Z.leb_le in Hmin, Hmax. rewrite Hmin, Hmax in Hdate.
      discriminate. }
  apply andb_true_iff in Hdate as [Hmin Hmax]. apply Z.leb_le in Hmin, Hmax.
  assert (Hrange : notify_time_in_range wall hours_before)
    by (split; split; assumption).
  unfold bind at 1, lift, datetime_lt. cbn [wall_clock utcoffset].
  destruct tzinfo as [offset|].
  { eexists _, st. split; [reflexivity|]. split; [reflexivity|].
    eexists. split; [reflexivity|]. right. split; [exact Hrange|].
    split; eauto. }
  destruct (wall - hours hours_before <? now) eqn:Hlate.
  { apply Z.ltb_lt in Hlate. exists (Ok None), st. split; [reflexivity|].
    split; [reflexivity|]. right. eexists. split; [reflexivity|].
    split; [reflexivity|]. split; [exact Hrange|exact Hlate]. }
  apply Z.ltb_ge in Hlate.
  unfold bind, get_store, modify, ret.
  set (row := mkScheduledAction _ _ _ _ _ _ _ _ _).
  exists (Ok (Some row)), (set_scheduled (fun l => l ++ [row]) st).
  split; [reflexivity|]. eexists. split; [reflexivity|].
  split; [reflexivity|]. split; [exact Hrange|].
  repeat split; try reflexivity.
  - exact Hlate.
  - apply next_id_fresh.
  - intros tick Hearly Hin. unfold due_rows in Hin.
    apply list_elem_of_In, elem_of_take in Hin as (i & Hi & _).
    apply list_elem_of_lookup_2, list_elem_of_In, filter_In in Hi as [_ Hi].
    apply andb_true_iff in Hi as [Hdue _]. apply Z.leb_le in Hdue.
    simpl in Hdue, Hearly. lia.
  - intros tick Hdue Hsmall. unfold due_rows. simpl.
    rewrite take_ge.
    + apply filter_In. split; [apply in_app_iff; right; now left|].
      simpl. apply andb_true_iff. split; [apply Z.leb_le, Hdue|].
      reflexivity.
    + pose proof (sublist_length _ _
                    (filter_sublist
                       (fun r => (scheduled_for r <=? tick)
                                 && bool_decide (sched_status r = "pending"))
                       (scheduled st ++ [row]))) as Hlen.
      rewrite length_app in Hlen. simpl in Hlen. lia.
Qed.

(** A deadline in 2026 that carries a time zone, as a client that sends one
    supplies it: the reminder of 24 hours is refused with [TypeError],
    while the same deadline without time zone is scheduled. *)
Example aware_deadline_raises_type_error :
  let task := mkTask 2 1 "B" todo_status (Some 2) 1 0 None None
                (Some 63900000000000000) in
  (exists msg,
     schedule_deadline_notification task (Some 0) 24 63800000000000000
       Scenario.chain
     = (Raise (TypeError msg), Scenario.chain))
  /\ (exists row st',
        schedule_deadline_notification task None 24 63800000000000000
          Scenario.chain
        = (Ok (Some row), st')
        /\ scheduled st' = [row]
        /\ scheduled_for row = 63900000000000000 - hours 24).
Proof.
  split; [eexists; reflexivity|]. eexists _, _. vm_compute. repeat split.
Qed.

End ScheduleReminder.

(** ** What a new dependency triggers and keeps *)

Section NewDependency.

Import TaskService.

Lemma filter_nil_of {A} (f : A -> bool) (l : list A) :
  (forall x, In x l -> f x = false) -> List.filter f l = [].
Proof.
  induction l as [|x l IH]; intros Hf; simpl; [reflexivity|].
  rewrite (Hf x (or_introl eq_refl)). apply IH.
  intros y Hy. apply Hf. right. exact Hy.
Qed.

Lemma existsb_false_In {A} (f : A -> bool) (l : list A) (x : A) :
  existsb f l = false -> In x l -> f x = false.
Proof.
  induction l as [|y l IH]; simpl; [intros _ []|].
  intros H [->|Hx]; apply orb_false_iff in H as [Hy Hl]; auto.
Qed.

(** The two ways a call of [create_dependency] ends, with the row it
    stores. *)
Lemma create_dependency_outcome (depth : nat) (st : Store)
    (source target : Task) (actor : User) (dependency_type : string)
    (description : option string) (now : Z) :
  exists r st',
    create_dependency depth source target actor dependency_type description
      now st = (r, st')
    /\ ((st' = st /\ exists e, r = Raise e)
        \/ exists dep,
             dep = mkTaskDependency (next_id (dep_id <$> dependencies st))
                     (task_project source) (task_id source) (task_id target)
                     dependency_type description (user_id actor)
             /\ (forall d, In d (dependencies st) ->
                           ~ (dep_source_task d = task_id source
                              /\ dep_target_task d = task_id target))
             /\ dependencies st' = dependencies st ++ [dep]
             /\ (actions_resolve st ->
                 r = Ok dep /\ tasks st' = tasks st
                 /\ outbox st' = outbox st /\ scheduled st' = scheduled st
                 /\ events st'
                    = events st
                      ++ [mkTaskEvent (task_project source) (task_id source)
                            (user_id actor) "dependency_added" None None
                            (Some (MetaDependency (dep_id dep)
                                     (task_id target) (task_name target)))])).
Proof.
  unfold create_dependency. rewrite (bind_ok _ _ st st st) by reflexivity.
  unfold bind at 1, lift.
  destruct (ProjectService.can_create_dependencies st actor source)
    as [[|]|e]; simpl.
  2,3: eexists _, st; split; [reflexivity|]; left; split; [reflexivity|];
       eexists; reflexivity.
  destruct (bool_decide (task_project source = task_project target)); simpl.
  2:{ eexists _, st. split; [reflexivity|]. left. split; [reflexivity|].
      eexists. reflexivity. }
  unfold bind at 1, lift.
  destruct (would_create_cycle depth st source target) as [[|]|e].
  1,3: eexists _, st; split; [reflexivity|]; left; split; [reflexivity|];
       eexists; reflexivity.
  destruct (List.find _ (dependencies st)).
  { eexists _, st. split; [reflexivity|]. left. split; [reflexivity|].
    eexists. reflexivity. }
  destruct (existsb _ (dependencies st)) eqn:Hpair.
  { eexists _, st. split; [reflexivity|]. left. split; [reflexivity|].
    eexists. reflexivity. }
  set (dep := mkTaskDependency _ _ _ _ _ _ _).
  unfold bind at 1, modify.
  set (st1 := set_dependencies _ st).
  match goal with
  | |- exists r st', ?c st1 = _ /\ _ =>
      destruct (c st1) as [r st'] eqn:Hrun;
      assert (Hstep : respects evaluation_step c)
  end.
  { unfold TaskEvent_log.
    repeat first [ apply execute_dependency_actions_step | respects_step ].
    apply respects_modify. intros x. repeat split; try reflexivity. tauto. }
  exists r, st'. split; [reflexivity|]. right. exists dep.
  split; [reflexivity|]. split; [|split].
  - intros d Hd [Hs Ht].
    pose proof (existsb_false_In _ _ _ Hpair Hd) as Hno. simpl in Hno.
    rewrite !bool_decide_eq_true_2 in Hno by assumption. discriminate.
  - destruct (Hstep _ _ _ Hrun) as (_&_&_&_&Hdeps&_). rewrite Hdeps.
    reflexivity.
  - intros Hfk. revert Hrun.
    unfold bind at 1, TaskEvent_log, modify.
    destruct (is_final (task_status source)).
    + unfold execute_dependency_actions, bind, record_call, modify,
        get_store.
      unfold active_actions. simpl.
      rewrite filter_nil_of.
      * simpl. unfold ret. intros [= <- <-]. repeat split.
      * intros a Ha. apply andb_false_iff. left.
        apply bool_decide_eq_false. intros Heq.
        apply (next_id_fresh (dep_id <$> dependencies st)).
        rewrite <- Heq. apply Hfk, Ha.
    + unfold bind, ret. intros [= <- <-]. repeat split.
Qed.

(** X18: when every action refers to a stored dependency,
    [create_dependency] triggers nothing: the new row has a fresh id, so
    no action belongs to it, and the immediate evaluation for an already
    final source executes no action.  Whatever the call does, tasks,
    outbox and scheduled rows are unchanged, and a call that raises has
    written nothing. *)
Theorem create_dependency_triggers_no_action (depth : nat) (st : Store)
    (source target : Task) (actor : User) (dependency_type : string)
    (description : option string) (now : Z) :
  actions_resolve st ->
  exists r st',
    create_dependency depth source target actor dependency_type description
      now st = (r, st')
    /\ tasks st' = tasks st
    /\ outbox st' = outbox st
    /\ scheduled st' = scheduled st
    /\ (forall e, r = Raise e -> st' = st).
Proof.
  intros Hfk.
  destruct (create_dependency_outcome depth st source target actor
              dependency_type description now) as (r & st' & Hrun & Hcases).
  exists r, st'. split; [exact Hrun|].
  destruct Hcases as [[-> _]|(dep & _ & _ & _ & Hquiet)].
  - repeat split.
  - destruct (Hquiet Hfk) as (-> & Ht & Ho & Hs & _).
    repeat split; try assumption. intros e He. discriminate.
Qed.

(** A is completed and A -> B carries an action.  The owner adds A -> C:
    the new row is evaluated at once, as the call log shows, and the action
    of A -> B is not taken for it: nothing is sent. *)
Lemma create_dependency_triggers_no_action_witness :
  is_final (task_status Scenario.A_done) = true
  /\ actions Scenario.notified = [Scenario.notify_ready]
  /\ exists dep st',
       create_dependency 900 Scenario.A_done Scenario.C Scenario.alice
         "simple" None 5 Scenario.notified = (Ok dep, st')
       /\ calls st' = [CallExecuteDependencyActions (dep_id dep)]
       /\ tasks st' = tasks Scenario.notified
       /\ outbox st' = outbox Scenario.notified
       /\ scheduled st' = scheduled Scenario.notified.
Proof.
  split; [reflexivity|]. split; [reflexivity|].
  assert (Hrun : exists dep st',
    create_dependency 900 Scenario.A_done Scenario.C Scenario.alice
      "simple" None 5 Scenario.notified = (Ok dep, st')
    /\ calls st' = [CallExecuteDependencyActions (dep_id dep)])
    by (eexists _, _; vm_compute; split; reflexivity).
  destruct Hrun as (dep & st' & Hrun & Hcalls).
  exists dep, st'. split; [exact Hrun|]. split; [exact Hcalls|].
  destruct (create_dependency_triggers_no_action 900 Scenario.notified
              Scenario.A_done Scenario.C Scenario.alice "simple" None 5)
    as (r & st'' & Hrun' & Htasks & Houtbox & Hscheduled & _).
  - intros a [<-|[]]. simpl. tauto.
  - rewrite Hrun in Hrun'. injection Hrun' as _ <-.
    repeat split; assumption.
Defined.

(** X19: [create_dependency] keeps the keys of the dependency table: if
    the ids are pairwise distinct and so are the (source, target) pairs,
    they still are after the call, whether it returned or raised. *)
Theorem create_dependency_keeps_keys_unique (depth : nat) (st st' : Store)
    (source target : Task) (actor : User) (dependency_type : string)
    (description : option string) (now : Z) (r : Res TaskDependency) :
  NoDup (dep_id <$> dependencies st) ->
  NoDup ((fun d => (dep_source_task d, dep_target_task d))
           <$> dependencies st) ->
  create_dependency depth source target actor dependency_type description
    now st = (r, st') ->
  NoDup (dep_id <$> dependencies st')
  /\ NoDup ((fun d => (dep_source_task d, dep_target_task d))
              <$> dependencies st').
Proof.
  intros Hids Hpairs Hcall.
  destruct (create_dependency_outcome depth st source target actor
              dependency_type description now) as (r0 & st0 & Hrun & Hcases).
  rewrite Hcall in Hrun. injection Hrun as <- <-.
  destruct Hcases as [[-> _]|(dep & Hdep & Hfresh & Hdeps & _)];
    [split; assumption|].
  rewrite Hdeps, !fmap_app. simpl. split.
  - apply NoDup_app. split; [exact Hids|]. split; [|apply NoDup_singleton].
    intros x Hx Hsame. apply list_elem_of_singleton in Hsame. subst x.
    apply (next_id_fresh (dep_id <$> dependencies st)).
    rewrite Hdep in Hx. simpl in Hx. apply list_elem_of_In, Hx.
  - apply NoDup_app. split; [exact Hpairs|]. split; [|apply NoDup_singleton].
    intros x Hx Hsame. apply list_elem_of_singleton in Hsame. subst x.
    apply list_elem_of_fmap in Hx as (d & Heq & Hd).
    apply (Hfresh d); [apply list_elem_of_In, Hd|].
    rewrite Hdep in Heq. simpl in Heq. injection Heq as Hs Ht.
    split; congruence.
Qed.

(** The owner adds A -> C to the chain. *)
Lemma create_dependency_keeps_keys_unique_witness :
  exists r st',
    create_dependency 900 Scenario.A Scenario.C Scenario.alice "simple" None 5
      Scenario.chain = (r, st')
    /\ NoDup (dep_id <$> dependencies st')
    /\ NoDup ((fun d => (dep_source_task d, dep_target_task d))
                <$> dependencies st').
Proof.
  destruct (create_dependency 900 Scenario.A Scenario.C Scenario.alice
              "simple" None 5 Scenario.chain) as [r st'] eqn:Hrun.
  exists r, st'. split; [reflexivity|].
  apply (create_dependency_keeps_keys_unique 900 Scenario.chain st'
           Scenario.A Scenario.C Scenario.alice "simple" None 5 r).
  - apply (bool_decide_unpack _). vm_compute. exact I.
  - apply (bool_decide_unpack _). vm_compute. exact I.
  - exact Hrun.
Defined.

End NewDependency.

(** ** Status changes without actions *)

Section QuietCompletion.

Import TaskService.

Lemma same_tables_refl (st : Store) : same_tables st st.
Proof. repeat split. Qed.

Lemma same_tables_trans (a b c : Store) :
  same_tables a b -> same_tables b c -> same_tables a c.
Proof.
  intros (?&?&?&?&?&?&?&?&?&?) (?&?&?&?&?&?&?&?&?&?).
  repeat split; congruence.
Qed.

Lemma same_tables_resolve (st st' : Store) :
  same_tables st st' -> dependencies_resolve st -> dependencies_resolve st'.
Proof.
  intros (_&_&_&_&Ht&Hd&_) Hres d Hin. unfold dependencies_resolve in Hres.
  rewrite Hd in Hin. rewrite Ht. apply Hres, Hin.
Qed.

Lemma active_actions_same (st st' : Store) (d : TaskDependency) :
  actions st' = actions st -> active_actions st' d = active_actions st d.
Proof. intros H. unfold active_actions. rewrite H. reflexivity. Qed.

Lemma execute_dependency_actions_none dep ev user now (st : Store) :
  active_actions st dep = [] ->
  execute_dependency_actions dep ev user now st
  = (Ok [], set_calls (fun l => l ++ [CallExecuteDependencyActions
                                         (dep_id dep)]) st).
Proof.
  intros Hnone.
  unfold execute_dependency_actions, bind, record_call, modify, get_store.
  rewrite (active_actions_same st) by reflexivity.
  rewrite Hnone. reflexivity.
Qed.

Lemma complete_edges_quiet user now (edges : list TaskDependency) :
  forall st,
    dependencies_resolve st ->
    (forall d, In d edges ->
               In d (dependencies st) /\ active_actions st d = []) ->
    exists st',
      complete_edges user now edges st = (Ok [], st')
      /\ same_tables st st'.
Proof.
  induction edges as [|dep rest IH]; intros st Hres Hquiet; simpl.
  - exists st. split; [reflexivity|apply same_tables_refl].
  - destruct (Hquiet dep (or_introl eq_refl)) as [Hdep Hnone].
    rewrite (bind_ok _ _ _ _ _
               (execute_dependency_actions_none dep _ user now st Hnone)).
    set (st1 := set_calls _ st).
    assert (Hsame : same_tables st st1) by (repeat split).
    pose proof (same_tables_resolve _ _ Hsame Hres) as Hres1.
    destruct (proj2 (Hres dep Hdep)) as [target Htarget].
    rewrite (bind_ok _ _ st1 st1 target)
      by (apply the_task_ok; exact Htarget).
    unfold bind at 1, get_store. unfold bind at 1, lift.
    destruct (check_task_readiness_returns st1 target Hres1) as [b ->].
    destruct (IH st1 Hres1) as (st2 & Hrun & Hsame2).
    { intros d Hd. destruct (Hquiet d (or_intror Hd)) as [Hin Hno].
      split; [exact Hin|]. rewrite <- Hno. apply active_actions_same.
      reflexivity. }
    unfold bind. rewrite Hrun. exists st2. split; [reflexivity|].
    exact (same_tables_trans _ _ _ Hsame Hsame2).
Qed.

(** X20: a status change on a stored task whose outgoing dependencies
    carry no active action touches that task only: the stored task is the
    returned one, one 'status_changed' event is logged, no action is
    reported, and the other tasks, the dependencies, the scheduled rows and
    the outbox are unchanged -- also when the task becomes final and a
    target task becomes ready: the readiness that [handle_task_completed]
    computes is not used, nobody is notified.  The hypotheses are that the
    row of the task is stored (the save is an UPDATE, which writes nothing
    for a deleted row) and referential integrity of the dependency
    table. *)
Theorem status_change_without_actions_touches_one_task (st st' : Store)
    (task : Task) (name : string) (actor : User) (now : Z)
    (record : StatusChange) :
  has_task (tasks st) (task_id task) ->
  dependencies_resolve st ->
  (forall d, In d (outgoing st task) -> active_actions st d = []) ->
  change_task_status task name actor now st = (Ok record, st') ->
  status_changed record = true ->
  tasks st' = <[task_id task := sc_task record]> (tasks st)
  /\ actions_executed record = []
  /\ outbox st' = outbox st
  /\ scheduled st' = scheduled st
  /\ dependencies st' = dependencies st
  /\ events st'
     = events st
       ++ [mkTaskEvent (task_project task) (task_id task) (user_id actor)
             "status_changed"
             (str_if_truthy (Some (status_name (old_status record))))
             (str_if_truthy (Some (status_name (new_status record))))
             None].
Proof.
  intros Hstored Hres Hquiet.
  unfold change_task_status, bind at 1, get_store.
  destruct (ProjectService.can_edit_task st actor task); cbn [negb];
    [|discriminate].
  destruct (get_status_by_name st name) as [requested|]; [|discriminate].
  destruct (bool_decide (status_id (task_status task) = status_id requested)).
  { intros [= <- _]. discriminate. }
  unfold bind at 1. rewrite Task_save_stored by exact Hstored.
  unfold bind at 1, TaskEvent_log, modify.
  set (saved := stamp now (set_task_status requested task)).
  set (st1 := set_events _ _).
  assert (Hid : task_id saved = task_id task)
    by (subst saved; rewrite stamp_id; reflexivity).
  assert (Hproject : task_project saved = task_project task)
    by (subst saved; rewrite stamp_project; reflexivity).
  assert (Hfirst :
    tasks st1 = <[task_id task := saved]> (tasks st)
    /\ outbox st1 = outbox st /\ scheduled st1 = scheduled st
    /\ dependencies st1 = dependencies st
    /\ actions st1 = actions st
    /\ events st1
       = events st
         ++ [mkTaskEvent (task_project task) (task_id task) (user_id actor)
               "status_changed"
               (str_if_truthy (Some (status_name (task_status task))))
               (str_if_truthy (Some (status_name requested)))
               None]).
  { subst st1. simpl. rewrite Hid, Hproject. repeat split. }
  destruct Hfirst as (Ht1 & Ho1 & Hs1 & Hd1 & Ha1 & He1).
  destruct (is_final requested && negb (is_final (task_status task))).
  2:{ unfold ret. intros [= <- <-] _. simpl. repeat split; assumption. }
  unfold try_except, bind at 1, handle_task_completed, bind at 1, get_store.
  destruct (complete_edges_quiet actor now (outgoing st1 saved) st1)
    as (st2 & Hrun & Hsame).
  { intros d Hd. rewrite Hd1 in Hd.
    destruct (Hres d Hd) as [Hsrc Htgt]. rewrite Ht1. split.
    - destruct (decide (task_id task = dep_source_task d)) as [<-|Hne].
      + rewrite lookup_insert_eq. eauto.
      + rewrite lookup_insert_ne by exact Hne. exact Hsrc.
    - destruct (decide (task_id task = dep_target_task d)) as [<-|Hne].
      + rewrite lookup_insert_eq. eauto.
      + rewrite lookup_insert_ne by exact Hne. exact Htgt. }
  { intros d Hd.
    assert (Hout : In d (outgoing st task)).
    { apply outgoing_row. apply outgoing_row in Hd as (Hin & Hp & Hs).
      rewrite Hd1 in Hin. rewrite Hproject in Hp. rewrite Hid in Hs.
      tauto. }
    split.
    - rewrite Hd1. apply outgoing_row in Hout. tauto.
    - rewrite <- (Hquiet d Hout). apply active_actions_same, Ha1. }
  rewrite Hrun. unfold ret.
  destruct Hsame as (_&_&_&_&Ht2&Hd2&_&He2&Hs2&Ho2).
  intros [= <- <-] _. simpl.
  rewrite Ht2, Ho2, Hs2, Hd2, He2. repeat split; assumption.
Qed.

(** The owner completes A in the chain, which carries no action: the row
    of A is rewritten, B becomes ready and nobody is notified. *)
Lemma status_change_without_actions_touches_one_task_witness :
  exists record st',
    change_task_status Scenario.A "completed" Scenario.alice 5 Scenario.chain
    = (Ok record, st')
    /\ tasks st' = <[1 := sc_task record]> (tasks Scenario.chain)
    /\ actions_executed record = []
    /\ outbox st' = outbox Scenario.chain.
Proof.
  assert (H : exists record st',
    change_task_status Scenario.A "completed" Scenario.alice 5 Scenario.chain
    = (Ok record, st')
    /\ status_changed record = true)
    by (eexists _, _; vm_compute; repeat split).
  destruct H as (record & st' & Hrun & Hchanged).
  exists record, st'. split; [exact Hrun|].
  destruct (status_change_without_actions_touches_one_task Scenario.chain st'
              Scenario.A "completed" Scenario.alice 5 record)
    as (Htasks & Hnone & Houtbox & _); try assumption.
  - exists 1, Scenario.A. split; reflexivity.
  - intros d [<-|[<-|[]]]; split; eexists; vm_compute; reflexivity.
  - intros d _. reflexivity.
  - repeat split; assumption.
Defined.

End QuietCompletion.

(** ** Adding actions to a dependency *)

Section DependencyActions.

Import TaskService.





End DependencyActions.

(** ** The answer of the cycle check *)

Section CycleAnswer.

(** X23: every answer of [would_create_cycle] is right: it is true exactly
    when the source task can be reached from the target task along the
    dependency rows of the source's project.  The call answers whenever
    the interpreter leaves its [dfs] more nested calls than there are
    dependency rows, and always when source and target are the same task.
    Otherwise the recursion can use up that depth: the call then raises
    [RecursionError], and it raises nothing else. *)
Theorem would_create_cycle_answers_reachability (depth : nat) (st : Store)
    (source target : Task) :
  (exists b,
     TaskService.would_create_cycle depth st source target = Ok b
     /\ (b = true <->
         reaches st (task_project source) (task_id target) (task_id source)))
  \/ (TaskService.would_create_cycle depth st source target
      = Raise RecursionError
      /\ (depth <= length (dependencies st))%nat
      /\ task_id target <> task_id source).
Proof. exact (would_create_cycle_cases st source depth target). Qed.

(** On the chain of 1001 rows the search for task 1002 from task 1 raises
    when it is left 1000 nested calls, and answers when it is left 1001. *)
Example would_create_cycle_on_long_chain :
  TaskService.would_create_cycle 1000 (Scenario.long_chain 1001)
    (Scenario.link 1002) (Scenario.link 1) = Raise RecursionError
  /\ TaskService.would_create_cycle 1001 (Scenario.long_chain 1001)
       (Scenario.link 1002) (Scenario.link 1) = Ok true.
Proof. split; vm_compute; reflexivity. Qed.

End CycleAnswer.

(** ** The topological order of the edge store *)

Section Release.

Import Graph.

Lemma release_spec (entries : list (Z * Z * Z)) :
  forall (indegree : gmap Z Z) (q : list Z),
    (forall u, In u (targets_of entries) ->
       exists d, indegree !! u = Some d
                 /\ Z.of_nat (count_occ Z.eq_dec (targets_of entries) u) <= d) ->
    exists indegree' added,
      release entries indegree q = Returned (indegree', q ++ added)
      /\ (forall u, indegree' !! u
                    = (fun d => d - Z.of_nat (count_occ Z.eq_dec
                                                (targets_of entries) u))
                        <$> indegree !! u)
      /\ NoDup added
      /\ (forall u, In u added <->
                    In u (targets_of entries)
                    /\ indegree !! u
                       = Some (Z.of_nat (count_occ Z.eq_dec
                                           (targets_of entries) u))).
Proof.
  induction entries as [|[[u0 i0] w0] rest IH]; intros indegree q Hcount.
  - exists indegree, []. simpl. rewrite app_nil_r.
    split; [reflexivity|]. split.
    + intros u. destruct (indegree !! u); simpl; [|reflexivity].
      f_equal. lia.
    + split; [constructor|]. intros u. split; [intros []|intros [[] _]].
  - simpl in *.
    destruct (Hcount u0 (or_introl eq_refl)) as (d0 & Hd0 & Hle0).
    rewrite Hd0.
    destruct (Z.eq_dec u0 u0) as [_|Hne]; [|contradiction].
    destruct (IH (<[u0 := d0 - 1]> indegree)
                 (if d0 - 1 =? 0 then q ++ [u0] else q))
      as (indegree' & added & Hrun & Hmap & Hnd & Hadded).
    { intros u Hu. destruct (Hcount u (or_intror Hu)) as (d & Hd & Hle).
      destruct (Z.eq_dec u0 u) as [->|Hne].
      - rewrite lookup_insert_eq. exists (d0 - 1). split; [reflexivity|].
        rewrite Hd0 in Hd. injection Hd as <-. lia.
      - rewrite lookup_insert_ne by exact Hne. exists d. split; [exact Hd|].
        exact Hle. }
    rewrite Hrun.
    exists indegree', ((if d0 - 1 =? 0 then [u0] else []) ++ added).
    split.
    { destruct (d0 - 1 =? 0); rewrite <- ?app_assoc; reflexivity. }
    split.
    { intros u. rewrite Hmap. destruct (Z.eq_dec u0 u) as [->|Hne].
      - rewrite lookup_insert_eq, Hd0. simpl. f_equal. lia.
      - rewrite lookup_insert_ne by exact Hne.
        destruct (indegree !! u); reflexivity. }
    assert (Hzero : d0 - 1 = 0 -> ~ In u0 (targets_of rest)).
    { intros Hz Hin. apply (count_occ_In Z.eq_dec) in Hin. lia. }
    split.
    { destruct (d0 - 1 =? 0) eqn:Hz; [|exact Hnd]. apply Z.eqb_eq in Hz.
      simpl. apply NoDup_cons. split; [|exact Hnd].
      intros Hin. apply list_elem_of_In, Hadded in Hin as [Hin _].
      exact (Hzero Hz Hin). }
    intros u. rewrite in_app_iff, Hadded.
    destruct (Z.eq_dec u0 u) as [->|Hne].
    + rewrite lookup_insert_eq, Hd0. split.
      * intros [Hhead|[Hin Heq]].
        -- destruct (d0 - 1 =? 0) eqn:Hz; [|destruct Hhead].
           apply Z.eqb_eq in Hz. split; [now left|]. f_equal.
           pose proof (Hzero Hz) as Hnot.
           apply (count_occ_not_In Z.eq_dec) in Hnot. lia.
        -- split; [now left|]. injection Heq as Heq. f_equal. lia.
      * intros [_ Heq]. injection Heq as Heq.
        destruct (in_dec Z.eq_dec u (targets_of rest)) as [Hin|Hnot].
        -- right. split; [exact Hin|]. f_equal. lia.
        -- left. apply (count_occ_not_In Z.eq_dec) in Hnot.
           replace (d0 - 1 =? 0) with true by (symmetry; apply Z.eqb_eq; lia).
           now left.
    + rewrite lookup_insert_ne by exact Hne. split.
      * intros [Hhead|[Hin Heq]].
        -- destruct (d0 - 1 =? 0); [|destruct Hhead].
           destruct Hhead as [->|[]]. contradiction.
        -- split; [now right|exact Heq].
      * intros [[Heq|Hin] Hval]; [contradiction|]. right. split; assumption.
Qed.

End Release.

Lemma count_snd_filter (E : list (Z * Z)) (s t : Z) :
  count_occ Z.eq_dec
    (snd <$> List.filter (fun e : Z * Z => bool_decide (e.1 = s)) E) t
  = length (List.filter (fun e : Z * Z => bool_decide (e.1 = s)
                                          && bool_decide (e.2 = t)) E).
Proof.
  induction E as [|[a b] l IH]; [reflexivity|].
  cbn [List.filter fst snd].
  destruct (bool_decide (a = s)); cbn [andb]; [|exact IH].
  rewrite fmap_cons. cbn [snd count_occ].
  destruct (Z.eq_dec b t) as [->|Hne].
  - rewrite bool_decide_eq_true_2 by reflexivity. cbn [length]. rewrite IH.
    reflexivity.
  - rewrite bool_decide_eq_false_2 by exact Hne. exact IH.
Qed.

Section Kahn.

Import Graph.

Variables (out_edges : Adjacency) (V : gset Z) (E : list (Z * Z)).

Hypothesis Hout :
  forall s, targets_of (default [] (out_edges !! s))
            = snd <$> List.filter (fun e : Z * Z => bool_decide (e.1 = s)) E.
Hypothesis HV : forall e, In e E -> e.1 ∈ V /\ e.2 ∈ V.

Lemma count_targets (s t : Z) :
  count_occ Z.eq_dec (targets_of (default [] (out_edges !! s))) t
  = parallel E s t.
Proof. rewrite Hout. apply count_snd_filter. Qed.

Lemma pending_snoc (order : list Z) (v u : Z) :
  ~ In v order ->
  pending E order u = (pending E (order ++ [v]) u + parallel E v u)%nat.
Proof.
  intros Hfresh. unfold pending, parallel. clear Hout HV.
  induction E as [|[a b] l IH]; simpl; [reflexivity|].
  destruct (bool_decide (b = u)) eqn:Hb; simpl.
  2:{ rewrite andb_false_r. exact IH. }
  rewrite andb_true_r.
  destruct (decide (a = v)) as [->|Hne].
  - rewrite (bool_decide_eq_true_2 (v = v)) by reflexivity.
    rewrite (bool_decide_eq_false_2 (v ∈ order))
      by (intros Hin; apply Hfresh, list_elem_of_In, Hin).
    rewrite (bool_decide_eq_true_2 (v ∈ order ++ [v]))
      by (apply elem_of_app; right; apply list_elem_of_singleton;
          reflexivity).
    simpl. rewrite IH. lia.
  - rewrite (bool_decide_eq_false_2 (a = v)) by exact Hne.
    destruct (decide (a ∈ order)) as [Hin|Hout'].
    + rewrite (bool_decide_eq_true_2 _ Hin).
      rewrite (bool_decide_eq_true_2 (a ∈ order ++ [v]))
        by (apply elem_of_app; left; exact Hin).
      simpl. exact IH.
    + rewrite (bool_decide_eq_false_2 _ Hout').
      rewrite (bool_decide_eq_false_2 (a ∈ order ++ [v])).
      * simpl. rewrite IH. reflexivity.
      * intros Hin. apply elem_of_app in Hin as [Hin|Hin];
          [contradiction|].
        apply list_elem_of_singleton in Hin. contradiction.
Qed.

Lemma pending_zero (order : list Z) (u : Z) :
  pending E order u = 0%nat <->
  forall s, In (s, u) E -> In s order.
Proof.
  unfold pending. clear Hout HV.
  induction E as [|[a b] l IH]; simpl.
  - split; [intros _ s []|reflexivity].
  - destruct (bool_decide (b = u)) eqn:Hb; simpl.
    + apply bool_decide_eq_true in Hb. subst b.
      destruct (decide (a ∈ order)) as [Hin|Hnot].
      * rewrite (bool_decide_eq_true_2 _ Hin). simpl. rewrite IH. split.
        -- intros H s [[= <-]|Hs]; [apply list_elem_of_In, Hin|apply H, Hs].
        -- intros H s Hs. apply H. right. exact Hs.
      * rewrite (bool_decide_eq_false_2 _ Hnot). simpl. split;
          [discriminate|].
        intros H. exfalso. apply Hnot, list_elem_of_In, H. now left.
    + apply bool_decide_eq_false in Hb. rewrite IH. split.
      * intros H s [[= <- Heq]|Hs]; [contradiction|apply H, Hs].
      * intros H s Hs. apply H. right. exact Hs.
Qed.

Lemma parallel_pos (s t : Z) : (0 < parallel E s t)%nat <-> In (s, t) E.
Proof.
  unfold parallel. clear Hout HV.
  induction E as [|[a b] l IH]; simpl; [split; [lia|intros []]|].
  destruct (bool_decide (a = s)) eqn:Ha, (bool_decide (b = t)) eqn:Hb; simpl;
    try apply bool_decide_eq_true in Ha; try apply bool_decide_eq_true in Hb;
    try apply bool_decide_eq_false in Ha;
    try apply bool_decide_eq_false in Hb; subst.
  - split; [intros _; now left|lia].
  - rewrite IH. split; [tauto|]. intros [Heq|H]; [congruence|exact H].
  - rewrite IH. split; [tauto|]. intros [Heq|H]; [congruence|exact H].
  - rewrite IH. split; [tauto|]. intros [Heq|H]; [congruence|exact H].
Qed.

Lemma before_snoc_old (order : list Z) (v s t : Z) :
  before order s t -> before (order ++ [v]) s t.
Proof.
  intros (i & j & Hij & Hi & Hj). exists i, j. split; [exact Hij|].
  split; apply lookup_app_l_Some; assumption.
Qed.

Lemma before_snoc_new (order : list Z) (v s : Z) :
  In s order -> before (order ++ [v]) s v.
Proof.
  intros Hs. apply list_elem_of_In, list_elem_of_lookup_1 in Hs as [i Hi].
  exists i, (length order). split; [apply lookup_lt_Some in Hi; exact Hi|].
  split; [apply lookup_app_l_Some, Hi|].
  rewrite lookup_app_r by lia. rewrite Nat.sub_diag. reflexivity.
Qed.

(** One iteration of the [while] loop. *)
Lemma kahn_step (indegree : gmap Z Z) (v : Z) (q order : list Z) :
  kahn_invariant E V indegree (v :: q) order ->
  exists indegree' q',
    release (default [] (out_edges !! v)) indegree q
    = Returned (indegree', q')
    /\ kahn_invariant E V indegree' q' (order ++ [v]).
Proof.
  intros (Hnd & Hsub & Hdeg & Hzero & Hfwd).
  assert (Hfresh : ~ In v order).
  { intros Hin. apply NoDup_app in Hnd as (_ & Hdisj & _).
    apply (Hdisj v); [apply list_elem_of_In, Hin|left]. }
  assert (Hts : forall u, In u (targets_of (default [] (out_edges !! v))) -> In (v, u) E).
  { intros u Hu. apply parallel_pos. rewrite <- count_targets.
    apply (count_occ_In Z.eq_dec) in Hu. exact Hu. }
  destruct (release_spec (default [] (out_edges !! v)) indegree q)
    as (indegree' & added & Hrun & Hmap & Hndadd & Hadded).
  { intros u Hu. pose proof (Hts u Hu) as He.
    exists (Z.of_nat (pending E order u)). split.
    - apply Hdeg. apply (HV _ He).
    - rewrite count_targets, (pending_snoc order v u Hfresh). lia. }
  exists indegree', (q ++ added). split; [exact Hrun|].
  assert (Hnew : forall u, In u added <->
                           In u (targets_of (default [] (out_edges !! v))) /\ pending E (order ++ [v]) u = 0%nat).
  { intros u. rewrite Hadded. split.
    - intros [Hu Hval]. split; [exact Hu|].
      rewrite (Hdeg u) in Hval by (apply (HV _ (Hts u Hu))).
      injection Hval as Hval. rewrite count_targets in Hval.
      pose proof (pending_snoc order v u Hfresh). lia.
    - intros [Hu Hz]. split; [exact Hu|].
      rewrite (Hdeg u) by (apply (HV _ (Hts u Hu))).
      rewrite count_targets, (pending_snoc order v u Hfresh), Hz.
      reflexivity. }
  assert (Hblocked : forall u, In u (targets_of (default [] (out_edges !! v))) -> ~ In u (order ++ v :: q)).
  { intros u Hu Hin. pose proof (Hts u Hu) as He.
    apply (Hzero u) in Hin; [|apply (HV _ He)].
    pose proof (pending_snoc order v u Hfresh).
    apply parallel_pos in He. lia. }
  assert (Hshape : (order ++ [v]) ++ q ++ added = (order ++ v :: q) ++ added)
    by (rewrite <- !app_assoc; reflexivity).
  split; [|split; [|split; [|split]]].
  - rewrite Hshape. apply NoDup_app. split; [exact Hnd|].
    split; [|exact Hndadd].
    intros u Hu Hadd. apply list_elem_of_In, Hnew in Hadd as [Hts' _].
    apply (Hblocked u Hts'), list_elem_of_In, Hu.
  - intros u Hu. rewrite Hshape in Hu. apply in_app_iff in Hu as [Hu|Hu].
    + apply Hsub, Hu.
    + apply Hnew in Hu as [Hu _]. apply (HV _ (Hts u Hu)).
  - intros u Hu. rewrite Hmap, (Hdeg u Hu). simpl. f_equal.
    rewrite count_targets. pose proof (pending_snoc order v u Hfresh). lia.
  - intros u Hu. rewrite Hshape, in_app_iff, Hnew. split.
    + intros [Hold|[_ Hz]]; [|exact Hz].
      apply (Hzero u Hu) in Hold.
      pose proof (pending_snoc order v u Hfresh). lia.
    + intros Hz.
      destruct (Nat.eq_dec (pending E order u) 0%nat) as [Hold|Hold].
      * left. apply (Hzero u Hu), Hold.
      * right. split; [|exact Hz].
        apply (count_occ_In Z.eq_dec).
        rewrite count_targets.
        pose proof (pending_snoc order v u Hfresh). lia.
  - intros s t He Ht. apply in_app_iff in Ht as [Ht|[<-|[]]].
    + apply before_snoc_old, Hfwd; assumption.
    + apply before_snoc_new.
      assert (Hv : pending E order v = 0%nat).
      { apply (Hzero v); [apply (HV _ He)|].
        apply in_app_iff. right. now left. }
      apply (proj1 (pending_zero order v) Hv), He.
Qed.

Lemma NoDup_length_le (l : list Z) :
  NoDup l -> (forall v, In v l -> v ∈ V) -> (length l <= size V)%nat.
Proof.
  intros Hnd Hsub. unfold size, set_size. simpl.
  apply submseteq_length, NoDup_submseteq; [exact Hnd|].
  intros x Hx. apply elem_of_elements, Hsub, list_elem_of_In, Hx.
Qed.

(** The loop ends within its fuel and keeps its invariant. *)
Lemma kahn_runs (fuel : nat) :
  forall indegree q order,
    kahn_invariant E V indegree q order ->
    (size V <= fuel + length order)%nat ->
    exists final indegree',
      kahn fuel out_edges indegree q order = Returned final
      /\ kahn_invariant E V indegree' [] final.
Proof.
  induction fuel as [|fuel IH]; intros indegree q order Hinv Hfuel.
  - destruct q as [|v q]; [exists order, indegree; split; [reflexivity|exact Hinv]|].
    exfalso. destruct Hinv as (Hnd & Hsub & _).
    pose proof (NoDup_length_le _ Hnd Hsub) as Hle.
    rewrite length_app in Hle. simpl in Hle. lia.
  - destruct q as [|v q]; [exists order, indegree; split; [reflexivity|exact Hinv]|].
    destruct (kahn_step indegree v q order Hinv)
      as (indegree' & q' & Hrun & Hinv').
    simpl. rewrite Hrun. apply (IH indegree' q' (order ++ [v]) Hinv').
    rewrite length_app. simpl. lia.
Qed.

End Kahn.

Section Cycles.

Lemma tc_subrel (R R' : relation Z) :
  (forall a b, R' a b -> tc R a b) -> forall a b, tc R' a b -> tc R a b.
Proof.
  intros Hsub a b Hab. induction Hab as [a b Hab|a b c Hab _ IH].
  - apply Hsub, Hab.
  - eapply tc_transitive; [apply Hsub, Hab|exact IH].
Qed.

(** A non-empty finite set in which every element has a predecessor
    holds a cycle. *)
Lemma predecessors_make_a_cycle (U : gset Z) :
  forall R : relation Z,
    U <> ∅ ->
    (forall u, u ∈ U -> exists s, s ∈ U /\ R s u) ->
    exists v, tc R v v.
Proof.
  induction U as [|x X Hx IH] using set_ind_L; intros R Hne Hpred.
  - contradiction.
  - destruct (Hpred x) as (p & Hp & Hpx); [set_solver|].
    destruct (decide (p = x)) as [->|Hpne].
    { exists x. apply tc_once, Hpx. }
    assert (HpX : p ∈ X) by set_solver.
    destruct (IH (fun a b => R a b \/ (R a x /\ R x b))) as [v Hv].
    + set_solver.
    + intros u Hu. destruct (Hpred u) as (s & Hs & Hsu); [set_solver|].
      destruct (decide (s = x)) as [->|Hsne].
      * exists p. split; [exact HpX|]. right. split; assumption.
      * exists s. split; [set_solver|]. left. exact Hsu.
    + exists v. revert Hv. apply tc_subrel.
      intros a b [Hab|[Hax Hxb]]; [apply tc_once, Hab|].
      eapply tc_l; [exact Hax|apply tc_once, Hxb].
Qed.

Lemma before_trans (order : list Z) (a b c : Z) :
  NoDup order -> before order a b -> before order b c -> before order a c.
Proof.
  intros Hnd (i & j & Hij & Hi & Hj) (j' & k & Hjk & Hj' & Hk).
  assert (j = j') by (eapply NoDup_lookup; eassumption). subst j'.
  exists i, k. split; [lia|]. split; assumption.
Qed.

Lemma before_irrefl (order : list Z) (a : Z) :
  NoDup order -> ~ before order a a.
Proof.
  intros Hnd (i & j & Hij & Hi & Hj).
  assert (i = j) by (eapply NoDup_lookup; eassumption). lia.
Qed.

(** A relation whose pairs all go forward in a duplicate-free list has no
    cycle. *)
Lemma forward_is_acyclic (R : relation Z) (order : list Z) :
  NoDup order -> (forall s t, R s t -> before order s t) ->
  forall v, ~ tc R v v.
Proof.
  intros Hnd Hfwd v Hv. apply (before_irrefl order v Hnd).
  assert (Hall : forall a b, tc R a b -> before order a b).
  { intros a b Hab. induction Hab as [a b Hab|a b c Hab _ IH].
    - apply Hfwd, Hab.
    - exact (before_trans order a b c Hnd (Hfwd _ _ Hab) IH). }
  apply Hall, Hv.
Qed.

End Cycles.

Section KahnEnd.

Import Graph.

Variables (V : gset Z) (E : list (Z * Z)).
Hypothesis HV : forall e, In e E -> e.1 ∈ V /\ e.2 ∈ V.

Lemma kahn_final_sound (indegree : gmap Z Z) (order : list Z) :
  kahn_invariant E V indegree [] order ->
  length order = size V ->
  NoDup order
  /\ (forall v, In v order <-> v ∈ V)
  /\ (forall s t, In (s, t) E -> before order s t).
Proof.
  intros (Hnd & Hsub & _ & _ & Hfwd) Hlen. rewrite app_nil_r in *.
  assert (Hperm : order ≡ₚ elements V).
  { apply submseteq_length_Permutation.
    - apply NoDup_submseteq; [exact Hnd|].
      intros x Hx. apply elem_of_elements, Hsub, list_elem_of_In, Hx.
    - rewrite Hlen. reflexivity. }
  assert (Hall : forall v, In v order <-> v ∈ V).
  { intros v. rewrite <- list_elem_of_In, Hperm, elem_of_elements.
    reflexivity. }
  split; [exact Hnd|]. split; [exact Hall|].
  intros s t He. apply Hfwd; [exact He|]. apply Hall, (HV _ He).
Qed.

Lemma kahn_final_cycle (indegree : gmap Z Z) (order : list Z) :
  kahn_invariant E V indegree [] order ->
  length order <> size V ->
  exists v, tc (fun s t => In (s, t) E) v v.
Proof.
  intros (Hnd & Hsub & _ & Hzero & _) Hlen. rewrite app_nil_r in *.
  apply (predecessors_make_a_cycle (V ∖ list_to_set order)).
  - intros Hempty. apply Hlen. apply Nat.le_antisymm.
    + apply (NoDup_length_le V); assumption.
    + unfold size, set_size. simpl.
      apply submseteq_length, NoDup_submseteq; [apply NoDup_elements|].
      intros x Hx. apply elem_of_elements in Hx.
      destruct (decide (x ∈ order)) as [Hin|Hnot]; [exact Hin|].
      exfalso. assert (x ∈ V ∖ list_to_set order) by set_solver.
      set_solver.
  - intros u Hu. apply elem_of_difference in Hu as [HuV Hnot].
    rewrite elem_of_list_to_set in Hnot.
    assert (Hpos : pending E order u <> 0%nat).
    { intros Hz. apply Hnot, list_elem_of_In, (Hzero u HuV), Hz. }
    unfold pending in Hpos.
    destruct (List.filter _ E) as [|e l] eqn:Hfilter; [contradiction|].
    assert (He : In e (List.filter
                        (fun e : Z * Z => bool_decide (e.2 = u)
                                          && negb (bool_decide (e.1 ∈ order)))
                        E)) by (rewrite Hfilter; now left).
    apply filter_In in He as [He Hprop].
    apply andb_true_iff in Hprop as [Htarget Hsource].
    apply bool_decide_eq_true in Htarget.
    apply negb_true_iff, bool_decide_eq_false in Hsource.
    exists e.1. split.
    + apply elem_of_difference. split; [apply (HV _ He)|].
      rewrite elem_of_list_to_set. exact Hsource.
    + rewrite <- Htarget. destruct e. exact He.
Qed.

End KahnEnd.

Section TopologicalSort.

Import Graph.

Lemma pending_nil (E : list (Z * Z)) (v : Z) :
  pending E [] v
  = length (List.filter (fun e : Z * Z => bool_decide (e.2 = v)) E).
Proof.
  unfold pending. induction E as [|e l IH]; [reflexivity|].
  cbn [List.filter].
  rewrite (bool_decide_eq_false_2 (e.1 ∈ [])) by (apply not_elem_of_nil).
  cbn [negb]. rewrite andb_true_r.
  destruct (bool_decide (e.2 = v)); cbn [length]; rewrite IH; reflexivity.
Qed.

Lemma indegrees_lookup (in_edges : Adjacency) (vs : list Z) (v : Z) :
  NoDup vs -> In v vs ->
  indegrees in_edges vs !! v
  = Some (Z.of_nat (length (default [] (in_edges !! v)))).
Proof.
  intros Hnd Hin. unfold indegrees. apply elem_of_list_to_map_1.
  - rewrite <- list_fmap_compose.
    replace (fmap _ vs) with vs; [exact Hnd|].
    clear. induction vs as [|x l IH]; [reflexivity|].
    rewrite fmap_cons, <- IH. reflexivity.
  - apply list_elem_of_fmap. exists v. split; [reflexivity|].
    apply list_elem_of_In, Hin.
Qed.

(** The state in which the loop of [topological_sort] starts. *)
Lemma kahn_initial (in_edges : Adjacency) (V : gset Z) (E : list (Z * Z))
    (vs : list Z) :
  NoDup vs -> (forall v, In v vs <-> v ∈ V) ->
  (forall t, length (default [] (in_edges !! t))
             = length (List.filter (fun e : Z * Z => bool_decide (e.2 = t)) E)) ->
  kahn_invariant E V (indegrees in_edges vs)
    (List.filter (fun v => bool_decide (indegrees in_edges vs !! v = Some 0))
       vs)
    [].
Proof.
  intros Hnd Hvs Hin.
  assert (Hdeg : forall v, v ∈ V ->
            indegrees in_edges vs !! v = Some (Z.of_nat (pending E [] v))).
  { intros v Hv. rewrite indegrees_lookup; [|exact Hnd|apply Hvs, Hv].
    rewrite pending_nil, Hin. reflexivity. }
  split; [|split; [|split; [|split]]]; simpl.
  - apply (sublist_NoDup _ vs); [exact Hnd|apply filter_sublist].
  - intros v Hv. apply filter_In in Hv as [Hv _]. apply Hvs, Hv.
  - exact Hdeg.
  - intros v Hv. rewrite filter_In, bool_decide_eq_true, (Hdeg v Hv).
    split.
    + intros [_ [= Hz]]. lia.
    + intros Hz. split; [apply Hvs, Hv|]. rewrite Hz. reflexivity.
  - intros s t _ [].
Qed.

(** The lists that the loop of [adjacency_lists_fast] builds, in terms of
    the pairs (source, target) it read. *)
Lemma adjacency_loop_lists (g : GraphStorage) (src_ofs tgt_ofs : Z)
    (src_field tgt_field : Field) (dur : option (Z * Field))
    (indices : list nat) :
  forall out inn out' inn',
    adjacency_loop g src_ofs tgt_ofs src_field tgt_field dur indices out inn
    = Got (out', inn') ->
    exists L : list (Z * Z),
      Forall2 (fun i e =>
                 unpack_one (dtype src_field) (buffer g)
                   (Z.of_nat i * total_size (schema g) + src_ofs) = Got e.1
                 /\ unpack_one (dtype tgt_field) (buffer g)
                      (Z.of_nat i * total_size (schema g) + tgt_ofs)
                    = Got e.2)
              indices L
      /\ (forall s, targets_of (default [] (out' !! s))
                    = targets_of (default [] (out !! s))
                      ++ (snd <$> List.filter
                                    (fun e : Z * Z => bool_decide (e.1 = s)) L))
      /\ (forall t, length (default [] (inn' !! t))
                    = (length (default [] (inn !! t))
                       + length (List.filter
                                   (fun e : Z * Z => bool_decide (e.2 = t)) L))%nat).
Proof.
  induction indices as [|i rest IH]; intros out inn out' inn'.
  - simpl. intros [= <- <-]. exists []. split; [constructor|].
    split; intros x; simpl; [rewrite app_nil_r|rewrite Nat.add_0_r];
      reflexivity.
  - simpl.
    destruct (unpack_one (dtype src_field) _ _) as [s0|] eqn:Hs;
      [|discriminate].
    destruct (unpack_one (dtype tgt_field) _ _) as [t0|] eqn:Ht;
      [|discriminate].
    destruct (match dur with Some _ => _ | None => _ end) as [w0|];
      [|discriminate].
    intros Hrun. destruct (IH _ _ _ _ Hrun) as (L & Hreads & Hout & Hinn).
    exists ((s0, t0) :: L). split; [constructor; [split|]; assumption|].
    split.
    + intros s. rewrite Hout. unfold adj_append, Adjacency in *.
      cbn [List.filter fst].
      destruct (decide (s0 = s)) as [->|Hne].
      * rewrite lookup_insert_eq. simpl.
        rewrite (bool_decide_eq_true_2 (s = s)) by reflexivity.
        unfold targets_of. rewrite fmap_app, fmap_cons, <- app_assoc.
        reflexivity.
      * rewrite lookup_insert_ne by exact Hne.
        rewrite (bool_decide_eq_false_2 (s0 = s)) by exact Hne.
        reflexivity.
    + intros t. rewrite Hinn. unfold adj_append, Adjacency in *.
      cbn [List.filter snd].
      destruct (decide (t0 = t)) as [->|Hne].
      * rewrite lookup_insert_eq. simpl.
        rewrite (bool_decide_eq_true_2 (t = t)) by reflexivity.
        rewrite length_app. simpl. lia.
      * rewrite lookup_insert_ne by exact Hne.
        rewrite (bool_decide_eq_false_2 (t0 = t)) by exact Hne.
        reflexivity.
Qed.

(** What the loops read for edge [i] is what [get_edge] returns for it. *)
Lemma edge_reads (g : GraphStorage) (src_ofs tgt_ofs : Z)
    (src_field tgt_field : Field) :
  NoDup (field_names (schema g)) -> well_sized g ->
  offsets (schema g) (source_field g) = Some src_ofs ->
  offsets (schema g) (target_field g) = Some tgt_ofs ->
  field_map (schema g) (source_field g) = Some src_field ->
  field_map (schema g) (target_field g) = Some tgt_field ->
  forall i, In i (edge_indices g) ->
    exists m s t,
      get_edge g (Z.of_nat i) = Got m
      /\ m !! source_field g = Some s /\ m !! target_field g = Some t
      /\ unpack_one (dtype src_field) (buffer g)
           (Z.of_nat i * total_size (schema g) + src_ofs) = Got s
      /\ unpack_one (dtype tgt_field) (buffer g)
           (Z.of_nat i * total_size (schema g) + tgt_ofs) = Got t
      /\ read_duration g (duration_reader (schema g)) i
         = Got (default 0 (m !! "duration")).
Proof.
  intros Hnd Hsized Hso Hto Hsf Htf i Hi.
  apply in_seq in Hi as [_ Hi]. simpl in Hi.
  destruct (field_of_edge g i _ _ _ Hnd Hsized Hi Hso Hsf)
    as (m & s & Hm & Hms & Hus).
  destruct (field_of_edge g i _ _ _ Hnd Hsized Hi Hto Htf)
    as (m' & t & Hm' & Hmt & Hut).
  destruct (duration_of_edge g i Hnd Hsized Hi) as (m'' & Hm'' & Hw).
  rewrite Hm in Hm'. injection Hm' as <-.
  rewrite Hm in Hm''. injection Hm'' as <-.
  exists m, s, t. repeat split; assumption.
Qed.

Lemma iteration_length (iter : gset Z -> list Z) (V : gset Z) :
  iteration_order iter -> length (iter V) = size V.
Proof.
  intros Hiter. destruct (Hiter V) as [Hnd Hin].
  unfold size, set_size. simpl. apply Permutation_length.
  apply NoDup_Permutation; [exact Hnd|apply NoDup_elements|].
  intros x. rewrite elem_of_elements, list_elem_of_In. apply Hin.
Qed.

(** The dictionaries and the vertex set of a well-formed store, in terms
    of the list of the (source, target) pairs of its edges. *)
Lemma store_graph (g : GraphStorage) :
  NoDup (field_names (schema g)) -> well_sized g ->
  In (source_field g) (field_names (schema g)) ->
  In (target_field g) (field_names (schema g)) ->
  exists out inn V (L : list (Z * Z)),
    adjacency_lists_fast g = Got (out, inn)
    /\ get_vertices g = Got V
    /\ (forall s, targets_of (default [] (out !! s))
                  = snd <$> List.filter
                              (fun e : Z * Z => bool_decide (e.1 = s)) L)
    /\ (forall t, length (default [] (inn !! t))
                  = length (List.filter
                              (fun e : Z * Z => bool_decide (e.2 = t)) L))
    /\ (forall s t, In (s, t) L <-> stored_edge g s t)
    /\ (forall e, In e L -> e.1 ∈ V /\ e.2 ∈ V).
Proof.
  intros Hnd Hsized Hs Ht.
  destruct (endpoints_found g Hnd Hs Ht)
    as (so & to & sf & tf & Hends & Hso & Hto & Hsf & Htf).
  pose proof (edge_reads g so to sf tf Hnd Hsized Hso Hto Hsf Htf) as Hread.
  destruct (adjacency_loop_spec g so to sf tf (duration_reader (schema g))
              (edge_indices g) ∅ ∅) as (out & inn & Hloop & _).
  { intros i Hi.
    destruct (Hread i Hi) as (m & s & t & _ & _ & _ & Hus & Hut & Hw).
    eexists s, t, _. repeat split; eassumption. }
  destruct (vertices_loop_spec g so to sf tf (edge_indices g) ∅)
    as (V & Hvloop & HVchar).
  { intros i Hi.
    destruct (Hread i Hi) as (m & s & t & _ & _ & _ & Hus & Hut & _).
    eauto. }
  assert (Hadj : adjacency_lists_fast g = Got (out, inn))
    by (unfold adjacency_lists_fast; rewrite Hends; exact Hloop).
  assert (Hvert : get_vertices g = Got V)
    by (unfold get_vertices; rewrite Hends; exact Hvloop).
  destruct (adjacency_loop_lists _ _ _ _ _ _ _ _ _ _ _ Hloop)
    as (L & Hreads & Hout & Hinn).
  assert (Hout' : forall s,
            targets_of (default [] (out !! s))
            = snd <$> List.filter (fun e : Z * Z => bool_decide (e.1 = s)) L).
  { intros s. rewrite Hout. unfold Adjacency. rewrite lookup_empty.
    reflexivity. }
  assert (Hinn' : forall t,
            length (default [] (inn !! t))
            = length (List.filter (fun e : Z * Z => bool_decide (e.2 = t)) L)).
  { intros t. rewrite Hinn. unfold Adjacency. rewrite lookup_empty.
    reflexivity. }
  assert (Hedge : forall s t, In (s, t) L <-> stored_edge g s t).
  { intros s t. split.
    - intros He.
      apply list_elem_of_In, list_elem_of_lookup_1 in He as [k Hk].
      destruct (Forall2_lookup_r _ _ _ _ _ Hreads Hk) as (i & Hi & Hus & Hut).
      simpl in Hus, Hut.
      destruct (Hread i) as (m & s' & t' & Hm & Hms & Hmt & Hus' & Hut' & _).
      { apply list_elem_of_In. eapply list_elem_of_lookup_2. exact Hi. }
      exists (Z.of_nat i), m. split; [exact Hm|].
      rewrite Hus in Hus'. rewrite Hut in Hut'.
      injection Hus' as <-. injection Hut' as <-. split; assumption.
    - intros (i & m & Hm & Hms & Hmt).
      pose proof (get_edge_got_range _ _ _ Hm) as Hi.
      assert (Hin : In (Z.to_nat i) (edge_indices g)).
      { apply in_seq. simpl. split; [lia|]. apply Z2Nat.inj_lt; lia. }
      destruct (Hread _ Hin)
        as (m' & s' & t' & Hm' & Hms' & Hmt' & Hus & Hut & _).
      apply list_elem_of_In, list_elem_of_lookup_1 in Hin as [k Hk].
      destruct (Forall2_lookup_l _ _ _ _ _ Hreads Hk) as ([a b] & He & Ha & Hb).
      simpl in Ha, Hb. rewrite Hus in Ha. rewrite Hut in Hb.
      rewrite Z2Nat.id in Hm' by lia.
      rewrite Hm in Hm'. injection Hm' as <-.
      injection Ha as <-. injection Hb as <-.
      assert (s' = s) by congruence. assert (t' = t) by congruence.
      subst. apply list_elem_of_In. eapply list_elem_of_lookup_2. exact He. }
  assert (HV : forall e, In e L -> e.1 ∈ V /\ e.2 ∈ V).
  { intros e He.
    apply list_elem_of_In, list_elem_of_lookup_1 in He as [k Hk].
    destruct (Forall2_lookup_r _ _ _ _ _ Hreads Hk) as (i & Hi & Hus & Hut).
    assert (Hin : In i (edge_indices g)).
    { apply list_elem_of_In. eapply list_elem_of_lookup_2. exact Hi. }
    split; apply HVchar; right; exists i; (split; [exact Hin|]); auto. }
  exists out, inn, V, L. repeat (split; [assumption|]). exact HV.
Qed.

(** The two ways [topological_sort] ends on a well-formed store. *)
Lemma topological_sort_cases (iter : gset Z -> list Z) (g : GraphStorage) :
  iteration_order iter ->
  NoDup (field_names (schema g)) -> well_sized g ->
  In (source_field g) (field_names (schema g)) ->
  In (target_field g) (field_names (schema g)) ->
  exists V,
    get_vertices g = Got V
    /\ ((exists order,
           topological_sort iter g = Returned order
           /\ NoDup order
           /\ (forall v, In v order <-> v ∈ V)
           /\ (forall s t, stored_edge g s t -> before order s t))
        \/ (topological_sort iter g = Raised GraphContainsCycle
            /\ exists v, tc (stored_edge g) v v)).
Proof.
  intros Hiter Hnd Hsized Hs Ht.
  destruct (store_graph g Hnd Hsized Hs Ht)
    as (out & inn & V & L & Hadj & Hvert & Hout' & Hinn' & Hedge & HV).
  exists V. split; [exact Hvert|].
  destruct (Hiter V) as [Hvsnd Hvs].
  pose proof (kahn_initial inn V L (iter V) Hvsnd Hvs Hinn') as Hinit.
  destruct (kahn_runs out V L Hout' HV (length (iter V)) _ _ _ Hinit)
    as (final & indegree' & Hrun & Hfinal).
  { rewrite (iteration_length iter V Hiter). simpl. lia. }
  unfold topological_sort. rewrite Hadj, Hvert. cbv zeta. rewrite Hrun.
  destruct (decide (length final = size V)) as [Hlen|Hlen].
  - left. exists final. rewrite (bool_decide_eq_true_2 _ Hlen).
    split; [reflexivity|].
    destruct (kahn_final_sound V L HV indegree' final Hfinal Hlen)
      as (Hndf & Hall & Hfwd).
    split; [exact Hndf|]. split; [exact Hall|].
    intros s t Hst. apply Hfwd, Hedge, Hst.
  - right. rewrite (bool_decide_eq_false_2 _ Hlen). split; [reflexivity|].
    destruct (kahn_final_cycle V L HV indegree' final Hfinal Hlen)
      as [v Hv].
    exists v. revert Hv. apply tc_subrel. intros a b Hab.
    apply tc_once, Hedge, Hab.
Qed.

(** X24: on a well-formed store (distinct field names, source and target
    fields in the schema, buffer holding exactly the records), and
    whatever the order in which Python visits the vertex set,
    [topological_sort] ends in one of two ways.  Either it returns a list
    that holds every vertex of [get_vertices] exactly once and in which the
    source of every stored edge comes before its target, and the graph has
    no cycle; or it raises 'Graph contains a cycle', and the stored edges
    do form a cycle.  It never fails in another way, and its loop ends
    within one iteration per vertex. *)
Theorem topological_sort_orders_or_finds_a_cycle (iter : gset Z -> list Z)
    (g : GraphStorage) :
  iteration_order iter ->
  NoDup (field_names (schema g)) -> well_sized g ->
  In (source_field g) (field_names (schema g)) ->
  In (target_field g) (field_names (schema g)) ->
  exists V,
    get_vertices g = Got V
    /\ ((exists order,
           topological_sort iter g = Returned order
           /\ NoDup order
           /\ (forall v, In v order <-> v ∈ V)
           /\ (forall s t, stored_edge g s t -> before order s t)
           /\ (forall v, ~ tc (stored_edge g) v v))
        \/ (topological_sort iter g = Raised GraphContainsCycle
            /\ exists v, tc (stored_edge g) v v)).
Proof.
  intros Hiter Hnd Hsized Hs Ht.
  destruct (topological_sort_cases iter g Hiter Hnd Hsized Hs Ht)
    as (V & Hvert & [(order & Hrun & Hndo & Hall & Hfwd)|Hcycle]).
  - exists V. split; [exact Hvert|]. left. exists order.
    repeat (split; [assumption|]).
    exact (forward_is_acyclic _ order Hndo Hfwd).
  - exists V. split; [exact Hvert|]. right. exact Hcycle.
Qed.

(** The store with the edges 1 -> 2 and 2 -> 3, visited in the order
    [elements] gives. *)
Lemma topological_sort_orders_or_finds_a_cycle_witness :
  exists V,
    get_vertices two_edges = Got V
    /\ ((exists order,
           topological_sort elements two_edges = Returned order
           /\ NoDup order
           /\ (forall v, In v order <-> v ∈ V)
           /\ (forall s t, stored_edge two_edges s t -> before order s t)
           /\ (forall v, ~ tc (stored_edge two_edges) v v))
        \/ (topological_sort elements two_edges
            = Raised GraphContainsCycle
            /\ exists v, tc (stored_edge two_edges) v v)).
Proof.
  apply (topological_sort_orders_or_finds_a_cycle elements two_edges).
  - intros V. split; [apply NoDup_elements|].
    intros v. rewrite <- list_elem_of_In. apply elem_of_elements.
  - apply (bool_decide_unpack _). vm_compute. exact I.
  - split; [simpl; lia|reflexivity].
  - simpl. auto.
  - simpl. auto.
Defined.

(** X25: on a well-formed store [is_dag] always answers, and it answers
    true exactly when the stored edges form no cycle (a self-loop is a
    cycle), whatever the order in which Python visits the vertex set. *)
Theorem is_dag_iff_acyclic (iter : gset Z -> list Z) (g : GraphStorage) :
  iteration_order iter ->
  NoDup (field_names (schema g)) -> well_sized g ->
  In (source_field g) (field_names (schema g)) ->
  In (target_field g) (field_names (schema g)) ->
  exists b,
    is_dag iter g = Returned b
    /\ (b = true <-> forall v, ~ tc (stored_edge g) v v).
Proof.
  intros Hiter Hnd Hsized Hs Ht. unfold is_dag.
  destruct (topological_sort_cases iter g Hiter Hnd Hsized Hs Ht)
    as (V & _ & [(order & -> & Hndo & _ & Hfwd)|[-> [v Hv]]]).
  - exists true. split; [reflexivity|]. split; [intros _|reflexivity].
    exact (forward_is_acyclic _ order Hndo Hfwd).
  - exists false. split; [reflexivity|]. split; [discriminate|].
    intros Hacyclic. exfalso. exact (Hacyclic v Hv).
Qed.

Lemma is_dag_iff_acyclic_witness :
  exists b,
    is_dag elements two_edges = Returned b
    /\ (b = true <-> forall v, ~ tc (stored_edge two_edges) v v).
Proof.
  apply (is_dag_iff_acyclic elements two_edges).
  - intros V. split; [apply NoDup_elements|].
    intros v. rewrite <- list_elem_of_In. apply elem_of_elements.
  - apply (bool_decide_unpack _). vm_compute. exact I.
  - split; [simpl; lia|reflexivity].
  - simpl. auto.
  - simpl. auto.
Defined.

End TopologicalSort.

(** ** The breadth-first search of the edge store *)

Section Walks.

Variable R : relation Z.

Lemma walk_single (s : Z) : walk R s [s] s.
Proof.
  split; [reflexivity|]. split; [reflexivity|].
  intros i a b Ha Hb. destruct i; discriminate.
Qed.

Lemma walk_snoc (s v t : Z) (p : list Z) :
  walk R s p v -> R v t -> walk R s (p ++ [t]) t.
Proof.
  intros (Hhead & Hlast & Hsteps) Hvt.
  destruct p as [|x p]; [discriminate|].
  split; [exact Hhead|]. split; [apply last_snoc|].
  intros i a b Ha Hb.
  destruct (decide (S i < length (x :: p))%nat) as [Hlt|Hge].
  - rewrite lookup_app_l in Ha by lia. rewrite lookup_app_l in Hb by lia.
    exact (Hsteps i a b Ha Hb).
  - assert (Hi : S i = length (x :: p)).
    { apply lookup_lt_Some in Hb. rewrite length_app in Hb. simpl in *. lia. }
    rewrite lookup_app_l in Ha by lia.
    rewrite lookup_app_r in Hb by lia.
    rewrite Hi, Nat.sub_diag in Hb. injection Hb as <-.
    rewrite last_lookup in Hlast.
    replace (pred (length (x :: p))) with i in Hlast by (simpl in *; lia).
    rewrite Hlast in Ha. injection Ha as <-. exact Hvt.
Qed.

Lemma walk_prefix (s t a : Z) (p : list Z) (j : nat) :
  walk R s p t -> p !! j = Some a ->
  walk R s (take (S j) p) a /\ length (take (S j) p) = S j.
Proof.
  intros (Hhead & _ & Hsteps) Ha.
  pose proof (lookup_lt_Some _ _ _ Ha) as Hj.
  assert (Hlen : length (take (S j) p) = S j) by (rewrite length_take; lia).
  split; [|exact Hlen]. split; [|split].
  - destruct p; [discriminate|]. exact Hhead.
  - rewrite last_lookup, Hlen. simpl. rewrite lookup_take_lt by lia.
    exact Ha.
  - intros i x y Hx Hy.
    pose proof (lookup_lt_Some _ _ _ Hy) as Hi. rewrite Hlen in Hi.
    rewrite lookup_take_lt in Hx by lia.
    rewrite lookup_take_lt in Hy by lia.
    exact (Hsteps i x y Hx Hy).
Qed.

(** A walk that starts inside a set and ends outside leaves it at some
    step. *)
Lemma walk_leaves (s t : Z) (p : list Z) (inside : gset Z) :
  walk R s p t -> s ∈ inside -> t ∉ inside ->
  exists j a b, p !! j = Some a /\ p !! S j = Some b
                /\ a ∈ inside /\ b ∉ inside.
Proof.
  intros (Hhead & Hlast & _). revert s Hhead.
  induction p as [|x p IH]; intros s Hhead Hs Ht; [discriminate|].
  injection Hhead as ->.
  destruct p as [|y p].
  - injection Hlast as ->. contradiction.
  - destruct (decide (y ∈ inside)) as [Hy|Hy].
    + destruct (IH Hlast y eq_refl Hy Ht) as (j & a & b & Ha & Hb & Hin & Hout).
      exists (S j), a, b. repeat split; assumption.
    + exists 0%nat, s, y. repeat split; assumption.
Qed.

Lemma walk_nonempty (s t : Z) (p : list Z) :
  walk R s p t -> (1 <= length p)%nat.
Proof.
  intros (Hhead & _). destruct p; [discriminate|]. simpl. lia.
Qed.

Lemma bfs_invariant_initial (source target : Z) (bound : gset Z) :
  bfs_invariant R source target bound {[source]} [(source, 0, [source])] ∅.
Proof.
  unfold bfs_invariant. split_and!.
  - intros v d p [[= <- <- <-]|[]]. split_and!.
    + apply walk_single.
    + reflexivity.
    + set_solver.
    + intros p' Hp'. apply (walk_nonempty _ _ _ Hp').
  - intros u. simpl. set_solver.
  - set_solver.
  - set_solver.
  - set_solver.
  - set_solver.
  - apply NoDup_singleton.
  - intros i j e1 e2 Hij H1 H2.
    destruct j; [|destruct j; discriminate].
    destruct i; [|lia]. simpl in *.
    injection H1 as <-. injection H2 as <-. lia.
  - intros e0 e [= <-] [<-|[]]. lia.
Qed.

End Walks.

Section BreadthFirst.

Variable out_edges : Graph.Adjacency.
Variable R : relation Z.
Variables source target : Z.
Variable bound : gset Z.

Hypothesis Hout :
  forall s t, In t (targets_of (default [] (out_edges !! s))) <-> R s t.
Hypothesis Hbound : forall s t, R s t -> t ∈ bound.

(** Entering an unvisited successor of the vertex being expanded. *)
Lemma bfs_invariant_enqueue (visited done : gset Z) (v d : Z) (p : list Z)
    (q : list (Z * Z * list Z)) (t : Z) :
  bfs_invariant R source target bound visited ((v, d, p) :: q) done ->
  R v t -> t ∉ visited ->
  bfs_invariant R source target bound ({[t]} ∪ visited)
    ((v, d, p) :: q ++ [(t, d + 1, p ++ [t])]) done.
Proof.
  intros (H1 & H2 & H3 & H4 & H5 & H6 & H7 & H8 & H9) Hvt Ht.
  destruct (H1 v d p (or_introl eq_refl)) as (Hwalk & Hd & Hvdone & Hmin).
  change ((v, d, p) :: q ++ [(t, d + 1, p ++ [t])])
    with (((v, d, p) :: q) ++ [(t, d + 1, p ++ [t])]).
  set (open := (v, d, p) :: q) in *.
  unfold bfs_invariant. split_and!.
  - intros v' d' p' Hin. apply in_app_iff in Hin as [Hin|[[= <- <- <-]|[]]].
    + exact (H1 _ _ _ Hin).
    + split_and!.
      * exact (walk_snoc R _ _ _ _ Hwalk Hvt).
      * rewrite length_app. simpl. lia.
      * intros Hdone. apply Ht, H2. left. exact Hdone.
      * intros p' Hp'.
        destruct (walk_leaves R _ _ _ visited Hp' H4 Ht)
          as (j & a & b & Ha & Hb & Hain & Hbout).
        assert (Hab : R a b) by (destruct Hp' as (_ & _ & Hs); eauto).
        apply H2 in Hain as [Hadone|Haopen];
          [exfalso; apply Hbout; exact (H3 _ _ Hadone Hab)|].
        apply list_elem_of_In, list_elem_of_fmap in Haopen
          as ([[a' da] pa] & Heq & He).
        unfold entry_vertex in Heq. simpl in Heq. subst a'.
        pose proof He as Hidx. apply list_elem_of_lookup_1 in Hidx as [k Hk].
        apply list_elem_of_In in He.
        destruct (H1 _ _ _ He) as (_ & Hda & _ & Hmina).
        destruct (walk_prefix R _ _ _ _ _ Hp' Ha) as (Hpre & Hprelen).
        specialize (Hmina _ Hpre). rewrite Hprelen in Hmina.
        assert (Hsorted : d <= da)
          by exact (H8 0%nat k (v, d, p) (a, da, pa) ltac:(lia) eq_refl Hk).
        apply lookup_lt_Some in Hb. rewrite length_app. simpl. lia.
  - intros u. rewrite fmap_app, in_app_iff. simpl.
    rewrite elem_of_union, elem_of_singleton, H2.
    unfold entry_vertex at 3. simpl. intuition.
  - intros u x Hu Hux. apply elem_of_union_r. exact (H3 _ _ Hu Hux).
  - apply elem_of_union_r, H4.
  - exact H5.
  - intros x [Hx%elem_of_singleton|Hx]%elem_of_union.
    + subst x. apply elem_of_union_r. exact (Hbound _ _ Hvt).
    + exact (H6 _ Hx).
  - rewrite fmap_app. apply NoDup_app. split; [exact H7|].
    split; [|apply NoDup_singleton].
    intros x Hx [= ->]%list_elem_of_singleton.
    apply Ht, H2. right. apply list_elem_of_In. exact Hx.
  - intros i j e1 e2 Hij He1 He2.
    destruct (decide (j < length open)%nat) as [Hj|Hj].
    + rewrite lookup_app_l in He1 by lia. rewrite lookup_app_l in He2 by lia.
      exact (H8 _ _ _ _ Hij He1 He2).
    + rewrite lookup_app_r in He2 by lia.
      destruct (j - length open)%nat eqn:Hjj; [|destruct n; discriminate].
      injection He2 as <-. unfold entry_hops at 2. simpl.
      destruct (decide (i < length open)%nat) as [Hi|Hi].
      * rewrite lookup_app_l in He1 by lia.
        apply (H9 (v, d, p) e1 eq_refl).
        apply list_elem_of_In. eapply list_elem_of_lookup_2. exact He1.
      * rewrite lookup_app_r in He1 by lia.
        replace (i - length open)%nat with 0%nat in He1 by lia.
        injection He1 as <-. unfold entry_hops. simpl. lia.
  - intros e0 e [= <-] Hin. apply in_app_iff in Hin as [Hin|[<-|[]]].
    + exact (H9 _ _ eq_refl Hin).
    + unfold entry_hops. simpl. lia.
Qed.

(** Leaving the queue, once every successor is visited. *)
Lemma bfs_invariant_dequeue (visited done : gset Z) (v d : Z) (p : list Z)
    (q : list (Z * Z * list Z)) :
  bfs_invariant R source target bound visited ((v, d, p) :: q) done ->
  (forall t, R v t -> t ∈ visited) -> v <> target ->
  bfs_invariant R source target bound visited q (done ∪ {[v]}).
Proof.
  intros (H1 & H2 & H3 & H4 & H5 & H6 & H7 & H8 & H9) Hclosed Hvt.
  rewrite fmap_cons in H7. apply NoDup_cons in H7 as [Hvq H7].
  unfold bfs_invariant. split_and!.
  - intros v' d' p' Hin.
    destruct (H1 _ _ _ (or_intror Hin)) as (Hw & Hd & Hdone & Hmin).
    split_and!; try assumption.
    intros [Hx|Hx%elem_of_singleton]%elem_of_union; [exact (Hdone Hx)|].
    subst v'. apply Hvq. apply list_elem_of_fmap.
    exists (v, d', p'). split; [reflexivity|]. apply list_elem_of_In, Hin.
  - intros u. rewrite H2, elem_of_union, elem_of_singleton. simpl.
    unfold entry_vertex at 1. simpl. intuition.
  - intros u x [Hu|Hu%elem_of_singleton]%elem_of_union Hux.
    + exact (H3 _ _ Hu Hux).
    + subst u. exact (Hclosed _ Hux).
  - exact H4.
  - intros [Hx|Hx%elem_of_singleton]%elem_of_union; [exact (H5 Hx)|].
    congruence.
  - exact H6.
  - exact H7.
  - intros i j e1 e2 Hij He1 He2.
    exact (H8 (S i) (S j) e1 e2 ltac:(lia) He1 He2).
  - intros e0 e Hhead Hin.
    destruct q as [|e0' q']; [destruct Hin|]. injection Hhead as ->.
    pose proof (H9 (v, d, p) e eq_refl (or_intror Hin)) as Hle.
    pose proof (H8 0%nat 1%nat (v, d, p) e0 ltac:(lia) eq_refl eq_refl) as Hlo.
    unfold entry_hops in *. simpl in *. lia.
Qed.

(** The loop over the successors of the vertex taken from the queue. *)
Lemma expand_spec (v d : Z) (p : list Z) (done : gset Z)
    (entries : list (Z * Z * Z)) :
  forall visited q,
    (forall t, In t (targets_of entries) -> R v t) ->
    bfs_invariant R source target bound visited ((v, d, p) :: q) done ->
    (forall t, R v t -> t ∈ visited \/ In t (targets_of entries)) ->
    exists visited' q',
      Graph.expand entries d p visited q = (visited', q')
      /\ bfs_invariant R source target bound visited' ((v, d, p) :: q') done
      /\ forall t, R v t -> t ∈ visited'.
Proof.
  induction entries as [|[[t0 x] y] rest IH]; intros visited q Hedges Hinv Hpart.
  - exists visited, q. split; [reflexivity|]. split; [exact Hinv|].
    intros t Ht. destruct (Hpart t Ht) as [Hin|[]]. exact Hin.
  - simpl. destruct (decide (t0 ∈ visited)) as [Hin|Hnin].
    + rewrite (bool_decide_eq_true_2 _ Hin). apply IH.
      * intros t Ht. apply Hedges. right. exact Ht.
      * exact Hinv.
      * intros t Ht. destruct (Hpart t Ht) as [Hv|[<-|Hr]]; auto.
    + rewrite (bool_decide_eq_false_2 _ Hnin). apply IH.
      * intros t Ht. apply Hedges. right. exact Ht.
      * apply bfs_invariant_enqueue; [exact Hinv| |exact Hnin].
        apply Hedges. left. reflexivity.
      * intros t Ht. destruct (Hpart t Ht) as [Hv|[<-|Hr]].
        -- left. apply elem_of_union_r, Hv.
        -- left. apply elem_of_union_l, elem_of_singleton. reflexivity.
        -- right. exact Hr.
Qed.

(** The open entries and the finished vertices are all visited, and the
    visited vertices are within the bound. *)
Lemma bfs_invariant_size (visited done : gset Z)
    (open : list (Z * Z * list Z)) :
  bfs_invariant R source target bound visited open done ->
  (size done + length open <= size ({[source]} ∪ bound))%nat.
Proof.
  intros (H1 & H2 & H3 & H4 & H5 & H6 & H7 & H8 & H9).
  assert (Heq : visited = done ∪ list_to_set (entry_vertex <$> open)).
  { apply set_eq. intros u. rewrite H2, elem_of_union, elem_of_list_to_set.
    rewrite list_elem_of_In. reflexivity. }
  assert (Hdisj : done ## list_to_set (C := gset Z) (entry_vertex <$> open)).
  { intros u Hu Hu'. apply elem_of_list_to_set, list_elem_of_fmap in Hu'
      as ([[a da] pa] & -> & He).
    apply list_elem_of_In in He. destruct (H1 _ _ _ He) as (_ & _ & Hnd & _).
    exact (Hnd Hu). }
  pose proof (subseteq_size _ _ H6) as Hle.
  rewrite Heq, (size_union _ _ Hdisj), (size_list_to_set _ H7) in Hle.
  rewrite length_fmap in Hle. exact Hle.
Qed.

(** With one iteration left for every vertex not yet finished, the search
    returns: a shortest walk when it finds the target, nothing when no walk
    leads there. *)
Lemma bfs_runs (fuel : nat) :
  forall visited q done,
    bfs_invariant R source target bound visited q done ->
    (size ({[source]} ∪ bound) <= fuel + size done)%nat ->
    (exists d path,
       Graph.bfs fuel out_edges target visited q
       = Graph.Returned (Some d, path)
       /\ walk R source path target
       /\ d = Z.of_nat (length path) - 1
       /\ forall p', walk R source p' target
                     -> (length path <= length p')%nat)
    \/ (Graph.bfs fuel out_edges target visited q = Graph.Returned (None, [])
        /\ forall p', ~ walk R source p' target).
Proof.
  induction fuel as [|fuel IH]; intros visited q done Hinv Hfuel.
  all: destruct q as [|[[v d] p] q].
  1, 3: right; split; [reflexivity|];
    destruct Hinv as (H1 & H2 & H3 & H4 & H5 & _); intros p' Hp';
    destruct (decide (target ∈ visited)) as [Hin|Hnin];
    [apply H2 in Hin as [Hin|[]]; exact (H5 Hin)|];
    destruct (walk_leaves R _ _ _ visited Hp' H4 Hnin)
      as (j & a & b & Ha & Hb & Hain & Hbout);
    apply H2 in Hain as [Hain|[]];
    apply Hbout, (H3 a b Hain); destruct Hp' as (_ & _ & Hs); eauto.
  all: simpl; destruct (decide (v = target)) as [->|Hne].
  1, 3: rewrite (bool_decide_eq_true_2 (target = target)) by reflexivity;
    left; exists d, p; split; [reflexivity|];
    destruct Hinv as (H1 & _);
    destruct (H1 _ _ _ (or_introl eq_refl)) as (Hw & Hd & _ & Hmin);
    split_and!; assumption.
  - pose proof (bfs_invariant_size _ _ _ Hinv) as Hsize. simpl in *. lia.
  - rewrite (bool_decide_eq_false_2 _ Hne).
    destruct (expand_spec v d p done (default [] (out_edges !! v))
                visited q) as (visited' & q' & Hexp & Hinv' & Hclosed).
    + intros t Ht. apply Hout, Ht.
    + exact Hinv.
    + intros t Ht. right. apply Hout, Ht.
    + rewrite Hexp. apply (IH visited' q' (done ∪ {[v]})).
      * exact (bfs_invariant_dequeue _ _ _ _ _ _ Hinv' Hclosed Hne).
      * destruct Hinv as (H1 & _).
        destruct (H1 _ _ _ (or_introl eq_refl)) as (_ & _ & Hvd & _).
        rewrite (size_union done {[v]}) by set_solver.
        rewrite size_singleton. lia.
Qed.

End BreadthFirst.

Section ShortestPath.

Import Graph.

(** X26: on a well-formed store (distinct field names, source and target
    fields in the schema, buffer holding exactly the records),
    [shortest_path] without a weight field always returns, within one
    iteration of its loop per vertex.  Either it returns a distance and a
    path: the path starts at the source, ends at the target, follows a
    stored edge at each step, the distance is its number of edges, and no
    walk from the source to the target along stored edges is shorter.  Or
    it returns [(None, [])], and then no such walk exists. *)
Theorem shortest_path_finds_a_shortest_walk (g : GraphStorage)
    (source target : Z) :
  NoDup (field_names (schema g)) -> well_sized g ->
  In (source_field g) (field_names (schema g)) ->
  In (target_field g) (field_names (schema g)) ->
  (exists d path,
     shortest_path g source target = Returned (Some d, path)
     /\ walk (stored_edge g) source path target
     /\ d = Z.of_nat (length path) - 1
     /\ forall p', walk (stored_edge g) source p' target
                   -> (length path <= length p')%nat)
  \/ (shortest_path g source target = Returned (None, [])
      /\ forall p', ~ walk (stored_edge g) source p' target).
Proof.
  intros Hnd Hsized Hs Ht.
  destruct (store_graph g Hnd Hsized Hs Ht)
    as (out & inn & V & L & Hadj & Hvert & Hout & _ & Hedge & HV).
  unfold shortest_path. rewrite Hadj, Hvert.
  apply (bfs_runs out (stored_edge g) source target V) with (done := ∅).
  - intros s t. rewrite Hout, <- Hedge. split.
    + intros Hin. apply list_elem_of_In, list_elem_of_fmap in Hin
        as ([a b] & -> & Hin).
      apply list_elem_of_In, filter_In in Hin as [Hin Ha].
      apply bool_decide_eq_true in Ha. simpl in Ha. subst a. exact Hin.
    + intros Hin. apply list_elem_of_In, list_elem_of_fmap.
      exists (s, t). split; [reflexivity|].
      apply list_elem_of_In, filter_In. split; [exact Hin|].
      apply bool_decide_eq_true. reflexivity.
  - intros s t Hst. apply Hedge in Hst. exact (proj2 (HV _ Hst)).
  - apply bfs_invariant_initial.
  - rewrite size_empty, Nat.add_0_r.
    rewrite size_union_alt, size_singleton.
    pose proof (subseteq_size (V ∖ {[source]}) V ltac:(set_solver)). lia.
Qed.

(** From 1 to 3 in the store with the edges 1 -> 2 and 2 -> 3. *)
Lemma shortest_path_finds_a_shortest_walk_witness :
  (exists d path,
     shortest_path two_edges 1 3 = Returned (Some d, path)
     /\ walk (stored_edge two_edges) 1 path 3
     /\ d = Z.of_nat (length path) - 1
     /\ forall p', walk (stored_edge two_edges) 1 p' 3
                   -> (length path <= length p')%nat)
  \/ (shortest_path two_edges 1 3 = Returned (None, [])
      /\ forall p', ~ walk (stored_edge two_edges) 1 p' 3).
Proof.
  apply (shortest_path_finds_a_shortest_walk two_edges 1 3).
  - apply (bool_decide_unpack _). vm_compute. exact I.
  - split; [simpl; lia|reflexivity].
  - simpl. auto.
  - simpl. auto.
Defined.

End ShortestPath.
